(** * pymanopt manifolds: fixed-rank PSD quotient geometries and products

    A shallow embedding of [pymanopt/manifolds/psd.py] and
    [pymanopt/manifolds/product.py].

    Numbers.  float64 and complex128 values are read as elements of one
    numeric field [K] with exact arithmetic; a float is an element of the
    real axis of [K].  A two-dimensional ndarray of shape (n, k) is a
    matrix ['M[K]_(n, k)].  Python integers are [Z]; the integers numpy
    stores in 64 bits wrap around; and the Python floats that the
    constructors compute from integers are binary64 values with their
    rounding ([binary64]).

    Effects.  A Python call either returns, raises, or (numpy only)
    carries on with nan/inf after a RuntimeWarning; [result] has one
    constructor for each.  The process-wide random generator of
    [numpy.random] is threaded explicitly as a state of type [rng]. *)

From Stdlib Require Import String ZArith Lia DecimalString.
From HB Require Import structures.
Set Warnings "-notation-overridden,-ambiguous-paths,-deprecated".
Set Warnings "-notation-incompatible-prefix,-redundant-canonical-projection".
Set Warnings "-register-all".
From mathcomp Require Import boot order algebra.
From mathcomp Require Import algC.

Set Implicit Arguments.
Unset Strict Implicit.
Unset Printing Implicit Defensive.

Import GRing.Theory Num.Theory Order.Theory.
Local Open Scope ring_scope.
Local Open Scope sesquilinear_scope.

(** Python integers keep the notations of [Z] under a delimiter of their
    own. *)
Delimit Scope Z_scope with pyint.

(* ================================================================== *)
(** ** Outcomes of a Python call *)

Inductive exn : Type :=
| AssertionError
| IndexError
| TypeError
| ValueError
| NotImplementedError
| OverflowError
| ZeroDivisionError.

(** [NaN]: numpy met an invalid floating-point operation (division by
    zero, square root of a negative float), warned, and went on; the value
    it produced holds nan or inf. *)
Inductive result (A : Type) : Type :=
| Ok (a : A)
| Raise (e : exn)
| NaN.

Arguments Ok {A} a.
Arguments Raise {A} e.
Arguments NaN {A}.

Definition bind (A B : Type) (m : result A) (f : A -> result B) : result B :=
  match m with
  | Ok a => f a
  | Raise e => Raise e
  | NaN => NaN
  end.

Notation "x <- m ;; f" := (bind m (fun x => f))
  (at level 61, m at next level, right associativity).
Notation "' p <- m ;; f" := (bind m (fun x => let p := x in f))
  (at level 61, p pattern, m at next level, right associativity).

(** A list comprehension whose body may raise: elements are evaluated
    left to right and the first failure ends the comprehension. *)
Section Comprehension.
Variables (A B : Type) (f : A -> result B).

Fixpoint comprehension (s : seq A) : result (seq B) :=
  match s with
  | [::] => Ok [::]
  | a :: s' => b <- f a ;; bs <- comprehension s' ;; Ok (b :: bs)
  end.

End Comprehension.

(** The same with the random generator threaded through the elements. *)
Section ComprehensionRng.
Variables (rng A B : Type) (f : A -> rng -> result (B * rng)).

Fixpoint comprehension_rng (s : seq A) (g : rng) : result (seq B * rng) :=
  match s with
  | [::] => Ok ([::], g)
  | a :: s' =>
      '(b, g1) <- f a g ;;
      '(bs, g2) <- comprehension_rng s' g1 ;;
      Ok (b :: bs, g2)
  end.

End ComprehensionRng.

(** ** Python sequences *)

Definition len (T : Type) (s : seq T) : Z := Z.of_nat (size s).

(** [range(lo, hi)]. *)
Definition range (lo hi : Z) : seq Z :=
  [seq (lo + Z.of_nat i)%pyint | i <- iota 0 (Z.to_nat (hi - lo))].

(** [s[i]]: a negative index counts from the end; an index outside the
    list raises IndexError. *)
Definition getitem (T : Type) (s : seq T) (i : Z) : result T :=
  let j := if (i <? 0)%pyint then (i + len s)%pyint else i in
  if (j <? 0)%pyint then Raise IndexError
  else match drop (Z.to_nat j) s with
       | x :: _ => Ok x
       | [::] => Raise IndexError
       end.

(** A class body as Python keeps it: names bound to methods. *)
Fixpoint lookup (M : Type) (name : string) (d : seq (string * M))
  : option M :=
  match d with
  | [::] => None
  | (key, m) :: d' => if String.eqb key name then Some m else lookup name d'
  end.

(* ================================================================== *)
(** ** Python floats computed from integers *)

(** A finite binary64 float is an integer multiple of 2^-1074, the
    smallest positive float: [finite N] is the float N * 2^-1074.  Every
    operation rounds the exact result to 53 significant bits, to nearest
    with ties to even, and a rounded magnitude of 2^1024 or more is an
    infinity. *)
Module binary64.

Inductive t : Type :=
| finite (N : Z)
| inf (negative : bool)
| nan.

(** The floats 1.0 and 2.0^1024 in units of 2^-1074. *)
Definition one : Z := (2 ^ 1074)%pyint.
Definition huge : Z := (2 ^ 2098)%pyint.

(** The integer nearest to N / D for D > 0, the even one on a tie. *)
Definition nearest_even (N D : Z) : Z :=
  let q := (N / D)%pyint in
  let r := (N mod D)%pyint in
  if (2 * r <? D)%pyint then q
  else if (D <? 2 * r)%pyint then (q + 1)%pyint
  else if Z.even q then q else (q + 1)%pyint.

(** The distance between neighbouring floats around N units: 53
    significant bits, and never below one unit. *)
Definition spacing (N : Z) : Z :=
  (2 ^ Z.max 0 (Z.log2 (Z.abs N) - 52))%pyint.

(** The float nearest to the rational number of A / B units, B > 0. *)
Definition round (A B : Z) : t :=
  let s := spacing (Z.abs A / B)%pyint in
  let N := (nearest_even A (B * s) * s)%pyint in
  if (huge <=? Z.abs N)%pyint then inf (N <? 0)%pyint else finite N.

(** [x - y] on floats. *)
Definition sub (x y : t) : t :=
  match x, y with
  | finite M, finite N => round (M - N) 1
  | finite _, inf s => inf (negb s)
  | inf s, finite _ => inf s
  | inf s, inf s' => if Bool.eqb s s' then nan else inf s
  | _, _ => nan
  end.

(** [x + y] on floats. *)
Definition add (x y : t) : t :=
  match x, y with
  | finite M, finite N => round (M + N) 1
  | finite _, inf s => inf s
  | inf s, finite _ => inf s
  | inf s, inf s' => if Bool.eqb s s' then inf s else nan
  | _, _ => nan
  end.

End binary64.

(** [float(z)], the conversion Python applies to an int operand of a float
    operation: correctly rounded, OverflowError beyond the floats. *)
Definition float_of_pyint (z : Z) : result binary64.t :=
  match binary64.round (z * binary64.one) 1 with
  | binary64.finite N => Ok (binary64.finite N)
  | _ => Raise OverflowError
  end.

(** [a / b] on Python ints: the correctly rounded quotient. *)
Definition int_truediv (a b : Z) : result binary64.t :=
  if (b =? 0)%pyint then Raise ZeroDivisionError
  else match (if (b <? 0)%pyint
              then binary64.round (- a * binary64.one) (- b)
              else binary64.round (a * binary64.one) b) with
       | binary64.finite N => Ok (binary64.finite N)
       | _ => Raise OverflowError
       end.

(** [int(x)] of a float: truncation towards zero. *)
Definition int_ (x : binary64.t) : result Z :=
  match x with
  | binary64.finite N => Ok (Z.quot N binary64.one)
  | binary64.inf _ => Raise OverflowError
  | binary64.nan => Raise ValueError
  end.

(* ================================================================== *)
(** ** Numbers: Python ints and numpy floats *)

Section Numbers.
Variable K : numClosedFieldType.

(** A number as an attribute holds it: a Python int, or a numpy float
    (an element of the real axis of [K]). *)
Inductive number : Type :=
| PyInt (z : Z)
| NpFloat (x : K).

(** An integer as a float, in the exact reading of floats. *)
Definition float_of_int (z : Z) : K :=
  match z with
  | Z0 => 0
  | Zpos p => (Pos.to_nat p)%:R
  | Zneg p => - (Pos.to_nat p)%:R
  end.

(** [d ** 2]. *)
Definition square (d : number) : number :=
  match d with
  | PyInt z => PyInt (z * z)%pyint
  | NpFloat x => NpFloat (x ^+ 2)
  end.

Definition is_pyint (d : number) : bool :=
  match d with PyInt _ => true | NpFloat _ => false end.

Definition pyint_of (d : number) : Z :=
  match d with PyInt z => z | NpFloat _ => 0%pyint end.

Definition npfloat_of (d : number) : K :=
  match d with PyInt z => float_of_int z | NpFloat x => x end.

End Numbers.

Arguments PyInt {K} z.

(* ================================================================== *)
(** ** The numpy and numpy.linalg primitives the manifolds call *)

Module np.

(** *** Integers in arrays *)

Definition fits_int64 (z : Z) : bool :=
  ((- 2 ^ 63 <=? z) && (z <? 2 ^ 63))%pyint.

Definition fits_uint64 (z : Z) : bool :=
  ((0 <=? z) && (z <? 2 ^ 64))%pyint.

(** Arithmetic in 64 bits wraps around. *)
Definition wrap_int64 (z : Z) : Z :=
  ((z + 2 ^ 63) mod 2 ^ 64 - 2 ^ 63)%pyint.

Definition wrap_uint64 (z : Z) : Z := (z mod 2 ^ 64)%pyint.

(** The numbers an attribute [dim] holds: a Python int, or the numpy
    scalar that [np.sum] returned. *)
Inductive scalar : Type :=
| Python (z : Z)
| Int64 (z : Z)
| UInt64 (z : Z)
| Float64 (x : binary64.t).

Inductive dtype : Type := int64 | uint64 | float64 | object.

(** The dtype of an element of a list that becomes an array: a numpy
    scalar has its own; a Python int is int64 when it fits, else uint64
    when it fits, else object (the Python int itself is kept). *)
Definition dtype_of (x : scalar) : dtype :=
  match x with
  | Python z =>
      if fits_int64 z then int64
      else if fits_uint64 z then uint64 else object
  | Int64 _ => int64
  | UInt64 _ => uint64
  | Float64 _ => float64
  end.

(** An integer of dtype int64: a numpy int64, or a Python int that
    fits. *)
Definition is_int64 (x : scalar) : bool :=
  match x with
  | Python z | Int64 z => fits_int64 z
  | UInt64 _ | Float64 _ => false
  end.

(** The common dtype of two: int64 and uint64 meet in float64. *)
Definition promote_types (a b : dtype) : dtype :=
  match a, b with
  | object, _ | _, object => object
  | float64, _ | _, float64 => float64
  | int64, int64 => int64
  | uint64, uint64 => uint64
  | int64, uint64 | uint64, int64 => float64
  end.

(** The dtype of [np.array(s)]; the empty array is a float64 one. *)
Definition result_type (s : seq scalar) : dtype :=
  match s with
  | [::] => float64
  | x :: s' => foldl promote_types (dtype_of x) [seq dtype_of y | y <- s']
  end.

(** The integer a scalar holds. *)
Definition int_value (x : scalar) : Z :=
  match x with
  | Python z | Int64 z | UInt64 z => z
  | Float64 (binary64.finite N) => Z.quot N binary64.one
  | Float64 _ => 0%pyint
  end.

Definition to_float64 (x : scalar) : binary64.t :=
  match x with
  | Python z | Int64 z | UInt64 z => binary64.round (z * binary64.one) 1
  | Float64 x => x
  end.

(** [np.sum(s)] of a list of such numbers: the list becomes an array of
    the common dtype and its elements are added in that dtype.  The sum
    of the empty list is the float 0.0.  (A float64 sum is taken here
    from left to right, whereas numpy adds longer arrays pairwise; an
    object array is added by Python's own [+], which is taken here on
    the integers the elements hold.) *)
Definition sum_scalars (s : seq scalar) : scalar :=
  match result_type s with
  | int64 =>
      Int64 (foldl (fun acc x => wrap_int64 (acc + int_value x)) 0%pyint s)
  | uint64 =>
      UInt64 (foldl (fun acc x => wrap_uint64 (acc + int_value x)) 0%pyint s)
  | float64 =>
      Float64 (foldl (fun acc x => binary64.add acc (to_float64 x))
                     (binary64.finite 0) s)
  | object => Python (foldl (fun acc x => acc + int_value x)%pyint 0%pyint s)
  end.

Section Numpy.
Variable K : numClosedFieldType.

(** [np.tensordot(U, V)] with the default [axes=2]: the sum of the
    entrywise products, no conjugation. *)
Definition tensordot (n k : nat) (U V : 'M[K]_(n, k)) : K :=
  \sum_i \sum_j U i j * V i j.

(** [np.sqrt] of a float. *)
Definition sqrt (x : K) : result K :=
  if 0 <= x then Ok (sqrtC x) else NaN.

(** [Y / s] for an array [Y] and a float [s]: each entry is divided; a
    zero divisor yields nan or inf as soon as there is an entry. *)
Definition true_divide (n k : nat) (Y : 'M[K]_(n, k)) (s : K)
  : result 'M[K]_(n, k) :=
  if (s == 0) && (0 < n)%N && (0 < k)%N then NaN
  else Ok (map_mx (fun y => y / s) Y).

(** [Y / v[:, np.newaxis]]: row [i] of [Y] is divided by [v[i]]. *)
Definition true_divide_rows (n k : nat) (Y : 'M[K]_(n, k)) (v : 'cV[K]_n)
  : result 'M[K]_(n, k) :=
  if [exists i, v i 0 == 0] && (0 < k)%N then NaN
  else Ok (\matrix_(i, j) (Y i j / v i 0)).

(** [Y * v[:, np.newaxis]]: row [i] of [Y] is multiplied by [v[i]]. *)
Definition multiply_rows (n k : nat) (Y : 'M[K]_(n, k)) (v : 'cV[K]_n)
  : 'M[K]_(n, k) :=
  \matrix_(i, j) (Y i j * v i 0).

(** [(Y * H).sum(axis=1)]: entrywise product, then the sum of each row. *)
Definition rowwise_dot (n k : nat) (Y H : 'M[K]_(n, k)) : 'cV[K]_n :=
  \col_i \sum_j Y i j * H i j.

Definition zeros (n k : nat) : 'M[K]_(n, k) := const_mx 0.

(** [np.sum] of a list of floats. *)
Definition sum (s : seq K) : K := \sum_(x <- s) x.

(** [np.sum] of a list of numbers: a list of Python ints is summed as
    integers, a list that holds a float is summed as float64, and the sum
    of the empty list is the float 0.0. *)
Inductive total : Type :=
| Integer (t : scalar)
| Floating (x : K).

Definition sum_numbers (s : seq (number K)) : total :=
  match s with
  | [::] => Floating 0
  | _ :: _ =>
      if all (@is_pyint K) s then
        Integer (sum_scalars [seq Python (pyint_of d) | d <- s])
      else Floating (sum [seq npfloat_of d | d <- s])
  end.

(** [np.sqrt] of such a sum: an integer is converted to float64 first, and
    a Python int (the sum of an object array) has no sqrt method. *)
Definition sqrt_total (v : total) : result K :=
  match v with
  | Floating x => sqrt x
  | Integer (Int64 z) | Integer (UInt64 z) => sqrt (float_of_int K z)
  | Integer (Float64 (binary64.finite N)) =>
      sqrt (float_of_int K N / float_of_int K binary64.one)
  | Integer (Float64 _) => NaN
  | Integer (Python _) => Raise TypeError
  end.

(** [np.iscomplexobj]: whether the dtype of an array is complex.  An
    array is represented by its entries and its dtype is read off them:
    float64 when every entry is real, complex128 as soon as one is not.
    (The arrays of complex dtype that hold real entries only have no
    representation of their own; what is stated of [float] returning is
    stated of float64 operands.) *)
Definition iscomplexobj (n k : nat) (U : 'M[K]_(n, k)) : bool :=
  ~~ [forall i, forall j, U i j \is Num.real].

End Numpy.
End np.

Module la.
Section Linalg.
Variable K : numClosedFieldType.

(** [la.norm(U, "fro")]. *)
Definition norm_fro (n k : nat) (U : 'M[K]_(n, k)) : K :=
  sqrtC (\sum_i \sum_j `|U i j| ^+ 2).

(** [la.norm(Y, axis=1)]: the Euclidean norm of each row. *)
Definition norm_axis1 (n k : nat) (Y : 'M[K]_(n, k)) : 'cV[K]_n :=
  \col_i sqrtC (\sum_j `|Y i j| ^+ 2).

End Linalg.
End la.

(** The contract of [scipy.linalg.solve_continuous_lyapunov(A, Q)]: it
    returns a solution [X] of [A X + X A^H = Q]. *)
Definition lyapunov_solution (K : numClosedFieldType) (k : nat)
  (A Q X : 'M[K]_k) : Prop :=
  A *m X + X *m A ^t* = Q.

(** The inputs on which the solver is relied upon: Hermitian positive
    definite [A]. *)
Definition hermitian_posdef (K : numClosedFieldType) (k : nat)
  (A : 'M[K]_k) : Prop :=
  A ^t* = A /\ forall x : 'rV[K]_k, x != 0 -> 0 < (x *m A *m x ^t*) 0 0.

Definition lyap_contract (K : numClosedFieldType) (k : nat)
  (lyap : 'M[K]_k -> 'M[K]_k -> 'M[K]_k) : Prop :=
  forall A Q : 'M[K]_k,
    hermitian_posdef A -> lyapunov_solution A Q (lyap A Q).

(** [float(x)] of a numpy number: a number of dtype float64 is returned
    as it is; one of complex dtype cannot be converted, whatever its
    value. *)
Definition float_ (K : numClosedFieldType) (complex_dtype : bool) (x : K)
  : result K :=
  if complex_dtype then Raise TypeError else Ok x.

(** An array of dtype float64: every entry lies on the real axis. *)
Definition float64 (K : numClosedFieldType) (n k : nat)
  (Y : 'M[K]_(n, k)) : Prop :=
  forall i j, Y i j \is Num.real.

(* ================================================================== *)
(** ** Python values and the manifold interface *)

Section Values.
Variable K : numClosedFieldType.

(** The Python values that travel through a product manifold: arrays,
    plain lists and TangentVector instances of further values. *)
Inductive value : Type :=
| VArray (n k : nat) (A : 'M[K]_(n, k))
| VList (items : seq value)
| VTangentVector (items : seq value).

(** [X[k]] on a point or tangent vector of a product, which is a Python
    sequence.  (Indexing an ndarray would give a row view; no such value
    exists in [value], and the case is reported as TypeError.) *)
Definition value_getitem (X : value) (k : Z) : result value :=
  match X with
  | VList items | VTangentVector items => getitem items k
  | VArray _ _ _ => Raise TypeError
  end.

(** [c * v] for a numpy float [c].  An array is scaled.  (numpy would
    coerce a Python sequence to an array of higher rank; no such value
    exists in [value], and the case is reported as TypeError.) *)
Definition float_times (c : K) (v : value) : result value :=
  match v with
  | VArray n k A => Ok (VArray (c *: A))
  | VList _ | VTangentVector _ => Raise TypeError
  end.

(** [x / y] on numpy floats. *)
Definition float_divide (x y : K) : result K :=
  if y == 0 then NaN else Ok (x / y).

End Values.

Arguments VList {K} items.
Arguments VTangentVector {K} items.

(** What [Product] asks of a child manifold: the attributes and methods
    it reads and calls. *)
Module Manifold.
Section Interface.
Variable K : numClosedFieldType.
Variable rng : Type.
Local Notation value := (value K).

Record t : Type := {
  name : string;
  dim : np.scalar;
  typicaldist : result (number K);
  inner : value -> value -> value -> result K;
  dist : value -> value -> result K;
  proj : value -> value -> result value;
  egrad2rgrad : value -> value -> result value;
  ehess2rhess : value -> value -> value -> value -> result value;
  exp : value -> value -> result value;
  retr : value -> value -> result value;
  log : value -> value -> result value;
  rand : rng -> result (value * rng);
  randvec : value -> rng -> result (value * rng);
  transp : value -> value -> value -> result value;
  pairmean : value -> value -> result value;
  zerovec : value -> result value
}.

(** Modelled from the spec: class [Manifold] of manifold.py, which is not
    among the sources.  The spec describes it as a capability contract
    that fixes the attributes [name] and [dim] at construction and leaves
    the operators to the concrete manifolds; here an operator that no
    concrete manifold supplies raises NotImplementedError. *)
Definition contract (name : string) (dimension : Z) : t :=
  {| name := name;
     dim := np.Python dimension;
     typicaldist := Raise NotImplementedError;
     inner := fun _ _ _ => Raise NotImplementedError;
     dist := fun _ _ => Raise NotImplementedError;
     proj := fun _ _ => Raise NotImplementedError;
     egrad2rgrad := fun _ _ => Raise NotImplementedError;
     ehess2rhess := fun _ _ _ _ => Raise NotImplementedError;
     exp := fun _ _ => Raise NotImplementedError;
     retr := fun _ _ => Raise NotImplementedError;
     log := fun _ _ => Raise NotImplementedError;
     rand := fun _ => Raise NotImplementedError;
     randvec := fun _ _ => Raise NotImplementedError;
     transp := fun _ _ _ => Raise NotImplementedError;
     pairmean := fun _ _ => Raise NotImplementedError;
     zerovec := fun _ => Raise NotImplementedError |}.

Definition __init__ (name : string) (dimension : Z) : result t :=
  Ok (contract name dimension).

End Interface.
End Manifold.

Section Operands.
Variable K : numClosedFieldType.

(** An operand of a manifold of n-by-k matrices.  An array of any other
    shape is reported as ValueError (numpy raises it or broadcasts,
    depending on the shapes), a sequence as TypeError. *)
Definition as_array (n k : nat) (v : value K) : result 'M[K]_(n, k) :=
  match v with
  | VArray n' k' A =>
      match n' =P n, k' =P k with
      | ReflectT en, ReflectT ek => Ok (castmx (en, ek) A)
      | _, _ => Raise ValueError
      end
  | VList _ | VTangentVector _ => Raise TypeError
  end.

End Operands.

Arguments as_array : simpl never.

(** Construction.  [Manifold.__init__] lives in manifold.py, which is not
    part of the sources: the constructors take it as [super__init__] and
    keep whatever state it builds. *)
Record instance (B : Type) : Type := new_instance {
  _n : Z;
  _k : Z;
  super : B
}.

(** [str(i)] inside an f-string. *)
Definition str (i : Z) : string := NilZero.string_of_int (Z.to_int i).

(* ================================================================== *)
(** ** psd.py: class _PSDFixedRank *)

Module _PSDFixedRank.
Section Construction.
Variable B : Type.
Variable super__init__ : string -> Z -> result B.

Definition __init__ (n k : Z) (name : string) (dimension : Z)
  : result (instance B) :=
  b <- super__init__ name dimension ;;
  Ok {| _n := n; _k := k; super := b |}.

End Construction.

Section Methods.
Variable K : numClosedFieldType.
Variable rng : Type.
Variable randn : forall n k : nat, rng -> 'M[K]_(n, k) * rng.
Variable lyap : forall k : nat, 'M[K]_k -> 'M[K]_k -> 'M[K]_k.
Variables n k : nat.

Definition typicaldist : Z := (10 + Z.of_nat k)%pyint.

Definition inner (P : Type) (Y : P) (U V : 'M[K]_(n, k)) : result K :=
  float_ (np.iscomplexobj U || np.iscomplexobj V) (np.tensordot U V).

Definition norm (P : Type) (Y : P) (U : 'M[K]_(n, k)) : result K :=
  Ok (la.norm_fro U).

Definition proj (Y H : 'M[K]_(n, k)) : 'M[K]_(n, k) :=
  let YtY := Y^T *m Y in
  let AS := Y^T *m H - H^T *m Y in
  let Omega := lyap YtY AS in
  H - Y *m Omega.

Definition egrad2rgrad (P Q : Type) (Y : P) (egrad : Q) : Q := egrad.

Definition ehess2rhess (P Q : Type) (Y : 'M[K]_(n, k)) (egrad : P)
  (ehess : 'M[K]_(n, k)) (U : Q) : 'M[K]_(n, k) :=
  proj Y ehess.

Definition retr (Y U : 'M[K]_(n, k)) : 'M[K]_(n, k) := Y + U.

Definition rand (g : rng) : 'M[K]_(n, k) * rng := randn n k g.

(** [_normalize] calls [self.norm], which a subclass may override: the
    method is passed in. *)
Definition _normalize
  (self_norm : option unit -> 'M[K]_(n, k) -> result K)
  (Y : 'M[K]_(n, k)) : result 'M[K]_(n, k) :=
  s <- self_norm None Y ;; np.true_divide Y s.

(** [randvec] calls [self.rand] and, through [_normalize], [self.norm]. *)
Definition randvec
  (self_rand : rng -> 'M[K]_(n, k) * rng)
  (self_norm : option unit -> 'M[K]_(n, k) -> result K)
  (Y : 'M[K]_(n, k)) (g : rng) : result ('M[K]_(n, k) * rng) :=
  let (H, g') := self_rand g in
  let P := proj Y H in
  V <- _normalize self_norm P ;; Ok (V, g').

Definition transp (P : Type) (Y : P) (Z U : 'M[K]_(n, k)) : 'M[K]_(n, k) :=
  proj Z U.

Definition zerovec (P : Type) (X : P) : 'M[K]_(n, k) := np.zeros K n k.

End Methods.
End _PSDFixedRank.

(* ================================================================== *)
(** ** psd.py: class PSDFixedRank(_PSDFixedRank) *)

Module PSDFixedRank.
Section Construction.
Variable B : Type.
Variable super__init__ : string -> Z -> result B.

Definition name (n k : Z) : string :=
  ("Quotient manifold of " ++ str n ++ "x" ++ str n
   ++ " psd matrices of rank " ++ str k)%string.

(** [int(k * n - k * (k - 1) / 2)]: the quotient is a float, so the
    difference is taken in floats. *)
Definition dimension (n k : Z) : result Z :=
  half <- int_truediv (k * (k - 1))%pyint 2%pyint ;;
  area <- float_of_pyint (k * n)%pyint ;;
  int_ (binary64.sub area half).

Definition __init__ (n k : Z) : result (instance B) :=
  let name := name n k in
  dimension <- dimension n k ;;
  _PSDFixedRank.__init__ super__init__ n k name dimension.

End Construction.

(** Every method is inherited. *)
Section Methods.
Variable K : numClosedFieldType.
Variable rng : Type.
Variable randn : forall n k : nat, rng -> 'M[K]_(n, k) * rng.
Variable lyap : forall k : nat, 'M[K]_k -> 'M[K]_k -> 'M[K]_k.
Variables n k : nat.

Definition typicaldist : Z := _PSDFixedRank.typicaldist k.
Definition inner := @_PSDFixedRank.inner K n k.
Definition norm := @_PSDFixedRank.norm K n k.
Definition proj := @_PSDFixedRank.proj K lyap n k.
Definition egrad2rgrad := @_PSDFixedRank.egrad2rgrad.
Definition ehess2rhess := @_PSDFixedRank.ehess2rhess K lyap n k.
Definition retr := @_PSDFixedRank.retr K n k.
Definition rand := @_PSDFixedRank.rand K rng randn n k.
Definition _normalize := @_PSDFixedRank._normalize K n k (@norm _).
Definition randvec :=
  @_PSDFixedRank.randvec K rng lyap n k rand (@norm _).
Definition transp := @_PSDFixedRank.transp K lyap n k.
Definition zerovec := @_PSDFixedRank.zerovec K n k.

(** A PSDFixedRank instance as [Product] sees it.  [name] and [dim] are
    stored by the base initializer, and [dist], [exp], [log], [pairmean]
    are not defined in psd.py but inherited from manifold.py (class
    Manifold and the mixin RetrAsExpMixin): they are those of [base]. *)
Definition manifold (base : Manifold.t K rng) : Manifold.t K rng :=
  {| Manifold.name := Manifold.name base;
     Manifold.dim := Manifold.dim base;
     Manifold.typicaldist := Ok (PyInt typicaldist);
     Manifold.inner := fun X G H =>
       g <- as_array n k G ;; h <- as_array n k H ;; inner X g h;
     Manifold.dist := Manifold.dist base;
     Manifold.proj := fun X U =>
       y <- as_array n k X ;; u <- as_array n k U ;; Ok (VArray (proj y u));
     Manifold.egrad2rgrad := fun X U => Ok (egrad2rgrad X U);
     Manifold.ehess2rhess := fun X egrad ehess U =>
       y <- as_array n k X ;; eh <- as_array n k ehess ;;
       Ok (VArray (ehess2rhess y egrad eh U));
     Manifold.exp := Manifold.exp base;
     Manifold.retr := fun X U =>
       y <- as_array n k X ;; u <- as_array n k U ;; Ok (VArray (retr y u));
     Manifold.log := Manifold.log base;
     Manifold.rand := fun g => let (A, g') := rand g in Ok (VArray A, g');
     Manifold.randvec := fun X g =>
       y <- as_array n k X ;; '(V, g') <- randvec y g ;; Ok (VArray V, g');
     Manifold.transp := fun X1 X2 G =>
       z <- as_array n k X2 ;; u <- as_array n k G ;;
       Ok (VArray (transp X1 z u));
     Manifold.pairmean := Manifold.pairmean base;
     Manifold.zerovec := fun X => Ok (VArray (zerovec X)) |}.

End Methods.
End PSDFixedRank.

(* ================================================================== *)
(** ** psd.py: class PSDFixedRankComplex(_PSDFixedRank) *)

Module PSDFixedRankComplex.
Section Construction.
Variable B : Type.
Variable super__init__ : string -> Z -> result B.

Definition name (n k : Z) : string :=
  ("Quotient manifold of Hermitian " ++ str n ++ "x" ++ str n
   ++ " matrices of rank " ++ str k)%string.

Definition dimension (n k : Z) : Z := (2 * k * n - k * k)%pyint.

Definition __init__ (n k : Z) : result (instance B) :=
  _PSDFixedRank.__init__ super__init__ n k (name n k) (dimension n k).

End Construction.

Section Methods.
Variable K : numClosedFieldType.
Variable rng : Type.
Variable randn : forall n k : nat, rng -> 'M[K]_(n, k) * rng.
Variable lyap : forall k : nat, 'M[K]_k -> 'M[K]_k -> 'M[K]_k.
Variable svd : forall k : nat, 'M[K]_k -> 'M[K]_k * 'rV[K]_k * 'M[K]_k.
Variables n k : nat.

Definition inner (P : Type) (Y : P) (U V : 'M[K]_(n, k)) : result K :=
  x <- float_ false ('Re (np.tensordot U V)) ;; Ok (2 * x).

Definition norm (P : Type) (Y : P) (U : 'M[K]_(n, k)) : result K :=
  x <- inner Y U U ;; np.sqrt x.

Definition dist (U V : 'M[K]_(n, k)) : result K :=
  let '(S_, _, D_) := svd (V ^t* *m U) in
  let E := U - V *m S_ *m D_ in
  x <- inner (@None unit) E E ;; Ok (x / 2).

Definition rand (g : rng) : 'M[K]_(n, k) * rng :=
  let rand_ := @_PSDFixedRank.rand K rng randn n k in
  let (A, g1) := rand_ g in
  let (B, g2) := rand_ g1 in
  (A + 'i *: B, g2).

(** Inherited from [_PSDFixedRank]; [self.norm] and [self.rand] resolve to
    the overriding methods above. *)
Definition typicaldist : Z := _PSDFixedRank.typicaldist k.
Definition proj := @_PSDFixedRank.proj K lyap n k.
Definition egrad2rgrad := @_PSDFixedRank.egrad2rgrad.
Definition ehess2rhess := @_PSDFixedRank.ehess2rhess K lyap n k.
Definition retr := @_PSDFixedRank.retr K n k.
Definition _normalize := @_PSDFixedRank._normalize K n k (@norm _).
Definition randvec :=
  @_PSDFixedRank.randvec K rng lyap n k rand (@norm _).
Definition transp := @_PSDFixedRank.transp K lyap n k.
Definition zerovec := @_PSDFixedRank.zerovec K n k.

(** A PSDFixedRankComplex instance as [Product] sees it.  [name] and
    [dim] are stored by the base initializer, and [exp], [log],
    [pairmean] are not defined in psd.py but inherited from manifold.py
    (class Manifold and the mixin RetrAsExpMixin): they are those of
    [base]. *)
Definition manifold (base : Manifold.t K rng) : Manifold.t K rng :=
  {| Manifold.name := Manifold.name base;
     Manifold.dim := Manifold.dim base;
     Manifold.typicaldist := Ok (PyInt typicaldist);
     Manifold.inner := fun X G H =>
       g <- as_array n k G ;; h <- as_array n k H ;; inner X g h;
     Manifold.dist := fun U V =>
       u <- as_array n k U ;; v <- as_array n k V ;; dist u v;
     Manifold.proj := fun X U =>
       y <- as_array n k X ;; u <- as_array n k U ;; Ok (VArray (proj y u));
     Manifold.egrad2rgrad := fun X U => Ok (egrad2rgrad X U);
     Manifold.ehess2rhess := fun X egrad ehess U =>
       y <- as_array n k X ;; eh <- as_array n k ehess ;;
       Ok (VArray (ehess2rhess y egrad eh U));
     Manifold.exp := Manifold.exp base;
     Manifold.retr := fun X U =>
       y <- as_array n k X ;; u <- as_array n k U ;; Ok (VArray (retr y u));
     Manifold.log := Manifold.log base;
     Manifold.rand := fun g => let (A, g') := rand g in Ok (VArray A, g');
     Manifold.randvec := fun X g =>
       y <- as_array n k X ;; '(V, g') <- randvec y g ;; Ok (VArray V, g');
     Manifold.transp := fun X1 X2 G =>
       z <- as_array n k X2 ;; u <- as_array n k G ;;
       Ok (VArray (transp X1 z u));
     Manifold.pairmean := Manifold.pairmean base;
     Manifold.zerovec := fun X => Ok (VArray (zerovec X)) |}.

End Methods.
End PSDFixedRankComplex.

(* ================================================================== *)
(** ** psd.py: class Elliptope *)

Module Elliptope.
Section Construction.
Variable B : Type.
Variable super__init__ : string -> Z -> result B.

Definition name (n k : Z) : string :=
  ("Quotient manifold of " ++ str n ++ "x" ++ str n
   ++ " psd matrices of rank " ++ str k
   ++ " with unit diagonal elements")%string.

(** [int(n * (k - 1) - k * (k - 1) / 2)], in floats as well. *)
Definition dimension (n k : Z) : result Z :=
  half <- int_truediv (k * (k - 1))%pyint 2%pyint ;;
  area <- float_of_pyint (n * (k - 1))%pyint ;;
  int_ (binary64.sub area half).

Definition __init__ (n k : Z) : result (instance B) :=
  let name := name n k in
  dimension <- dimension n k ;;
  b <- super__init__ name dimension ;;
  Ok {| _n := n; _k := k; super := b |}.

End Construction.

Section Methods.
Variable K : numClosedFieldType.
Variable rng : Type.
Variable randn : forall n k : nat, rng -> 'M[K]_(n, k) * rng.
Variable lyap : forall k : nat, 'M[K]_k -> 'M[K]_k -> 'M[K]_k.
Variables n k : nat.

Definition typicaldist : Z := (10 * Z.of_nat k)%pyint.

Definition inner (P : Type) (Y : P) (U V : 'M[K]_(n, k)) : result K :=
  float_ (np.iscomplexobj U || np.iscomplexobj V) (np.tensordot U V).

Definition norm (P : Type) (Y : P) (U : 'M[K]_(n, k)) : result K :=
  x <- inner Y U U ;; np.sqrt x.

Definition _normalize_rows (Y : 'M[K]_(n, k)) : result 'M[K]_(n, k) :=
  np.true_divide_rows Y (la.norm_axis1 Y).

Definition _project_rows (Y H : 'M[K]_(n, k)) : 'M[K]_(n, k) :=
  let inners := np.rowwise_dot Y H in
  H - np.multiply_rows Y inners.

Definition proj (Y H : 'M[K]_(n, k)) : 'M[K]_(n, k) :=
  let eta := _project_rows Y H in
  let YtY := Y^T *m Y in
  let AS := Y^T *m eta - H^T *m Y in
  let Omega := lyap YtY (- AS) in
  eta - map_mx (fun x => x / 2) (Y *m (Omega - Omega^T)).

Definition retr (Y U : 'M[K]_(n, k)) : result 'M[K]_(n, k) :=
  _normalize_rows (Y + U).

Definition egrad2rgrad (Y egrad : 'M[K]_(n, k)) : 'M[K]_(n, k) :=
  _project_rows Y egrad.

Definition ehess2rhess (Y egrad ehess U : 'M[K]_(n, k)) : 'M[K]_(n, k) :=
  let scaling_grad := np.rowwise_dot egrad Y in
  let hess := ehess - np.multiply_rows U scaling_grad in
  let scaling_hess :=
    \col_i \sum_j (U i j * egrad i j + Y i j * ehess i j) in
  let hess := hess - np.multiply_rows Y scaling_hess in
  proj Y hess.

Definition rand (g : rng) : result ('M[K]_(n, k) * rng) :=
  let (A, g') := randn n k g in
  Y <- _normalize_rows A ;; Ok (Y, g').

Definition randvec (Y : 'M[K]_(n, k)) (g : rng)
  : result ('M[K]_(n, k) * rng) :=
  '(A, g') <- rand g ;;
  let H := proj Y A in
  s <- norm Y H ;;
  V <- np.true_divide H s ;; Ok (V, g').

Definition transp (P : Type) (Y : P) (Z U : 'M[K]_(n, k)) : 'M[K]_(n, k) :=
  proj Z U.

Definition zerovec (P : Type) (X : P) : 'M[K]_(n, k) := np.zeros K n k.

(** An Elliptope instance as [Product] sees it.  [name] and [dim] are
    stored by the base initializer, and [dist], [exp], [log], [pairmean]
    are not defined in psd.py but inherited from manifold.py (class
    Manifold and the mixin RetrAsExpMixin): all six are those of
    [base]. *)
Definition manifold (base : Manifold.t K rng) : Manifold.t K rng :=
  {| Manifold.name := Manifold.name base;
     Manifold.dim := Manifold.dim base;
     Manifold.typicaldist := Ok (PyInt typicaldist);
     Manifold.inner := fun X G H =>
       g <- as_array n k G ;; h <- as_array n k H ;; inner X g h;
     Manifold.dist := Manifold.dist base;
     Manifold.proj := fun X U =>
       y <- as_array n k X ;; u <- as_array n k U ;; Ok (VArray (proj y u));
     Manifold.egrad2rgrad := fun X U =>
       y <- as_array n k X ;; u <- as_array n k U ;;
       Ok (VArray (egrad2rgrad y u));
     Manifold.ehess2rhess := fun X egrad ehess U =>
       y <- as_array n k X ;; eg <- as_array n k egrad ;;
       eh <- as_array n k ehess ;; u <- as_array n k U ;;
       Ok (VArray (ehess2rhess y eg eh u));
     Manifold.exp := Manifold.exp base;
     Manifold.retr := fun X U =>
       y <- as_array n k X ;; u <- as_array n k U ;;
       z <- retr y u ;; Ok (VArray z);
     Manifold.log := Manifold.log base;
     Manifold.rand := fun g => '(A, g') <- rand g ;; Ok (VArray A, g');
     Manifold.randvec := fun X g =>
       y <- as_array n k X ;; '(V, g') <- randvec y g ;; Ok (VArray V, g');
     Manifold.transp := fun X1 X2 G =>
       z <- as_array n k X2 ;; u <- as_array n k G ;;
       Ok (VArray (transp X1 z u));
     Manifold.pairmean := Manifold.pairmean base;
     Manifold.zerovec := fun X => Ok (VArray (zerovec X)) |}.

End Methods.
End Elliptope.

(* ================================================================== *)
(** ** product.py: class TangentVector(list) *)

Module TangentVector.
Section Class.
(** The components are tangent vectors of the child manifolds, of type
    [T], and [S] is the type of the numbers that scale them; [add],
    [sub], [mul], [div] and [neg] are the components' own [+], [-], [*],
    [/] and unary [-], which return on all components. *)
Variables (T S : Type).
Variables (add sub : T -> T -> T) (mul : S -> T -> T) (div : T -> S -> T).
Variable neg : T -> T.

Record t : Type := new { items : seq T }.

Definition __add__ (self other : t) : result t :=
  if (len (items self) =? len (items other))%pyint then
    r <- comprehension
           (fun k => a <- getitem (items self) k ;;
                     b <- getitem (items other) k ;; Ok (add a b))
           (range 0 (len (items self))) ;;
    Ok (new r)
  else Raise AssertionError.

Definition __sub__ (self other : t) : result t :=
  if (len (items self) =? len (items other))%pyint then
    r <- comprehension
           (fun k => a <- getitem (items self) k ;;
                     b <- getitem (items other) k ;; Ok (sub a b))
           (range 0 (len (items self))) ;;
    Ok (new r)
  else Raise AssertionError.

Definition __mul__ (self : t) (other : S) : result t :=
  Ok (new [seq mul other val | val <- items self]).

Definition __div__ (self : t) (other : S) : result t :=
  Ok (new [seq div val other | val <- items self]).

Definition __neg__ (self : t) : result t :=
  Ok (new [seq neg val | val <- items self]).

Inductive method : Type :=
| Binary (f : t -> t -> result t)
| Scalar (f : t -> S -> result t)
| Unary (f : t -> result t).

(** The class body; [__rmul__ = __mul__] binds a second name to the same
    method. *)
Definition __dict__ : seq (string * method) :=
  [:: ("__add__"%string, Binary __add__);
      ("__sub__"%string, Binary __sub__);
      ("__mul__"%string, Scalar __mul__);
      ("__rmul__"%string, Scalar __mul__);
      ("__div__"%string, Scalar __div__);
      ("__neg__"%string, Unary __neg__)].

(** Operators of Python 3 with a TangentVector as the left operand.
    [G + H], [G - H], [G * c] and [G / c] look up [__add__], [__sub__],
    [__mul__] and [__truediv__] on the class of [G]; [-G] looks up
    [__neg__].  The base class [list] defines none of [__sub__],
    [__truediv__], [__neg__], and its [__add__], [__mul__], [__rmul__] are
    shadowed by the class body.  When the slot is missing from
    [__dict__] the right operand is asked for the reflected operation: a
    Python int or float declines it on a list, which is a TypeError.  (A
    numpy scalar does not decline: it turns the list into an ndarray.
    For that reason [c * G], which asks [c] first, is not modelled: it
    reaches [__rmul__] of [G] for a Python int or float only.) *)
Definition binary (slot : string) (G H : t) : result t :=
  match lookup slot __dict__ with
  | Some (Binary f) => f G H
  | _ => Raise TypeError
  end.

Definition scalar (slot : string) (G : t) (c : S) : result t :=
  match lookup slot __dict__ with
  | Some (Scalar f) => f G c
  | _ => Raise TypeError
  end.

Definition unary (slot : string) (G : t) : result t :=
  match lookup slot __dict__ with
  | Some (Unary f) => f G
  | _ => Raise TypeError
  end.

(** [G + H], [G - H], [G * c] and [-G] find their method in the class,
    whatever the right operand is; [G / c] finds none and is given for a
    Python int or float [c]. *)
Definition plus (G H : t) : result t := binary "__add__" G H.
Definition minus (G H : t) : result t := binary "__sub__" G H.
Definition times (G : t) (c : S) : result t := scalar "__mul__" G c.
Definition slash (G : t) (c : S) : result t := scalar "__truediv__" G c.
Definition negate (G : t) : result t := unary "__neg__" G.

End Class.
End TangentVector.

(* ================================================================== *)
(** ** product.py: class Product *)

Module Product.
Section Class.
Variable K : numClosedFieldType.
Variable rng : Type.
Local Notation Manifold := (Manifold.t K rng).
Local Notation value := (value K).

Record t : Type := new {
  _manifolds : seq Manifold;
  _nmanifolds : Z;
  _name : string
}.

Definition __init__ (manifolds : seq Manifold) : t :=
  {| _manifolds := manifolds;
     _nmanifolds := len manifolds;
     _name :=
       ("Product manifold: "
        ++ String.concat " X "
             [seq Manifold.name man | man <- manifolds])%string |}.

Section Methods.
Variable self : t.

Definition name : string := _name self.

(** The property [dim]: [dim_scalar] is the numpy scalar it returns,
    [dim] the integer that scalar holds. *)
Definition dim_scalar : np.scalar :=
  np.sum_scalars [seq Manifold.dim man | man <- _manifolds self].

Definition dim : Z := np.int_value dim_scalar.

Definition typicaldist : result K :=
  r <- comprehension
         (fun man : Manifold =>
            d <- Manifold.typicaldist man ;; Ok (square d))
         (_manifolds self) ;;
  np.sqrt_total (np.sum_numbers r).

Definition inner (X G H : value) : result K :=
  r <- comprehension
         (fun k => man <- getitem (_manifolds self) k ;;
                   x <- value_getitem X k ;;
                   g <- value_getitem G k ;;
                   h <- value_getitem H k ;;
                   Manifold.inner man x g h)
         (range 0 (_nmanifolds self)) ;;
  Ok (np.sum r).

Definition norm (X G : value) : result K :=
  x <- inner X G G ;; np.sqrt x.

Definition dist (X Y : value) : result K :=
  r <- comprehension
         (fun k => man <- getitem (_manifolds self) k ;;
                   x <- value_getitem X k ;;
                   y <- value_getitem Y k ;;
                   d <- Manifold.dist man x y ;; Ok (d ^+ 2))
         (range 0 (_nmanifolds self)) ;;
  np.sqrt (np.sum r).

(** The comprehension shared by the two-argument methods. *)
Definition dispatch2 (method : Manifold -> value -> value -> result value)
  (X U : value) : result (seq value) :=
  comprehension
    (fun k => man <- getitem (_manifolds self) k ;;
              x <- value_getitem X k ;;
              u <- value_getitem U k ;;
              method man x u)
    (range 0 (_nmanifolds self)).

Definition proj (X U : value) : result value :=
  r <- dispatch2 (@Manifold.proj K rng) X U ;; Ok (VList r).

Definition egrad2rgrad (X U : value) : result value :=
  r <- dispatch2 (@Manifold.egrad2rgrad K rng) X U ;; Ok (VTangentVector r).

Definition ehess2rhess (X egrad ehess H : value) : result value :=
  _ <- getitem (_manifolds self) (_nmanifolds self - 1)%pyint ;;
  r <- comprehension
         (fun k => man <- getitem (_manifolds self) k ;;
                   x <- value_getitem X k ;;
                   eg <- value_getitem egrad k ;;
                   eh <- value_getitem ehess k ;;
                   h <- value_getitem H k ;;
                   Manifold.ehess2rhess man x eg eh h)
         (range 0 (_nmanifolds self)) ;;
  Ok (VTangentVector r).

Definition exp (X U : value) : result value :=
  r <- dispatch2 (@Manifold.exp K rng) X U ;; Ok (VList r).

Definition retr (X U : value) : result value :=
  r <- dispatch2 (@Manifold.retr K rng) X U ;; Ok (VList r).

Definition log (X U : value) : result value :=
  r <- dispatch2 (@Manifold.log K rng) X U ;; Ok (VTangentVector r).

Definition rand (g : rng) : result (value * rng) :=
  '(r, g') <- comprehension_rng
                (fun k g0 => man <- getitem (_manifolds self) k ;;
                             Manifold.rand man g0)
                (range 0 (_nmanifolds self)) g ;;
  Ok (VList r, g').

Definition randvec (X : value) (g : rng) : result (value * rng) :=
  '(r, g') <- comprehension_rng
                (fun k g0 =>
                   s <- np.sqrt (float_of_int K (_nmanifolds self)) ;;
                   c <- float_divide 1 s ;;
                   man <- getitem (_manifolds self) k ;;
                   x <- value_getitem X k ;;
                   '(v, g1) <- Manifold.randvec man x g0 ;;
                   w <- float_times c v ;;
                   Ok (w, g1))
                (range 0 (_nmanifolds self)) g ;;
  Ok (VTangentVector r, g').

Definition transp (X1 X2 G : value) : result value :=
  r <- comprehension
         (fun k => man <- getitem (_manifolds self) k ;;
                   x1 <- value_getitem X1 k ;;
                   x2 <- value_getitem X2 k ;;
                   g <- value_getitem G k ;;
                   Manifold.transp man x1 x2 g)
         (range 0 (_nmanifolds self)) ;;
  Ok (VList r).

Definition pairmean (X Y : value) : result value :=
  r <- dispatch2 (@Manifold.pairmean K rng) X Y ;; Ok (VList r).

Definition zerovec (X : value) : result value :=
  r <- comprehension
         (fun k => man <- getitem (_manifolds self) k ;;
                   x <- value_getitem X k ;;
                   Manifold.zerovec man x)
         (range 0 (_nmanifolds self)) ;;
  Ok (VTangentVector r).

End Methods.

(** A product is itself a manifold and can be a child of another one. *)
Definition manifold (self : t) : Manifold :=
  {| Manifold.name := name self;
     Manifold.dim := dim_scalar self;
     Manifold.typicaldist := x <- typicaldist self ;; Ok (NpFloat x);
     Manifold.inner := inner self;
     Manifold.dist := dist self;
     Manifold.proj := proj self;
     Manifold.egrad2rgrad := egrad2rgrad self;
     Manifold.ehess2rhess := ehess2rhess self;
     Manifold.exp := exp self;
     Manifold.retr := retr self;
     Manifold.log := log self;
     Manifold.rand := rand self;
     Manifold.randvec := randvec self;
     Manifold.transp := transp self;
     Manifold.pairmean := pairmean self;
     Manifold.zerovec := zerovec self |}.

End Class.
End Product.

(* ================================================================== *)
(** ** Vocabulary of the specification *)

Section Vocabulary.
Variable K : numClosedFieldType.

(** Every row of [Y] has Euclidean norm 1. *)
Definition unit_rows (n k : nat) (Y : 'M[K]_(n, k)) : Prop :=
  forall i, la.norm_axis1 Y i 0 = 1.

(** [U] is tangent to the row spheres at [Y]: each row of [U] is
    orthogonal to the row of [Y] it sits on, which is what
    [Elliptope._project_rows] enforces. *)
Definition row_tangent (n k : nat) (Y U : 'M[K]_(n, k)) : Prop :=
  forall i, np.rowwise_dot Y U i 0 = 0.

(** The metric of PSDFixedRankComplex in the words of the spec: the
    doubled real part of trace(U* V). *)
Definition spec_inner_complex (n k : nat) (U V : 'M[K]_(n, k)) : K :=
  2 * 'Re (\tr (U ^t* *m V)).

(** The projection of PSDFixedRankComplex in the words of the spec: the
    real formulas with every transpose replaced by a conjugate
    transpose. *)
Definition spec_proj_complex
  (lyap : forall k : nat, 'M[K]_k -> 'M[K]_k -> 'M[K]_k)
  (n k : nat) (Y H : 'M[K]_(n, k)) : 'M[K]_(n, k) :=
  let YtY := Y ^t* *m Y in
  let AS := Y ^t* *m H - H ^t* *m Y in
  let Omega := lyap k YtY AS in
  H - Y *m Omega.

(** The retraction law of one manifold at one point. *)
Definition retr_zerovec (rng : Type) (M : Manifold.t K rng) (X : value K)
  : Prop :=
  exists2 z, Manifold.zerovec M X = Ok z & Manifold.retr M X z = Ok X.

Variable rng : Type.
Variable randn : forall n k : nat, rng -> 'M[K]_(n, k) * rng.
Variable lyap : forall k : nat, 'M[K]_k -> 'M[K]_k -> 'M[K]_k.
Variable svd : forall k : nat, 'M[K]_k -> 'M[K]_k * 'rV[K]_k * 'M[K]_k.

(** The valid points of the manifolds in scope: an n-by-k array for the
    two fixed-rank manifolds, an n-by-k array with unit rows for the
    elliptope, and for a product a list holding one valid point per
    child, in order. *)
Inductive valid_point : Manifold.t K rng -> value K -> Prop :=
| valid_PSDFixedRank base n k (Y : 'M[K]_(n, k)) :
    valid_point (PSDFixedRank.manifold randn lyap n k base) (VArray Y)
| valid_PSDFixedRankComplex base n k (Y : 'M[K]_(n, k)) :
    valid_point (PSDFixedRankComplex.manifold randn lyap svd n k base)
                (VArray Y)
| valid_Elliptope base n k (Y : 'M[K]_(n, k)) :
    unit_rows Y ->
    valid_point (Elliptope.manifold randn lyap n k base) (VArray Y)
| valid_Product manifolds items :
    valid_points manifolds items ->
    valid_point (Product.manifold (Product.__init__ manifolds))
                (VList items)
with valid_points : seq (Manifold.t K rng) -> seq (value K) -> Prop :=
| valid_nil : valid_points [::] [::]
| valid_cons man manifolds x items :
    valid_point man x -> valid_points manifolds items ->
    valid_points (man :: manifolds) (x :: items).

End Vocabulary.

Scheme valid_point_ind2 := Minimality for valid_point Sort Prop
  with valid_points_ind2 := Minimality for valid_points Sort Prop.

(* ================================================================== *)
(** ** Concrete collaborators used to instantiate the theorems *)

(** A Lyapunov solver for diagonal [A], where [A X + X A^H = Q] decouples
    into one scalar equation per entry; every 1-by-1 system is of this
    kind. *)
Definition lyap_diagonal (K : numClosedFieldType) (k : nat)
  (A Q : 'M[K]_k) : 'M[K]_k :=
  \matrix_(i, j) (Q i j / (A i i + (A j j)^*)).

(** A generator whose draws all have the same entry [c] everywhere. *)
Definition randn_const (K : numClosedFieldType) (c : K) (n k : nat)
  (g : unit) : 'M[K]_(n, k) * unit :=
  (const_mx c, g).

(** A stand-in for [la.svd], exact on the identity matrix. *)
Definition svd_trivial (K : numClosedFieldType) (k : nat) (A : 'M[K]_k)
  : 'M[K]_k * 'rV[K]_k * 'M[K]_k :=
  (1%:M, const_mx 1, 1%:M).

(** Concrete arrays: the 1-by-1 arrays [[i]] and [[1]], the column
    [[1], [0]], the column [[1], [1]], and the rows [[1, 0]] and
    [[0, 1]]. *)
Definition imag11 (K : numClosedFieldType) : 'M[K]_1 := 'i%:M.
Definition one11 (K : numClosedFieldType) : 'M[K]_1 := 1%:M.
Definition e1_column : 'M[algC]_(2, 1) := delta_mx 0 0.
Definition ones_column : 'M[algC]_(2, 1) := const_mx 1.
Definition e1_row : 'M[algC]_(1, 2) := delta_mx 0 0.
Definition e2_row : 'M[algC]_(1, 2) := delta_mx 0 1.

(** A bare manifold contract, for the instances that need a base. *)
Definition bare : Manifold.t algC unit :=
  Manifold.contract algC unit "bare" 0%pyint.

(* ================================================================== *)
(** ** Vocabulary of the quotient geometry *)

Section QuotientVocabulary.
Variable K : numClosedFieldType.

(** [U] lies in the horizontal space at [Y], the range of
    [_PSDFixedRank.proj]: [Y^T U] is symmetric. *)
Definition horizontal (n k : nat) (Y U : 'M[K]_(n, k)) : Prop :=
  Y^T *m U - U^T *m Y = 0.

(** The vertical vectors at [Y] are the [Y W] with [W] skew-symmetric. *)
Definition skew (k : nat) (W : 'M[K]_k) : Prop := W^T = - W.

(** The solver returns a solution of every system whose first argument is
    [A]. *)
Definition lyap_solves_at (k : nat)
  (lyap : 'M[K]_k -> 'M[K]_k -> 'M[K]_k) (A : 'M[K]_k) : Prop :=
  forall Q, lyapunov_solution A Q (lyap A Q).

End QuotientVocabulary.

(** ** Vocabulary of the product manifold *)

Section ProductVocabulary.
Variable K : numClosedFieldType.

(** Whenever the call returns, it returns a plain list, respectively a
    TangentVector, of [N] components. *)
Definition list_of_length (N : Z) (m : result (value K)) : Prop :=
  forall R, m = Ok R -> exists2 r, R = VList r & len r = N.

Definition tangent_vector_of_length (N : Z) (m : result (value K)) : Prop :=
  forall R, m = Ok R -> exists2 r, R = VTangentVector r & len r = N.

Variable rng : Type.
Variable randn : forall n k : nat, rng -> 'M[K]_(n, k) * rng.
Variable lyap : forall k : nat, 'M[K]_k -> 'M[K]_k -> 'M[K]_k.
Variable svd : forall k : nat, 'M[K]_k -> 'M[K]_k * 'rV[K]_k * 'M[K]_k.


End ProductVocabulary.


(** Further concrete arrays: the 3-by-2 array [[1, 0], [0, 1], [0, 0]],
    the 3-by-2 arrays [[1, 1], [1, 1], [1, 1]] and
    [[0, 1], [1, 0], [0, 0]], the rotation generator [[0, 1], [-1, 0]],
    the 2-by-2 identity and the 2-by-2 array of ones. *)
Definition pid32 : 'M[algC]_(3, 2) := pid_mx 2.
Definition ones32 : 'M[algC]_(3, 2) := const_mx 1.
Definition swap32 : 'M[algC]_(3, 2) := delta_mx 0 1 + delta_mx 1 0.
Definition rot2 : 'M[algC]_2 := delta_mx 0 1 - delta_mx 1 0.
Definition eye2 : 'M[algC]_2 := 1%:M.
Definition ones22 : 'M[algC]_2 := const_mx 1.

(** A product of a PSDFixedRank(2, 1) and an Elliptope(1, 2), a point of
    it and a tangent vector at that point. *)
Definition sample_children : seq (Manifold.t algC unit) :=
  [:: PSDFixedRank.manifold (@randn_const algC 1) (@lyap_diagonal algC)
        2 1 bare;
      Elliptope.manifold (@randn_const algC 1) (@lyap_diagonal algC)
        1 2 bare].
Definition sample_point : seq (value algC) :=
  [:: VArray e1_column; VArray e1_row].
Definition sample_tangent : seq (value algC) :=
  [:: VArray ones_column; VArray e2_row].

(* ================================================================== *)
(** * Properties *)

(** ** The Lyapunov equation on Gram matrices *)

Section LyapunovTheory.
Variable K : numClosedFieldType.

Lemma float64_conj (n k : nat) (Y : 'M[K]_(n, k)) :
  float64 Y -> map_mx Num.conj Y = Y.
Proof.
move=> realY; apply/matrixP=> i j; rewrite mxE.
by apply/CrealP; exact: realY.
Qed.

Lemma hermitian_form_trace (m k : nat) (A : 'M[K]_k) (Z : 'M[K]_(m, k)) :
  \tr (Z *m A *m Z ^t*) = \sum_i (row i Z *m A *m (row i Z) ^t*) 0 0.
Proof.
rewrite /mxtrace; apply: eq_bigr => i _.
rewrite -row_mul !mxE; apply: eq_bigr => j _.
by rewrite !mxE.
Qed.

Lemma posdef_form_ge0 (k : nat) (A : 'M[K]_k) (x : 'rV[K]_k) :
  hermitian_posdef A -> 0 <= (x *m A *m x ^t*) 0 0.
Proof.
case=> _ posA; have [->|nz] := eqVneq x 0.
  by rewrite !mul0mx mxE.
exact/ltW/posA.
Qed.

Lemma lyapunov_unique (k : nat) (A X : 'M[K]_k) :
  hermitian_posdef A -> lyapunov_solution A 0 X -> X = 0.
Proof.
move=> pdA; have [hA posA] := pdA.
rewrite /lyapunov_solution hA => eqX.
have: \tr (X ^t* *m (A *m X + X *m A)) = 0 by rewrite eqX mulmx0 mxtrace0.
rewrite mulmxDr mxtraceD [X in _ + X]mxtrace_mulC !mulmxA.
have -> : X ^t* *m A *m X = X ^t* *m A *m (X ^t*) ^t* by rewrite trmxCK.
rewrite !hermitian_form_trace.
have ge0 (Z : 'M[K]_k) : 0 <= \sum_i (row i Z *m A *m (row i Z) ^t*) 0 0.
  by apply: sumr_ge0 => i _; exact: posdef_form_ge0.
move/eqP; rewrite paddr_eq0 ?ge0 //.
case/andP=> _ /eqP sum0.
apply/row_matrixP => i; rewrite row0.
have /psumr_eq0P := sum0.
move/(_ (fun i _ => posdef_form_ge0 (row i X) pdA))/(_ i isT) => qi0.
apply/eqP/negPn/negP => nz.
by have := posA _ nz; rewrite qi0 ltxx.
Qed.

Lemma gram_posdef (n k : nat) (Y : 'M[K]_(n, k)) :
  float64 Y -> \rank Y = k -> hermitian_posdef (Y^T *m Y).
Proof.
move=> realY rkY.
have conjY : map_mx Num.conj Y = Y := float64_conj realY.
split.
  by rewrite trmx_mul trmxK map_mxM -map_trmx conjY.
move=> x nzx.
have -> : x *m (Y^T *m Y) *m x ^t* = (x *m Y^T) *m (x *m Y^T) ^t*.
  by rewrite trmx_mul trmxK map_mxM conjY !mulmxA.
set v := x *m Y^T.
have nzv : v != 0.
  rewrite /v mulmx_free_eq0 //.
  by rewrite -row_leq_rank mxrank_tr rkY.
have -> : (v *m v ^t*) 0 0 = \sum_j `|v 0 j| ^+ 2.
  by rewrite mxE; apply: eq_bigr => j _; rewrite !mxE normCK.
have ge0 : 0 <= \sum_j `|v 0 j| ^+ 2.
  by apply: sumr_ge0 => j _; rewrite exprn_ge0.
rewrite lt0r ge0 andbT.
apply: contra nzv => /eqP /psumr_eq0P sum0.
apply/eqP/rowP => j; rewrite [RHS]mxE.
have := sum0 (fun j _ => exprn_ge0 2 (normr_ge0 (v 0 j))) j isT.
by move/eqP; rewrite expf_eq0 normr_eq0 /= => /eqP.
Qed.

End LyapunovTheory.

Section ProjIdempotent.
Variable K : numClosedFieldType.
Variable lyap : forall k : nat, 'M[K]_k -> 'M[K]_k -> 'M[K]_k.
Variables n k : nat.
Local Notation proj := (@PSDFixedRank.proj K lyap n k).

Lemma proj_solution_skew (Y H : 'M[K]_(n, k)) :
  float64 Y -> \rank Y = k -> lyap_contract (@lyap k) ->
  let Omega := lyap (Y^T *m Y) (Y^T *m H - H^T *m Y) in
  Omega^T = - Omega.
Proof.
move=> realY rkY solves Omega.
have pd := gram_posdef realY rkY.
have [hA _] := pd.
have hO : lyapunov_solution (Y^T *m Y) (Y^T *m H - H^T *m Y) Omega.
  exact: solves.
have symA : (Y^T *m Y)^T = Y^T *m Y by rewrite trmx_mul trmxK.
apply/eqP; rewrite -subr_eq0 opprK; apply/eqP.
apply: (lyapunov_unique pd).
move: hO; rewrite /lyapunov_solution hA => hO.
have hOT : Y^T *m Y *m Omega^T + Omega^T *m (Y^T *m Y)
           = - (Y^T *m H - H^T *m Y).
  rewrite -{1 2}symA -!trmx_mul addrC -linearD /= hO.
  by rewrite linearB /= !trmx_mul !trmxK opprB.
by rewrite mulmxDr mulmxDl addrACA hOT hO addNr.
Qed.

(** C5.  For PSDFixedRank, whatever k and n, for every float64 point Y
    of full column rank k and every ambient matrix H,
    proj(Y, proj(Y, H)) = proj(Y, H): the projection onto the horizontal
    space is idempotent.  Arithmetic is exact, and the Lyapunov solver is
    assumed to honour its contract on Hermitian positive definite
    systems. *)
Theorem proj_idempotent (Y H : 'M[K]_(n, k)) :
  float64 Y -> \rank Y = k -> lyap_contract (@lyap k) ->
  proj Y (proj Y H) = proj Y H.
Proof.
move=> realY rkY solves.
have pd := gram_posdef realY rkY.
have [hA _] := pd.
have skew := proj_solution_skew H realY rkY solves.
have := solves _ (Y^T *m H - H^T *m Y) pd.
rewrite /lyapunov_solution hA.
rewrite {1}/PSDFixedRank.proj {1}/_PSDFixedRank.proj /=.
set Omega := lyap (Y^T *m Y) (Y^T *m H - H^T *m Y) in skew *.
move=> hO.
have -> : PSDFixedRank.proj lyap Y H = H - Y *m Omega by [].
set P := H - Y *m Omega.
have AS0 : Y^T *m P - P^T *m Y = 0.
  rewrite /P mulmxBr [(H - _)^T]linearB /= trmx_mul skew mulmxBl.
  rewrite !mulNmx opprK -!mulmxA [Y^T *m (Y *m _)]mulmxA.
  by rewrite opprD addrACA -opprD hO subrr.
rewrite AS0.
have -> : lyap (Y^T *m Y) 0 = 0.
  apply: (lyapunov_unique pd); exact: solves.
by rewrite mulmx0 subr0.
Qed.

End ProjIdempotent.

(** The diagonal solver solves every 1-by-1 system that has a unique
    solution, and so honours the contract for k = 1. *)
Lemma lyap_diagonal_solves (K : numClosedFieldType) (A Q : 'M[K]_1) :
  A 0 0 + (A 0 0)^* != 0 -> lyapunov_solution A Q (lyap_diagonal A Q).
Proof.
move=> nz; apply/matrixP => i j; rewrite !ord1.
rewrite /lyapunov_solution !mxE !big_ord1 !mxE.
by rewrite [A 0 0 * _]mulrC -mulrDr divfK.
Qed.

Lemma lyap_diagonal_contract (K : numClosedFieldType) :
  lyap_contract (@lyap_diagonal K 1).
Proof.
move=> A Q [hA posA]; apply: lyap_diagonal_solves.
have a_conj : (A 0 0)^* = A 0 0.
  by move/matrixP/(_ 0 0): hA; rewrite !mxE.
have nz1 : (1%:M : 'rV[K]_1) != 0.
  by apply/eqP => /matrixP/(_ 0 0); rewrite !mxE /= => /eqP; rewrite oner_eq0.
have := posA _ nz1.
rewrite mul1mx mxE big_ord1 !mxE /= conjC1 mulr1 => a_gt0.
by rewrite a_conj gt_eqF // addr_gt0.
Qed.

Lemma e1_column_float64 : float64 e1_column.
Proof. by move=> i j; rewrite mxE; apply: realn. Qed.

Lemma e1_column_full_rank : \rank e1_column = 1%N.
Proof.
rewrite -mxrank_tr rank_rV.
have -> // : e1_column^T != 0.
by apply/eqP => /matrixP/(_ 0 0); rewrite !mxE /= => /eqP; rewrite oner_eq0.
Qed.

Lemma proj_idempotent_witness :
  [/\ float64 e1_column, \rank e1_column = 1%N,
      lyap_contract (@lyap_diagonal algC 1)
    & PSDFixedRank.proj (@lyap_diagonal algC) e1_column
        (PSDFixedRank.proj (@lyap_diagonal algC) e1_column ones_column)
      = PSDFixedRank.proj (@lyap_diagonal algC) e1_column ones_column].
Proof.
split.
- exact: e1_column_float64.
- exact: e1_column_full_rank.
- exact: lyap_diagonal_contract.
- apply: proj_idempotent.
  + exact: e1_column_float64.
  + exact: e1_column_full_rank.
  + exact: lyap_diagonal_contract.
Defined.

(* ================================================================== *)
(** ** PSDFixedRankComplex: metric and projection *)

Section ComplexMetric.
Variable K : numClosedFieldType.

Lemma tensordot11 (U V : 'M[K]_1) : np.tensordot U V = U 0 0 * V 0 0.
Proof. by rewrite /np.tensordot !big_ord1. Qed.

Lemma imaginary_unit_sq : 'i * 'i = -1 :> K.
Proof. by rewrite -expr2 sqrCi. Qed.

Lemma complex_innerE (n k : nat) (P : Type) (Y : P) (U V : 'M[K]_(n, k)) :
  PSDFixedRankComplex.inner Y U V = Ok (2 * 'Re (np.tensordot U V)).
Proof. by []. Qed.

(** What the code computes is the doubled real part of trace(U^T V),
    with a plain transpose. *)
Lemma tensordot_trace (n k : nat) (U V : 'M[K]_(n, k)) :
  np.tensordot U V = \tr (U^T *m V).
Proof.
rewrite /np.tensordot /mxtrace exchange_big /=; apply: eq_bigr => j _.
by rewrite mxE; apply: eq_bigr => i _; rewrite mxE.
Qed.

(** On float64 tangent vectors the code and the spec agree. *)
Lemma complex_inner_float64 (n k : nat) (P : Type) (Y : P)
  (U V : 'M[K]_(n, k)) :
  float64 U -> PSDFixedRankComplex.inner Y U V = Ok (spec_inner_complex U V).
Proof.
move=> realU; rewrite complex_innerE tensordot_trace /spec_inner_complex.
by rewrite -map_trmx float64_conj.
Qed.

(** C1.  The metric of PSDFixedRankComplex omits the conjugation: at the
    1-by-1 tangent vector U = [[i]], inner(Y, U, U) is -2, whereas the
    doubled real part of trace(U* U) is 2; and norm(Y, U), the square
    root of a negative float, is nan. *)
Theorem complex_inner_omits_conjugate (P : Type) (Y : P) :
  let U : 'M[K]_1 := 'i%:M in
  [/\ PSDFixedRankComplex.inner Y U U = Ok (-2),
      spec_inner_complex U U = 2
    & PSDFixedRankComplex.norm Y U = NaN].
Proof.
move=> U.
have innerE : PSDFixedRankComplex.inner Y U U = Ok (-2).
  rewrite complex_innerE tensordot11 !mxE /= !mulr1n.
  rewrite imaginary_unit_sq (Creal_ReP _ _) ?rpredN ?rpred1 //.
  by rewrite mulrN mulr1.
split=> //.
- rewrite /spec_inner_complex trace_mx11 mxE big_ord1 !mxE /= !mulr1n.
  rewrite conjCi mulNr imaginary_unit_sq opprK.
  by rewrite (Creal_ReP _ _) ?rpred1 // mulr1.
- rewrite /PSDFixedRankComplex.norm innerE /= /np.sqrt.
  by rewrite oppr_ge0 lt_geF // ltr0n.
Qed.

End ComplexMetric.

Section ComplexProjection.
Variable K : numClosedFieldType.
Variable lyap : forall k : nat, 'M[K]_k -> 'M[K]_k -> 'M[K]_k.

Local Notation Y := (imag11 K).
Local Notation H := (one11 K).

Lemma code_gram : Y^T *m Y = (-1)%:M.
Proof.
apply/matrixP => i j; rewrite !ord1 !mxE big_ord1 !mxE /= !mulr1n.
exact: imaginary_unit_sq.
Qed.

Lemma code_rhs : Y^T *m H - H^T *m Y = 0.
Proof.
apply/matrixP => i j; rewrite !ord1 !mxE !big_ord1 !mxE /= !mulr1n.
by rewrite mulr1 mul1r subrr.
Qed.

Lemma spec_gram : Y ^t* *m Y = 1%:M.
Proof.
apply/matrixP => i j; rewrite !ord1 !mxE big_ord1 !mxE /= !mulr1n.
by rewrite conjCi mulNr imaginary_unit_sq opprK.
Qed.

Lemma spec_rhs : Y ^t* *m H - H ^t* *m Y = (- (2 * 'i))%:M.
Proof.
apply/matrixP => i j; rewrite !ord1 !mxE !big_ord1 !mxE /= !mulr1n.
by rewrite conjCi conjC1 mulr1 mul1r -opprD mulr2n mulrDl mul1r.
Qed.

(** On float64 arrays the inherited projection and the Hermitian one of
    the spec agree. *)
Lemma complex_proj_float64 (n k : nat) (Y0 H0 : 'M[K]_(n, k)) :
  float64 Y0 -> float64 H0 ->
  PSDFixedRankComplex.proj lyap Y0 H0 = spec_proj_complex lyap Y0 H0.
Proof.
move=> realY realH.
rewrite /PSDFixedRankComplex.proj /_PSDFixedRank.proj /spec_proj_complex.
by rewrite -!map_trmx !float64_conj.
Qed.

(** C3.  The projection of PSDFixedRankComplex is the inherited real one
    and transposes without conjugating.  At Y = [[i]], H = [[1]] (n = k =
    1) it returns H itself, whereas the Hermitian formulas of the claim
    give the zero matrix; each solver call is assumed to return a
    solution of its system. *)
Theorem complex_proj_omits_conjugate :
  lyapunov_solution (Y^T *m Y) (Y^T *m H - H^T *m Y)
    (lyap (Y^T *m Y) (Y^T *m H - H^T *m Y)) ->
  lyapunov_solution (Y ^t* *m Y) (Y ^t* *m H - H ^t* *m Y)
    (lyap (Y ^t* *m Y) (Y ^t* *m H - H ^t* *m Y)) ->
  [/\ PSDFixedRankComplex.proj lyap Y H = 1%:M,
      spec_proj_complex lyap Y H = 0
    & PSDFixedRankComplex.proj lyap Y H <> spec_proj_complex lyap Y H].
Proof.
rewrite /PSDFixedRankComplex.proj /_PSDFixedRank.proj /spec_proj_complex /=.
rewrite code_gram code_rhs spec_gram spec_rhs /lyapunov_solution.
set O1 := lyap _ _; set O2 := lyap _ _ => sol1 sol2.
have O1_0 : O1 = 0.
  apply/matrixP => i j; rewrite !ord1 [RHS]mxE.
  move/matrixP/(_ 0 0): sol1; rewrite !mxE !big_ord1 !mxE /= !mulr1n.
  rewrite conjCN1 mulN1r mulrN1 -opprD => /eqP.
  by rewrite oppr_eq0 -mulr2n mulrn_eq0 /= => /eqP.
have O2_i : O2 = (- 'i)%:M.
  apply/matrixP => i j; rewrite !ord1 [RHS]mxE /= mulr1n.
  move/matrixP/(_ 0 0): sol2; rewrite !mxE !big_ord1 !mxE /= !mulr1n.
  rewrite conjC1 mul1r mulr1 -mulr2n -mulr_natl -mulrN => /mulfI -> //.
  by rewrite pnatr_eq0.
have code : H - Y *m O1 = 1%:M by rewrite O1_0 mulmx0 subr0.
have spec : H - Y *m O2 = 0.
  rewrite O2_i; apply/matrixP => i j; rewrite !ord1 !mxE big_ord1 !mxE /=.
  by rewrite !mulr1n mulrN imaginary_unit_sq opprK subrr.
split=> //; rewrite code spec => /matrixP/(_ 0 0).
by rewrite !mxE /= mulr1n => /eqP; rewrite oner_eq0.
Qed.

End ComplexProjection.

Lemma complex_proj_omits_conjugate_witness :
  let Y := imag11 algC in
  let H := one11 algC in
  let lyap := @lyap_diagonal algC in
  [/\ PSDFixedRankComplex.proj lyap Y H = 1%:M,
      spec_proj_complex lyap Y H = 0
    & PSDFixedRankComplex.proj lyap Y H <> spec_proj_complex lyap Y H].
Proof.
apply: complex_proj_omits_conjugate; apply: lyap_diagonal_solves.
- rewrite code_gram !mxE /= mulr1n conjCN1 -opprD oppr_eq0.
  by rewrite -mulr2n pnatr_eq0.
- by rewrite spec_gram !mxE /= mulr1n conjC1 -mulr2n pnatr_eq0.
Defined.

(* ================================================================== *)
(** ** Python sequences and comprehensions *)

Section ComprehensionFacts.
Variables (A B : Type).

Lemma comprehension_map (C : Type) (h : C -> A) (f : A -> result B)
  (s : seq C) :
  comprehension f [seq h x | x <- s] = comprehension (fun x => f (h x)) s.
Proof. by elim: s => //= x s ->. Qed.

Lemma comprehension_ext (f g : A -> result B) (s : seq A) :
  (forall x, f x = g x) -> comprehension f s = comprehension g s.
Proof. by move=> fg; elim: s => //= x s ->; rewrite fg. Qed.

Lemma drop_zip (i : nat) (s : seq A) (t : seq B) :
  drop i (zip s t) = zip (drop i s) (drop i t).
Proof.
elim: i s t => [|i IH] [|a s] [|b t] //=.
- by case: (drop i t).
- by case: (drop i s).
Qed.

Lemma comprehension_total (f : A -> B) (s : seq A) :
  comprehension (fun x => Ok (f x)) s = Ok [seq f x | x <- s].
Proof. by elim: s => //= x s ->. Qed.

End ComprehensionFacts.

Section SequenceFacts.
Variables (A B : Type).

Lemma range0E (n : nat) :
  range 0 (Z.of_nat n) = [seq Z.of_nat i | i <- iota 0 n].
Proof.
rewrite /range Z.sub_0_r Nat2Z.id.
by apply: eq_map => i; rewrite Z.add_0_l.
Qed.

Lemma getitem_nat (s : seq A) (i : nat) :
  getitem s (Z.of_nat i)
  = match drop i s with x :: _ => Ok x | [::] => Raise IndexError end.
Proof.
have neg : (Z.of_nat i <? 0)%pyint = false by apply/Z.ltb_ge; lia.
by rewrite /getitem neg neg Nat2Z.id.
Qed.

(** A comprehension over [range(len(s))] that only reads position [k] of
    [s] is a comprehension over the elements of [s]. *)
Lemma comprehension_range (s : seq A) (F : Z -> result B)
  (G : A -> result B) :
  (forall i x s', drop i s = x :: s' -> F (Z.of_nat i) = G x) ->
  comprehension F (range 0 (len s)) = comprehension G s.
Proof.
rewrite /len range0E comprehension_map.
elim: s F => [|a s IH] F FG //=.
have prem i x s' :
  drop i s = x :: s' -> F (Z.of_nat i + 1)%pyint = G x.
  move=> eq_drop; have -> : (Z.of_nat i + 1)%pyint = Z.of_nat i.+1 by lia.
  exact: (FG i.+1 x s').
have shift : comprehension (fun x : nat => F (Z.of_nat x)) (iota 1 (size s))
             = comprehension G s.
  rewrite (iotaDl 1 0) comprehension_map -(IH (fun z => F (z + 1)%pyint) prem).
  by apply: comprehension_ext => i /=; congr F; lia.
by rewrite shift (FG 0%N a s) ?drop0.
Qed.

End SequenceFacts.

(* ================================================================== *)
(** ** TangentVector *)

Section TangentVectorFacts.
Variables (T S : Type).
Variables (add sub : T -> T -> T) (mul : S -> T -> T) (div : T -> S -> T).
Variable neg : T -> T.

Local Notation tv := (TangentVector.t T).
Local Notation items := (@TangentVector.items T).
Local Notation plus := (TangentVector.plus add sub mul div neg).
Local Notation minus := (TangentVector.minus add sub mul div neg).
Local Notation slash := (TangentVector.slash add sub mul div neg).

Lemma len_inj (A B : Type) (s : seq A) (t : seq B) :
  len s = len t -> size s = size t.
Proof. by rewrite /len => /Nat2Z.inj. Qed.

(** The loop shared by [__add__] and [__sub__] pairs the components up. *)
Lemma componentwise (op : T -> T -> T) (s t : seq T) :
  size s = size t ->
  comprehension
    (fun k => a <- getitem s k ;; b <- getitem t k ;; Ok (op a b))
    (range 0 (len s))
  = Ok [seq op p.1 p.2 | p <- zip s t].
Proof.
move=> eq_size.
have -> : len s = len (zip s t) by rewrite /len size_zip eq_size minnn.
rewrite (@comprehension_range _ _ _ _ (fun p => Ok (op p.1 p.2))).
  move=> i [a b] rest; rewrite drop_zip !getitem_nat.
  by case: (drop i s) => [|a' s'] //; case: (drop i t) => [|b' t'] //= [-> ->].
exact: comprehension_total.
Qed.


Lemma plusE (G H : tv) :
  plus G H
  = if (len (items G) =? len (items H))%pyint
    then Ok (TangentVector.new
               [seq add p.1 p.2 | p <- zip (items G) (items H)])
    else Raise AssertionError.
Proof.
rewrite /TangentVector.plus /TangentVector.binary /= /TangentVector.__add__.
case: Z.eqb_spec => // /len_inj eq_size.
by rewrite componentwise.
Qed.

Lemma minusE (G H : tv) :
  minus G H
  = if (len (items G) =? len (items H))%pyint
    then Ok (TangentVector.new
               [seq sub p.1 p.2 | p <- zip (items G) (items H)])
    else Raise AssertionError.
Proof.
rewrite /TangentVector.minus /TangentVector.binary /= /TangentVector.__sub__.
case: Z.eqb_spec => // /len_inj eq_size.
by rewrite componentwise.
Qed.


(** C4.  Under Python 3 the expression [G / c] finds no [__truediv__] in
    the class body and raises TypeError, for every TangentVector G and
    every Python number c.  The class body only binds [__div__], the
    slot of Python 2, which does divide each component by c but which no
    operator of Python 3 invokes. *)
Theorem tangent_vector_slash (G : tv) (c : S) :
  [/\ slash G c = Raise TypeError,
      lookup "__truediv__" (TangentVector.__dict__ add sub mul div neg)
      = None,
      lookup "__div__" (TangentVector.__dict__ add sub mul div neg)
      = Some (TangentVector.Scalar (TangentVector.__div__ div))
    & TangentVector.__div__ div G c
      = Ok (TangentVector.new [seq div val c | val <- items G])].
Proof. by []. Qed.

End TangentVectorFacts.


(* ================================================================== *)
(** ** Product *)

(** Sums in 64 bits. *)
Section Int64Facts.

Lemma fits_int64P (z : Z) :
  reflect (- 2 ^ 63 <= z < 2 ^ 63)%pyint (np.fits_int64 z).
Proof.
rewrite /np.fits_int64; apply: (iffP andP) => [[/Z.leb_le ? /Z.ltb_lt ?]|[? ?]].
  by [].
by split; [apply/Z.leb_le | apply/Z.ltb_lt].
Qed.

Lemma wrap_int64_id (z : Z) : np.fits_int64 z -> np.wrap_int64 z = z.
Proof.
move/fits_int64P => range; rewrite /np.wrap_int64 Z.mod_small; lia.
Qed.

Lemma wrap_int64_add (x y : Z) :
  np.wrap_int64 (np.wrap_int64 x + y) = np.wrap_int64 (x + y).
Proof.
rewrite /np.wrap_int64; congr (_ - _)%pyint.
have -> : ((x + 2 ^ 63) mod 2 ^ 64 - 2 ^ 63 + y + 2 ^ 63
           = (x + 2 ^ 63) mod 2 ^ 64 + y)%pyint by lia.
by rewrite Zplus_mod_idemp_l; congr (_ mod _)%pyint; lia.
Qed.

Lemma wrap_int64_fits (z : Z) : np.fits_int64 (np.wrap_int64 z).
Proof.
apply/fits_int64P; rewrite /np.wrap_int64.
have := Z.mod_pos_bound (z + 2 ^ 63) (2 ^ 64); lia.
Qed.

Lemma foldl_wrap_int64 (A : Type) (f : A -> Z) (s : seq A) (acc : Z) :
  foldl (fun acc x => np.wrap_int64 (acc + f x)) (np.wrap_int64 acc) s
  = np.wrap_int64 (acc + foldr Z.add 0%pyint [seq f x | x <- s]).
Proof.
elim: s acc => [|z s IH] acc /=; first by rewrite Z.add_0_r.
by rewrite wrap_int64_add IH Z.add_assoc.
Qed.

Lemma dtype_of_int64 (x : np.scalar) :
  np.is_int64 x -> np.dtype_of x = np.int64.
Proof. by case: x => //= z ->. Qed.

Lemma result_type_int64 (x : np.scalar) (s : seq np.scalar) :
  all np.is_int64 (x :: s) -> np.result_type (x :: s) = np.int64.
Proof.
case/andP=> /dtype_of_int64 /= -> {x}.
by elim: s => [|y s IH] //= /andP[/dtype_of_int64 -> /IH].
Qed.

(** A non-empty list of integers of dtype int64 is summed modulo 2^64,
    to an int64. *)
Lemma sum_scalars_int64 (x : np.scalar) (s : seq np.scalar) :
  all np.is_int64 (x :: s) ->
  np.sum_scalars (x :: s)
  = np.Int64 (np.wrap_int64
                (foldr Z.add 0%pyint [seq np.int_value y | y <- x :: s])).
Proof.
move=> ints; rewrite /np.sum_scalars result_type_int64 //; congr np.Int64.
have {1}-> : 0%pyint = np.wrap_int64 0 by [].
by rewrite foldl_wrap_int64.
Qed.

Lemma int_value_sum_int64 (s : seq np.scalar) :
  all np.is_int64 s ->
  np.int_value (np.sum_scalars s)
  = np.wrap_int64 (foldr Z.add 0%pyint [seq np.int_value y | y <- s]).
Proof. by case: s => [|x s] // ints; rewrite sum_scalars_int64. Qed.


End Int64Facts.

Section ProductFacts.
Variable K : numClosedFieldType.
Variable rng : Type.
Local Notation Manifold := (Manifold.t K rng).
Local Notation value := (value K).

Lemma product_dim_int64 (ms : seq Manifold) :
  all np.is_int64 [seq Manifold.dim man | man <- ms] ->
  Product.dim (Product.__init__ ms)
  = np.wrap_int64
      (foldr Z.add 0%pyint
         [seq np.int_value d | d <- [seq Manifold.dim man | man <- ms]]).
Proof.
move=> ints; rewrite /Product.dim /Product.dim_scalar.
by rewrite [Product._manifolds _]/= int_value_sum_int64.
Qed.

Lemma np_sum_nil : np.sum ([::] : seq K) = 0.
Proof. by rewrite /np.sum big_nil. Qed.

Lemma np_sum_pair (a b : K) : np.sum [:: a; b] = a + b.
Proof. by rewrite /np.sum !big_cons big_nil addr0. Qed.

Lemma np_sqrt0 : np.sqrt (0 : K) = Ok 0.
Proof. by rewrite /np.sqrt lexx sqrtC0. Qed.

(** C8, as the code has it.  For a product of two manifolds A and B
    whose dims a and b are integers of 64 bits (Python ints that fit, or
    numpy int64), dim is the numpy int64 that holds a + b reduced to 64
    bits with wrap-around, hence a + b itself whenever that sum fits in
    64 bits; and on a point [x0, x1] and tangent vectors [g0, g1],
    [h0, h1] inner is A.inner(x0, g0, h0) + B.inner(x1, g1, h1), the two
    child calls being made in this order. *)
Theorem product_of_two (A B : Manifold) :
  let P := Product.__init__ [:: A; B] in
  let a := np.int_value (Manifold.dim A) in
  let b := np.int_value (Manifold.dim B) in
  (np.is_int64 (Manifold.dim A) -> np.is_int64 (Manifold.dim B) ->
   Product.dim_scalar P = np.Int64 (np.wrap_int64 (a + b))
   /\ (np.fits_int64 (a + b) -> Product.dim P = (a + b)%pyint))
  /\ forall x0 x1 g0 g1 h0 h1 : value,
       Product.inner P (VList [:: x0; x1]) (VTangentVector [:: g0; g1])
                     (VTangentVector [:: h0; h1])
       = (a <- Manifold.inner A x0 g0 h0 ;;
          b <- Manifold.inner B x1 g1 h1 ;; Ok (a + b)).
Proof.
move=> P a b; split.
  move=> intA intB.
  have sumE : Product.dim_scalar P = np.Int64 (np.wrap_int64 (a + b)).
    rewrite /Product.dim_scalar [Product._manifolds _]/= [map _ _]/=.
    by rewrite sum_scalars_int64 /= ?intA ?intB // Z.add_0_r.
  split=> // fits.
  by rewrite /Product.dim sumE [np.int_value _]/= wrap_int64_id.
move=> x0 x1 g0 g1 h0 h1; rewrite /Product.inner /=.
case: (Manifold.inner A x0 g0 h0) => [a'|e|] //=.
case: (Manifold.inner B x1 g1 h1) => [b'|e|] //=.
by rewrite np_sum_pair.
Qed.

(** C10.  The product of no manifold at all is constructed without
    complaint.  Its dim and typicaldist are 0; inner, norm and dist
    return 0 and every dispatching method returns an empty list or an
    empty TangentVector, whatever the arguments; but ehess2rhess raises
    IndexError on every call, because it evaluates
    [self._manifolds[self._nmanifolds - 1]] first. *)
Theorem empty_product :
  let P := Product.__init__ ([::] : seq Manifold) in
  [/\ P = Product.new [::] 0%pyint "Product manifold: "%string,
      Product.dim P = 0%pyint /\ Product.typicaldist P = Ok 0,
      forall X G H : value,
        [/\ Product.inner P X G H = Ok 0, Product.norm P X G = Ok 0
          & Product.dist P X G = Ok 0],
      (forall X U : value,
        [/\ Product.proj P X U = Ok (VList [::]),
            Product.retr P X U = Ok (VList [::]),
            Product.exp P X U = Ok (VList [::]),
            Product.pairmean P X U = Ok (VList [::])
          & Product.egrad2rgrad P X U = Ok (VTangentVector [::])
            /\ Product.log P X U = Ok (VTangentVector [::])])
      /\ (forall (X Y G : value) (g : rng),
        [/\ Product.transp P X Y G = Ok (VList [::]),
            Product.rand P g = Ok (VList [::], g),
            Product.randvec P X g = Ok (VTangentVector [::], g)
          & Product.zerovec P X = Ok (VTangentVector [::])])
    & forall X egrad ehess H : value,
        Product.ehess2rhess P X egrad ehess H = Raise IndexError].
Proof.
move=> P; split=> //.
- by rewrite /Product.typicaldist /= np_sqrt0.
- move=> X G H.
  by rewrite /Product.norm /Product.dist /Product.inner /= np_sum_nil np_sqrt0.
Qed.

End ProductFacts.

Lemma product_of_two_witness :
  let A := Manifold.contract algC unit "A" 3%pyint in
  let B := Manifold.contract algC unit "B" 4%pyint in
  let P := Product.__init__ [:: A; B] in
  [/\ np.is_int64 (Manifold.dim A), np.is_int64 (Manifold.dim B)
    & np.fits_int64 (3 + 4)]
  /\ [/\ Product.dim_scalar P = np.Int64 (np.wrap_int64 (3 + 4)),
         Product.dim P = (3 + 4)%pyint
       & forall x0 x1 g0 g1 h0 h1 : value algC,
           Product.inner P (VList [:: x0; x1]) (VTangentVector [:: g0; g1])
                         (VTangentVector [:: h0; h1])
           = (a <- Manifold.inner A x0 g0 h0 ;;
              b <- Manifold.inner B x1 g1 h1 ;; Ok (a + b))].
Proof.
move=> A B P.
have intA : np.is_int64 (Manifold.dim A) by [].
have intB : np.is_int64 (Manifold.dim B) by [].
have fits : np.fits_int64 (3 + 4) by [].
have [on_dim on_inner] := product_of_two A B.
have [on_scalar on_fits] := on_dim intA intB.
split; first by split.
by split; [exact: on_scalar | exact: on_fits fits | exact: on_inner].
Defined.

(** C8, as the claim has it, fails: two children whose dims are the
    Python int 2^62 make a product whose dim is the 64-bit integer
    -2^63, not 2^62 + 2^62. *)
Lemma product_dim_wraps :
  let A := Manifold.contract algC unit "A" (2 ^ 62)%pyint in
  let P := Product.__init__ [:: A; A] in
  [/\ Manifold.dim A = np.Python (2 ^ 62)%pyint,
      Product.dim_scalar P = np.Int64 (- 2 ^ 63)%pyint
    & Product.dim P <> (2 ^ 62 + 2 ^ 62)%pyint].
Proof. by split; vm_compute. Qed.

(* ================================================================== *)
(** ** Retraction along the zero vector *)

Section RetractionAtZero.
Variable K : numClosedFieldType.
Variable rng : Type.
Variable randn : forall n k : nat, rng -> 'M[K]_(n, k) * rng.
Variable lyap : forall k : nat, 'M[K]_k -> 'M[K]_k -> 'M[K]_k.
Variable svd : forall k : nat, 'M[K]_k -> 'M[K]_k * 'rV[K]_k * 'M[K]_k.
Local Notation Manifold := (Manifold.t K rng).
Local Notation value := (value K).

Lemma as_arrayK (n k : nat) (A : 'M[K]_(n, k)) :
  as_array n k (VArray A) = Ok A.
Proof.
rewrite /as_array; case: eqP => // en; case: eqP => // ek.
by rewrite castmx_id.
Qed.

Lemma np_zerosE (n k : nat) : np.zeros K n k = 0.
Proof. by apply/matrixP => i j; rewrite !mxE. Qed.

Lemma normalize_unit_rows (n k : nat) (Y : 'M[K]_(n, k)) :
  unit_rows Y -> Elliptope._normalize_rows Y = Ok Y.
Proof.
move=> unitY; rewrite /Elliptope._normalize_rows /np.true_divide_rows.
have -> : [exists i, la.norm_axis1 Y i 0 == 0] = false.
  by apply/existsP => -[i]; rewrite unitY oner_eq0.
by congr Ok; apply/matrixP => i j; rewrite mxE unitY divr1.
Qed.

Lemma product_zerovec_zip (ms : seq Manifold) (xs : seq value) :
  size ms = size xs ->
  Product.zerovec (Product.__init__ ms) (VList xs)
  = r <- comprehension (fun p => Manifold.zerovec p.1 p.2) (zip ms xs) ;;
    Ok (VTangentVector r).
Proof.
move=> eq_size; rewrite /Product.zerovec /=.
have -> : len ms = len (zip ms xs) by rewrite /len size_zip eq_size minnn.
congr bind; apply: comprehension_range => i [m x] rest.
rewrite drop_zip !getitem_nat.
case: (drop i ms) => [|m' ms'] //; case: (drop i xs) => [|x' xs'] //=.
by case=> -> ->.
Qed.

Lemma product_retr_zip (ms : seq Manifold) (xs zs : seq value) :
  size ms = size xs -> size zs = size xs ->
  Product.retr (Product.__init__ ms) (VList xs) (VTangentVector zs)
  = r <- comprehension (fun p => Manifold.retr p.1 p.2.1 p.2.2)
                       (zip ms (zip xs zs)) ;;
    Ok (VList r).
Proof.
move=> eq_ms eq_zs; rewrite /Product.retr /Product.dispatch2 /=.
have -> : len ms = len (zip ms (zip xs zs)).
  by rewrite /len !size_zip eq_ms eq_zs !minnn.
congr bind; apply: comprehension_range => i [m [x z]] rest.
rewrite !drop_zip !getitem_nat.
case: (drop i ms) => [|m' ms']; case: (drop i xs) => [|x' xs'];
  case: (drop i zs) => [|z' zs'] //=.
by case=> -> -> ->.
Qed.

(** C7.  For every manifold in scope and every valid point X of it,
    zerovec(X) returns and retr(X, zerovec(X)) returns X.  A valid point
    is an n-by-k array for PSDFixedRank and PSDFixedRankComplex, an
    n-by-k array with rows of norm 1 for Elliptope, and a list of valid
    points of the children, in order, for Product. *)
Theorem retr_at_zerovec (M : Manifold) (X : value) :
  valid_point randn lyap svd M X ->
  exists2 z, Manifold.zerovec M X = Ok z & Manifold.retr M X z = Ok X.
Proof.
pose Q (ms : seq Manifold) (xs : seq value) :=
  size ms = size xs /\
  exists zs, [/\ comprehension (fun p => Manifold.zerovec p.1 p.2) (zip ms xs)
                 = Ok zs,
                 size zs = size xs
               & comprehension (fun p => Manifold.retr p.1 p.2.1 p.2.2)
                               (zip ms (zip xs zs)) = Ok xs].
move: M X.
apply: (@valid_point_ind2 K rng randn lyap svd (@retr_zerovec K rng) Q).
- move=> base n k Y; exists (VArray (np.zeros K n k)) => //=.
  by rewrite !as_arrayK /= /PSDFixedRank.retr /_PSDFixedRank.retr
             np_zerosE addr0.
- move=> base n k Y; exists (VArray (np.zeros K n k)) => //=.
  by rewrite !as_arrayK /= /PSDFixedRankComplex.retr /_PSDFixedRank.retr
             np_zerosE addr0.
- move=> base n k Y unitY; exists (VArray (np.zeros K n k)) => //=.
  by rewrite !as_arrayK /= /Elliptope.retr np_zerosE addr0
             normalize_unit_rows.
- move=> ms xs _ [eq_size [zs [zero_ok size_zs retr_ok]]].
  exists (VTangentVector zs).
    by rewrite /= product_zerovec_zip // zero_ok.
  by rewrite /= product_retr_zip // retr_ok.
- by split=> //; exists [::].
- move=> m ms x xs _ [z zero_m retr_m] _.
  move=> [eq_size [zs [zero_ok size_zs retr_ok]]].
  split; first by rewrite /= eq_size.
  exists (z :: zs); split; rewrite /= ?size_zs //.
    by rewrite zero_m /= zero_ok.
  by rewrite retr_m /= retr_ok.
Qed.

End RetractionAtZero.

Lemma e1_row_unit_rows : unit_rows e1_row.
Proof.
move=> i; rewrite mxE big_ord_recl big_ord1 !mxE /= !ord1 /=.
by rewrite normr1 normr0 expr1n expr0n /= addr0 sqrtC1.
Qed.

Lemma retr_at_zerovec_witness :
  let randn := @randn_const algC 1 in
  let lyap := @lyap_diagonal algC in
  let svd := @svd_trivial algC in
  let M := Product.manifold
             (Product.__init__
                [:: PSDFixedRank.manifold randn lyap 2 1 bare;
                    Elliptope.manifold randn lyap 1 2 bare;
                    PSDFixedRankComplex.manifold randn lyap svd 1 1 bare]) in
  let X := VList [:: VArray e1_column; VArray e1_row; VArray (imag11 algC)] in
  valid_point randn lyap svd M X
  /\ exists2 z, Manifold.zerovec M X = Ok z & Manifold.retr M X z = Ok X.
Proof.
move=> randn lyap svd M X.
have valid : valid_point randn lyap svd M X.
  apply: valid_Product; apply: valid_cons; first exact: valid_PSDFixedRank.
  apply: valid_cons; first exact: (valid_Elliptope _ _ _ _ e1_row_unit_rows).
  apply: valid_cons; first exact: valid_PSDFixedRankComplex.
  exact: valid_nil.
split; first exact: valid.
exact: retr_at_zerovec valid.
Defined.

(* ================================================================== *)
(** ** Elliptope: rows of norm 1 *)

Section EllipticRows.
Variable K : numClosedFieldType.
Variable rng : Type.
Variable randn : forall n k : nat, rng -> 'M[K]_(n, k) * rng.
Variables n k : nat.

Lemma row_sq_ge0 (Y : 'M[K]_(n, k)) i : 0 <= \sum_j `|Y i j| ^+ 2.
Proof. by apply: sumr_ge0 => j _; rewrite exprn_ge0. Qed.

Lemma row_sq_eq0 (Y : 'M[K]_(n, k)) i :
  (\sum_j `|Y i j| ^+ 2 == 0) = (row i Y == 0).
Proof.
apply/eqP/eqP => [/psumr_eq0P sum0|row0].
  apply/rowP => j; rewrite !mxE.
  have := sum0 (fun j _ => exprn_ge0 2 (normr_ge0 (Y i j))) j isT.
  by move/eqP; rewrite expf_eq0 normr_eq0 /= => /eqP.
apply: big1 => j _.
by move/rowP/(_ j): row0; rewrite !mxE => ->; rewrite normr0 expr0n.
Qed.

(** Normalizing a matrix without zero row yields rows of norm 1. *)
Lemma normalize_rows_unit (Y : 'M[K]_(n, k)) :
  (forall i, row i Y != 0) ->
  exists2 Z, Elliptope._normalize_rows Y = Ok Z & unit_rows Z.
Proof.
move=> nzY; rewrite /Elliptope._normalize_rows /np.true_divide_rows.
have nz_norm i : la.norm_axis1 Y i 0 != 0.
  by rewrite mxE sqrtC_eq0 row_sq_eq0.
have -> : [exists i, la.norm_axis1 Y i 0 == 0] = false.
  by apply/existsP => -[i]; rewrite (negbTE (nz_norm i)).
eexists; first by [].
move=> i; rewrite mxE.
set s := la.norm_axis1 Y i 0.
have s_ge0 : 0 <= s by rewrite /s mxE sqrtC_ge0 row_sq_ge0.
have s_sq : s ^+ 2 = \sum_j `|Y i j| ^+ 2 by rewrite /s mxE sqrtCK.
have -> : \sum_j `|(\matrix_(i0, j0) (Y i0 j0 / la.norm_axis1 Y i0 0)) i j| ^+ 2
          = (\sum_j `|Y i j| ^+ 2) / s ^+ 2.
  rewrite mulr_suml; apply: eq_bigr => j _.
  by rewrite mxE normf_div expr_div_n (ger0_norm s_ge0).
by rewrite -s_sq divff ?sqrtC1 // expf_eq0 /= nz_norm.
Qed.

(** A tangent step from a float64 point with unit rows leaves no zero
    row. *)
Lemma tangent_step_nonzero (Y U : 'M[K]_(n, k)) :
  float64 Y -> unit_rows Y -> row_tangent Y U ->
  forall i, row i (Y + U) != 0.
Proof.
move=> realY unitY tanU i; apply/negP => /eqP/rowP row0.
have U_opp j : U i j = - Y i j.
  by move/(_ j): row0; rewrite !mxE => /eqP; rewrite addrC addr_eq0 => /eqP.
have sq_real j : Y i j * Y i j = `|Y i j| ^+ 2.
  by rewrite normCK (CrealP (realY i j)).
have := tanU i; rewrite mxE.
under eq_bigr => j _ do rewrite U_opp mulrN sq_real.
rewrite sumrN => /eqP; rewrite oppr_eq0 => sum0.
have := unitY i; rewrite mxE (eqP sum0) sqrtC0 => /eqP.
by rewrite eq_sym oner_eq0.
Qed.

(** The orthogonality of [U] matters: stepping from [Y] by [- Y], which
    is not tangent, leaves only zero rows, and the retraction is nan. *)
Lemma retr_opposite_nan (Y : 'M[K]_(n, k)) :
  (0 < n)%N -> (0 < k)%N -> Elliptope.retr Y (- Y) = NaN.
Proof.
case: n Y => // n' Y _ k_gt0.
rewrite /Elliptope.retr subrr /Elliptope._normalize_rows.
rewrite /np.true_divide_rows k_gt0 andbT.
have -> // : [exists i, la.norm_axis1 (0 : 'M[K]_(n'.+1, k)) i 0 == 0].
apply/existsP; exists ord0; rewrite mxE big1 ?sqrtC0 // => j _.
by rewrite mxE normr0 expr0n.
Qed.

(** C6, as the code has it.  rand() returns a matrix whose rows all have
    norm 1 whenever the Gaussian draw it normalizes has no all-zero row;
    and for every float64 point Y with rows of norm 1 and every U whose
    rows are orthogonal to the rows of Y, retr(Y, U) returns a matrix
    whose rows all have norm 1. *)
Theorem elliptope_unit_rows :
  (forall g : rng,
     (forall i, row i (randn n k g).1 != 0) ->
     exists Y g', Elliptope.rand randn n k g = Ok (Y, g') /\ unit_rows Y)
  /\ (forall Y U : 'M[K]_(n, k),
        float64 Y -> unit_rows Y -> row_tangent Y U ->
        exists2 Z, Elliptope.retr Y U = Ok Z & unit_rows Z).
Proof.
split=> [g|Y U realY unitY tanU].
  rewrite /Elliptope.rand; case: (randn n k g) => A g' /= nzA.
  have [Z -> unitZ] := normalize_rows_unit nzA.
  by exists Z, g'.
exact/normalize_rows_unit/tangent_step_nonzero.
Qed.

End EllipticRows.

(** C6, as the claim has it, fails: when the draw is the 1-by-1 zero
    matrix, rand() divides 0 by 0 and its result is nan, not a row of
    norm 1. *)
Lemma elliptope_rand_zero_draw :
  let rand := Elliptope.rand (@randn_const algC 0) 1 1 in
  rand tt = NaN
  /\ ~ (exists Y g', rand tt = Ok (Y, g') /\ unit_rows Y).
Proof.
have nan : Elliptope.rand (@randn_const algC 0) 1 1 tt = NaN.
  rewrite /Elliptope.rand /= /Elliptope._normalize_rows /np.true_divide_rows.
  have -> // : [exists i, la.norm_axis1 (const_mx 0 : 'M[algC]_1) i 0 == 0].
  by apply/existsP; exists 0; rewrite mxE big_ord1 mxE normr0 expr0n sqrtC0.
by split=> // -[Y [g']] []; rewrite nan.
Qed.

Lemma elliptope_unit_rows_witness :
  [/\ forall i, row i (@randn_const algC 1 1 2 tt).1 != 0,
      float64 e1_row, unit_rows e1_row & row_tangent e1_row e2_row]
  /\ (exists Y g', Elliptope.rand (@randn_const algC 1) 1 2 tt = Ok (Y, g')
                   /\ unit_rows Y)
  /\ (exists2 Z, Elliptope.retr e1_row e2_row = Ok Z & unit_rows Z).
Proof.
have nz_draw i : row i (@randn_const algC 1 1 2 tt).1 != 0.
  apply/eqP => /rowP/(_ 0); rewrite !mxE => /eqP.
  by rewrite oner_eq0.
have realY : float64 e1_row by move=> i j; rewrite mxE; apply: realn.
have tanU : row_tangent e1_row e2_row.
  move=> i; rewrite mxE big_ord_recl big_ord1 !mxE /= !ord1 /=.
  by rewrite mulr0 mul0r addr0.
have [on_rand on_retr] := elliptope_unit_rows (@randn_const algC 1) 1 2.
split; first by split=> //; exact: e1_row_unit_rows.
split; first exact: on_rand nz_draw.
exact: on_retr realY e1_row_unit_rows tanU.
Defined.

(* ================================================================== *)
(** ** Construction *)

Section ConstructionFacts.

Lemma consecutive_even (k : Z) : exists m, (k * (k - 1) = 2 * m)%pyint.
Proof.
case: (Z.Even_or_Odd k) => -[m ->].
- by exists (m * (2 * m - 1))%pyint; lia.
- by exists ((2 * m + 1) * m)%pyint; lia.
Qed.

(** Integers below 2^53 in magnitude go through float arithmetic
    unchanged. *)
Lemma one_pow : binary64.one = (2 ^ 1074)%pyint.
Proof. by []. Qed.

Lemma spacing_divides (m : Z) :
  (Z.abs m < 2 ^ 53)%pyint ->
  exists2 q, (m * binary64.one
              = q * binary64.spacing (Z.abs m * binary64.one))%pyint
           & (0 < binary64.spacing (Z.abs m * binary64.one))%pyint.
Proof.
move=> small; rewrite /binary64.spacing one_pow.
have abs_ge0 : (0 <= Z.abs m * 2 ^ 1074)%pyint by lia.
rewrite (Z.abs_eq _ abs_ge0).
have [m0|m_neq0] := Z.eq_dec m 0.
  by rewrite m0; exists 0%pyint.
have abs_gt0 : (0 < Z.abs m)%pyint by lia.
rewrite Z.log2_mul_pow2 //.
have log_lt : (Z.log2 (Z.abs m) < 53)%pyint by apply/Z.log2_lt_pow2.
have log_ge0 := Z.log2_nonneg (Z.abs m).
set e := Z.max _ _.
have e_range : (0 <= e <= 1074)%pyint by rewrite /e; lia.
exists (m * 2 ^ (1074 - e))%pyint; last by apply: Z.pow_pos_nonneg; lia.
have -> : (2 ^ 1074 = 2 ^ (1074 - e) * 2 ^ e)%pyint.
  by rewrite -Z.pow_add_r; [| |congr (2 ^ _)%pyint]; lia.
by rewrite Z.mul_assoc.
Qed.

Lemma round_exact (m B : Z) :
  (0 < B)%pyint -> (Z.abs m < 2 ^ 53)%pyint ->
  binary64.round (m * binary64.one * B) B = binary64.finite (m * binary64.one).
Proof.
move=> B_gt0 small; rewrite /binary64.round.
have one_gt0 : (0 < binary64.one)%pyint by rewrite one_pow.
have -> : (Z.abs (m * binary64.one * B) / B = Z.abs m * binary64.one)%pyint.
  rewrite !Z.abs_mul (Z.abs_eq B) ?(Z.abs_eq binary64.one); try lia.
  by rewrite Z.div_mul //; lia.
have [q eq_q s_gt0] := spacing_divides small.
set s := binary64.spacing _ in eq_q s_gt0 *.
have -> : binary64.nearest_even (m * binary64.one * B) (B * s) = q.
  rewrite /binary64.nearest_even eq_q.
  have -> : (q * s * B = q * (B * s))%pyint by lia.
  have Bs_gt0 : (0 < B * s)%pyint by lia.
  rewrite Z.div_mul ?Z.mod_mul; try lia.
  by have -> : (2 * 0 <? B * s)%pyint = true by apply/Z.ltb_lt.
rewrite -eq_q.
have -> // : (binary64.huge <=? Z.abs (m * binary64.one))%pyint = false.
have abs_one : Z.abs binary64.one = binary64.one by apply: Z.abs_eq; lia.
apply/Z.leb_gt; rewrite Z.abs_mul abs_one.
have : (Z.abs m * binary64.one < 2 ^ 53 * binary64.one)%pyint.
  exact: Zmult_lt_compat_r.
have -> : (2 ^ 53 * binary64.one = 2 ^ 1127)%pyint.
  by rewrite one_pow -Z.pow_add_r.
have : (2 ^ 1127 < binary64.huge)%pyint by [].
lia.
Qed.

Lemma float_of_pyint_exact (z : Z) :
  (Z.abs z < 2 ^ 53)%pyint ->
  float_of_pyint z = Ok (binary64.finite (z * binary64.one)).
Proof.
move=> small; rewrite /float_of_pyint -{1}[(z * _)%pyint]Z.mul_1_r.
by rewrite round_exact.
Qed.

Lemma int_truediv_exact (m : Z) :
  (Z.abs m < 2 ^ 53)%pyint ->
  int_truediv (2 * m) 2 = Ok (binary64.finite (m * binary64.one)).
Proof.
move=> small; rewrite /int_truediv.
have -> : (2 =? 0)%pyint = false by [].
have -> : (2 <? 0)%pyint = false by [].
have -> : (2 * m * binary64.one = m * binary64.one * 2)%pyint by lia.
by rewrite round_exact.
Qed.

Lemma sub_exact (a h : Z) :
  (Z.abs (a - h) < 2 ^ 53)%pyint ->
  binary64.sub (binary64.finite (a * binary64.one))
               (binary64.finite (h * binary64.one))
  = binary64.finite ((a - h) * binary64.one).
Proof.
move=> small; rewrite /binary64.sub -Z.mul_sub_distr_r.
by rewrite -{1}[(_ * _)%pyint]Z.mul_1_r round_exact.
Qed.

Lemma int_exact (z : Z) : int_ (binary64.finite (z * binary64.one)) = Ok z.
Proof. by rewrite /int_ Z.quot_mul. Qed.

(** [int(a - b / 2)] is exact when [b] is even and nothing exceeds 53
    bits. *)
Lemma int_minus_half (a m : Z) :
  (Z.abs a < 2 ^ 53)%pyint -> (Z.abs m < 2 ^ 53)%pyint ->
  (Z.abs (a - m) < 2 ^ 53)%pyint ->
  (half <- int_truediv (2 * m) 2 ;;
   area <- float_of_pyint a ;;
   int_ (binary64.sub area half)) = Ok (a - m)%pyint.
Proof.
move=> small_a small_m small_d.
rewrite int_truediv_exact // float_of_pyint_exact // /bind.
by rewrite sub_exact // int_exact.
Qed.

Lemma half_of_consecutive (k : Z) (m : Z) :
  (k * (k - 1) = 2 * m)%pyint -> (k * (k - 1) / 2 = m)%pyint.
Proof. by move=> ->; rewrite Z.mul_comm Z.div_mul. Qed.

(** For n and k of magnitude at most 2^26 the two float dimensions are
    the integer formulas. *)
Lemma dimension_exact (n k : Z) :
  (Z.abs n <= 2 ^ 26)%pyint -> (Z.abs k <= 2 ^ 26)%pyint ->
  PSDFixedRank.dimension n k = Ok (k * n - k * (k - 1) / 2)%pyint
  /\ Elliptope.dimension n k = Ok (n * (k - 1) - k * (k - 1) / 2)%pyint.
Proof.
move=> small_n small_k.
have [m even_k] := consecutive_even k.
rewrite (half_of_consecutive even_k).
rewrite /PSDFixedRank.dimension /Elliptope.dimension even_k.
have kn : (Z.abs (k * n) <= 2 ^ 52)%pyint.
  rewrite Z.abs_mul.
  have -> : (2 ^ 52 = 2 ^ 26 * 2 ^ 26)%pyint by [].
  by apply: Z.mul_le_mono_nonneg; lia.
have kk : (Z.abs (k * (k - 1)) <= 2 ^ 52 + 2 ^ 26)%pyint.
  rewrite Z.abs_mul.
  have -> : (2 ^ 52 + 2 ^ 26 = 2 ^ 26 * (2 ^ 26 + 1))%pyint by [].
  by apply: Z.mul_le_mono_nonneg; lia.
have nk : (Z.abs (n * (k - 1)) <= 2 ^ 52 + 2 ^ 26)%pyint.
  rewrite Z.abs_mul.
  have -> : (2 ^ 52 + 2 ^ 26 = 2 ^ 26 * (2 ^ 26 + 1))%pyint by [].
  by apply: Z.mul_le_mono_nonneg; lia.
have small_m : (Z.abs m <= 2 ^ 51 + 2 ^ 25)%pyint by lia.
by split; rewrite int_minus_half //; lia.
Qed.

(** Beyond the exact range the code's dimension is a rounded one, and
    beyond the floats it is an OverflowError. *)
Lemma dimension_rounds_and_overflows :
  [/\ PSDFixedRank.dimension (2 ^ 53 + 1) 1 = Ok (2 ^ 53)%pyint,
      Elliptope.dimension (2 ^ 53 + 1) 2 = Ok (2 ^ 53 - 1)%pyint
    & PSDFixedRank.dimension (10 ^ 400) 1 = Raise OverflowError].
Proof. by split; vm_compute. Qed.

(** The three constructors never inspect [n] and [k]: the outcome of each
    is the outcome of the base initializer on the name and dimension it
    computes, once the dimension is computed. *)
Lemma constructor_outcome (B : Type) (super__init__ : string -> Z -> result B)
  (n k : Z) :
  [/\ PSDFixedRank.__init__ super__init__ n k
      = (d <- PSDFixedRank.dimension n k ;;
         b <- super__init__ (PSDFixedRank.name n k) d ;;
         Ok (new_instance n k b)),
      PSDFixedRankComplex.__init__ super__init__ n k
      = (b <- super__init__ (PSDFixedRankComplex.name n k)
                            (PSDFixedRankComplex.dimension n k) ;;
         Ok (new_instance n k b))
    & Elliptope.__init__ super__init__ n k
      = (d <- Elliptope.dimension n k ;;
         b <- super__init__ (Elliptope.name n k) d ;;
         Ok (new_instance n k b))].
Proof. by []. Qed.

(** C2, as the code has it.  The constructors do not check k <= n,
    k >= 1 or n >= 1: for all integers n and k of magnitude at most
    2^26, whether or not they meet these conditions, PSDFixedRank(n, k),
    PSDFixedRankComplex(n, k) and Elliptope(n, k) return an instance
    holding n and k as soon as the base initializer returns on the name
    and the dimension they compute, the dimension being
    k n - k (k - 1) / 2, 2 k n - k k and n (k - 1) - k (k - 1) / 2
    respectively.  (The bound keeps the float arithmetic of the first
    and the last dimension exact.) *)
Theorem constructors_do_not_validate (B : Type)
  (super__init__ : string -> Z -> result B) (n k : Z) :
  (Z.abs n <= 2 ^ 26)%pyint -> (Z.abs k <= 2 ^ 26)%pyint ->
  [/\ forall b,
        super__init__ (PSDFixedRank.name n k)
                      (k * n - k * (k - 1) / 2)%pyint = Ok b ->
        PSDFixedRank.__init__ super__init__ n k = Ok (new_instance n k b),
      forall b,
        super__init__ (PSDFixedRankComplex.name n k)
                      (2 * k * n - k * k)%pyint = Ok b ->
        PSDFixedRankComplex.__init__ super__init__ n k = Ok (new_instance n k b)
    & forall b,
        super__init__ (Elliptope.name n k)
                      (n * (k - 1) - k * (k - 1) / 2)%pyint = Ok b ->
        Elliptope.__init__ super__init__ n k = Ok (new_instance n k b)].
Proof.
move=> small_n small_k.
have [psd ell] := dimension_exact small_n small_k.
have [-> -> ->] := constructor_outcome super__init__ n k.
by rewrite psd ell /PSDFixedRankComplex.dimension; split=> b /= ->.
Qed.

End ConstructionFacts.

Lemma constructors_do_not_validate_witness :
  let init := @Manifold.__init__ algC unit in
  let contract := Manifold.contract algC unit in
  ((Z.abs 0 <= 2 ^ 26)%pyint /\ (Z.abs (-3) <= 2 ^ 26)%pyint)
  /\ [/\ PSDFixedRank.__init__ init 0 (-3)
         = Ok (new_instance 0 (-3)
                 (contract (PSDFixedRank.name 0 (-3)) (-6)%pyint)),
         PSDFixedRankComplex.__init__ init 0 (-3)
         = Ok (new_instance 0 (-3)
                 (contract (PSDFixedRankComplex.name 0 (-3)) (-9)%pyint))
       & Elliptope.__init__ init 0 (-3)
         = Ok (new_instance 0 (-3)
                 (contract (Elliptope.name 0 (-3)) (-6)%pyint))].
Proof.
move=> init contract.
have small_n : (Z.abs 0 <= 2 ^ 26)%pyint by [].
have small_k : (Z.abs (-3) <= 2 ^ 26)%pyint by [].
have [psd psdc ell] := constructors_do_not_validate init small_n small_k.
by split; [split | split; [exact: psd | exact: psdc | exact: ell]].
Defined.

(** C2, as the claim has it, fails: with k = 2 > n = 1 each constructor
    returns an instance. *)
Lemma constructors_accept_rank_above_size :
  let init := @Manifold.__init__ algC unit in
  let contract := Manifold.contract algC unit in
  [/\ PSDFixedRank.__init__ init 1 2
      = Ok (new_instance 1 2
              (contract "Quotient manifold of 1x1 psd matrices of rank 2"%string
                        1%pyint)),
      PSDFixedRankComplex.__init__ init 1 2
      = Ok (new_instance 1 2
              (contract
                 "Quotient manifold of Hermitian 1x1 matrices of rank 2"%string
                 0%pyint))
    & Elliptope.__init__ init 1 2
      = Ok (new_instance 1 2
              (contract
                 ("Quotient manifold of 1x1 psd matrices of rank 2 "
                  ++ "with unit diagonal elements")%string
                 0%pyint))].
Proof. by split; vm_compute. Qed.

(* ================================================================== *)
(** * Further properties of psd.py *)

(** ** _PSDFixedRank.proj: the projection onto the horizontal space *)

Section HorizontalProjection.
Variable K : numClosedFieldType.
Variable rng : Type.
Variable randn : forall n k : nat, rng -> 'M[K]_(n, k) * rng.
Variable lyap : forall k : nat, 'M[K]_k -> 'M[K]_k -> 'M[K]_k.
Variables n k : nat.
Local Notation proj := (@PSDFixedRank.proj K lyap n k).

Lemma gram_sym (Y : 'M[K]_(n, k)) : (Y^T *m Y)^T = Y^T *m Y.
Proof. by rewrite trmx_mul trmxK. Qed.

Lemma rhs_skew (Y H : 'M[K]_(n, k)) : skew (Y^T *m H - H^T *m Y).
Proof. by rewrite /skew linearB /= !trmx_mul !trmxK opprB. Qed.

(** On the Gram matrix of a real point of full rank the equation has one
    solution only, which the solver must return. *)
Lemma solver_unique (Y : 'M[K]_(n, k)) (Q X : 'M[K]_k) :
  float64 Y -> \rank Y = k -> lyap_solves_at (@lyap k) (Y^T *m Y) ->
  lyapunov_solution (Y^T *m Y) Q X -> lyap (Y^T *m Y) Q = X.
Proof.
move=> realY rkY solves hX.
have pd := gram_posdef realY rkY.
apply/eqP; rewrite -subr_eq0; apply/eqP; apply: (lyapunov_unique pd).
have hL := solves Q; move: hX hL; rewrite /lyapunov_solution => hX hL.
by rewrite mulmxBr mulmxBl addrACA -opprD hX hL subrr.
Qed.

Lemma solver_skew (Y : 'M[K]_(n, k)) (Q : 'M[K]_k) :
  float64 Y -> \rank Y = k -> lyap_solves_at (@lyap k) (Y^T *m Y) ->
  skew Q -> skew (lyap (Y^T *m Y) Q).
Proof.
move=> realY rkY solves skQ.
have [hA _] := gram_posdef realY rkY.
have hO := solves Q; rewrite /lyapunov_solution hA in hO.
set Omega := lyap _ _ in hO *.
have hN : lyapunov_solution (Y^T *m Y) Q (- Omega^T).
  rewrite /lyapunov_solution hA mulmxN mulNmx -opprD.
  rewrite -{1 2}(gram_sym Y) -!trmx_mul addrC -linearD /= hO.
  by rewrite skQ opprK.
have eqO := solver_unique realY rkY solves hN.
by rewrite /skew -/Omega in eqO *; rewrite [in RHS]eqO opprK.
Qed.

Lemma proj_horizontalP (Y H : 'M[K]_(n, k)) :
  float64 Y -> \rank Y = k -> lyap_solves_at (@lyap k) (Y^T *m Y) ->
  horizontal Y (proj Y H).
Proof.
move=> realY rkY solves.
have [hA _] := gram_posdef realY rkY.
have skO := solver_skew realY rkY solves (rhs_skew Y H).
have hO := solves (Y^T *m H - H^T *m Y); rewrite /lyapunov_solution hA in hO.
rewrite /horizontal /PSDFixedRank.proj /_PSDFixedRank.proj /=.
set Omega := lyap _ _ in skO hO *.
rewrite mulmxBr [(H - _)^T]linearB /= trmx_mul skO mulmxBl.
rewrite !mulNmx opprK -!mulmxA [Y^T *m (Y *m _)]mulmxA.
by rewrite opprD addrACA -opprD hO subrr.
Qed.

Lemma proj_horizontal_id (Y H : 'M[K]_(n, k)) :
  float64 Y -> \rank Y = k -> lyap_solves_at (@lyap k) (Y^T *m Y) ->
  horizontal Y H -> proj Y H = H.
Proof.
move=> realY rkY solves hH.
rewrite /PSDFixedRank.proj /_PSDFixedRank.proj /= hH.
have -> : lyap (Y^T *m Y) 0 = 0.
  apply: (solver_unique realY rkY solves).
  by rewrite /lyapunov_solution mulmx0 mul0mx addr0.
by rewrite mulmx0 subr0.
Qed.

Lemma proj_vertical0 (Y : 'M[K]_(n, k)) (W : 'M[K]_k) :
  float64 Y -> \rank Y = k -> lyap_solves_at (@lyap k) (Y^T *m Y) ->
  skew W -> proj Y (Y *m W) = 0.
Proof.
move=> realY rkY solves skW.
have [hA _] := gram_posdef realY rkY.
rewrite /PSDFixedRank.proj /_PSDFixedRank.proj /=.
have -> : lyap (Y^T *m Y) (Y^T *m (Y *m W) - (Y *m W)^T *m Y) = W.
  apply: (solver_unique realY rkY solves).
  by rewrite /lyapunov_solution hA trmx_mul skW !mulNmx opprK !mulmxA.
by rewrite subrr.
Qed.

(** Arrays with real entries are float64 arrays, and so are their
    products. *)
Lemma float64_iscomplexobj (U : 'M[K]_(n, k)) :
  float64 U -> np.iscomplexobj U = false.
Proof.
move=> realU; apply/negbF; apply/forallP => i; apply/forallP => j.
exact: realU.
Qed.


Lemma scale_horizontal (Y U : 'M[K]_(n, k)) (c : K) :
  horizontal Y U -> horizontal Y (c *: U).
Proof.
rewrite /horizontal => hU.
by rewrite -scalemxAr [(c *: U)^T]linearZ /= -scalemxAl -scalerBr hU scaler0.
Qed.


(** The Frobenius norm. *)
Lemma norm_fro_ge0 (U : 'M[K]_(n, k)) : 0 <= la.norm_fro U.
Proof.
rewrite /la.norm_fro sqrtC_ge0.
by apply: sumr_ge0 => i _; apply: sumr_ge0 => j _; rewrite exprn_ge0.
Qed.

Lemma norm_fro_eq0 (U : 'M[K]_(n, k)) : (la.norm_fro U == 0) = (U == 0).
Proof.
rewrite /la.norm_fro sqrtC_eq0.
apply/eqP/eqP => [sum0|->]; last first.
  by apply: big1 => i _; apply: big1 => j _; rewrite mxE normr0 expr0n.
apply/matrixP => i j; rewrite [RHS]mxE.
have row_ge0 i' : 0 <= \sum_j `|U i' j| ^+ 2.
  by apply: sumr_ge0 => j' _; rewrite exprn_ge0.
have /psumr_eq0P := sum0.
move/(_ (fun i' _ => row_ge0 i'))/(_ i isT) => /psumr_eq0P.
move/(_ (fun j' _ => exprn_ge0 2 (normr_ge0 (U i j'))))/(_ j isT).
by move/eqP; rewrite expf_eq0 normr_eq0 /= => /eqP.
Qed.

Lemma norm_froZ (c : K) (U : 'M[K]_(n, k)) :
  la.norm_fro (c *: U) = `|c| * la.norm_fro U.
Proof.
rewrite /la.norm_fro.
have -> : \sum_i \sum_j `|(c *: U) i j| ^+ 2
          = `|c| ^+ 2 * \sum_i \sum_j `|U i j| ^+ 2.
  rewrite mulr_sumr; apply: eq_bigr => i _.
  rewrite mulr_sumr; apply: eq_bigr => j _.
  by rewrite mxE normrM exprMn.
have ge0 : 0 <= \sum_i \sum_j `|U i j| ^+ 2.
  by apply: sumr_ge0 => i _; apply: sumr_ge0 => j _; rewrite exprn_ge0.
by rewrite sqrtCM ?nnegrE ?exprn_ge0 // sqrCK.
Qed.

Lemma normalizeE (U : 'M[K]_(n, k)) :
  U != 0 ->
  PSDFixedRank._normalize U = Ok ((la.norm_fro U)^-1 *: U).
Proof.
move=> nz; rewrite /PSDFixedRank._normalize /_PSDFixedRank._normalize /=.
rewrite /np.true_divide norm_fro_eq0 (negbTE nz) /=.
by congr Ok; apply/matrixP => i j; rewrite !mxE mulrC.
Qed.

Lemma normalize0 :
  (0 < n)%N -> (0 < k)%N ->
  PSDFixedRank._normalize (0 : 'M[K]_(n, k)) = NaN.
Proof.
move=> lt0n lt0k; rewrite /PSDFixedRank._normalize /_PSDFixedRank._normalize /=.
by rewrite /np.true_divide norm_fro_eq0 eqxx lt0n lt0k.
Qed.

End HorizontalProjection.

(** The concrete point [[1, 0], [0, 1], [0, 0]] and the solver on its Gram
    matrix, the identity. *)
Lemma pid32_float64 : float64 pid32.
Proof. by move=> i j; rewrite mxE; apply: realn. Qed.

Lemma pid32_full_rank : \rank pid32 = 2%N.
Proof. by rewrite /pid32 rank_pid_mx. Qed.

Lemma pid32_gram : pid32^T *m pid32 = 1%:M.
Proof. by rewrite /pid32 tr_pid_mx mul_pid_mx pid_mx_1. Qed.

Lemma lyap_diagonal_identity (K : numClosedFieldType) (k : nat) :
  lyap_solves_at (@lyap_diagonal K k) 1%:M.
Proof.
move=> Q; rewrite /lyapunov_solution.
have -> : (1%:M : 'M[K]_k) ^t* = 1%:M by rewrite trmx1 map_scalar_mx rmorph1.
rewrite mul1mx mulmx1; apply/matrixP => i j.
by rewrite !mxE !eqxx /= conjC1 -[1 + 1]/(2%:R) -splitr.
Qed.

Lemma pid32_solver : lyap_solves_at (@lyap_diagonal algC 2) (pid32^T *m pid32).
Proof. rewrite pid32_gram; exact: lyap_diagonal_identity. Qed.


Lemma pid32_column_sum (j : 'I_2) : \sum_l pid32 l j = 1.
Proof.
rewrite !big_ord_recl big_ord0 !mxE /=.
by case: j => [[|[|j]] ?] //=; rewrite ?addr0 ?add0r.
Qed.

Lemma ones32_horizontal : horizontal pid32 ones32.
Proof.
apply/matrixP => i j; rewrite !mxE.
have -> : \sum_l pid32^T i l * ones32 l j = \sum_l pid32 l i.
  by apply: eq_bigr => l _; rewrite !mxE mulr1.
have -> : \sum_l ones32^T i l * pid32 l j = \sum_l pid32 l j.
  by apply: eq_bigr => l _; rewrite !mxE mul1r.
by rewrite !pid32_column_sum subrr.
Qed.

Section HorizontalTheorems.
Variable K : numClosedFieldType.
Variable rng : Type.
Variable randn : forall n k : nat, rng -> 'M[K]_(n, k) * rng.
Variable lyap : forall k : nat, 'M[K]_k -> 'M[K]_k -> 'M[K]_k.
Variables n k : nat.
Local Notation proj := (@PSDFixedRank.proj K lyap n k).

(** X1.  At a float64 point Y of full column rank, proj(Y, H) lies in the
    horizontal space at Y (Y^T P is symmetric) and differs from H by a
    vertical vector Y W with W skew-symmetric: proj splits every ambient
    matrix into its horizontal and its vertical part.  The solver is
    assumed to solve the systems whose matrix is Y^T Y. *)
Theorem proj_horizontal_vertical_split (Y H : 'M[K]_(n, k)) :
  float64 Y -> \rank Y = k -> lyap_solves_at (@lyap k) (Y^T *m Y) ->
  horizontal Y (proj Y H)
  /\ exists2 W, skew W & H = proj Y H + Y *m W.
Proof.
move=> realY rkY solves; split; first exact: proj_horizontalP.
exists (lyap (Y^T *m Y) (Y^T *m H - H^T *m Y)).
  exact: (solver_skew realY rkY solves (rhs_skew Y H)).
by rewrite /PSDFixedRank.proj /_PSDFixedRank.proj /= subrK.
Qed.

(** X2.  The fixed points of proj(Y, .) are exactly the horizontal
    vectors at Y. *)
Theorem proj_fixes_horizontal (Y H : 'M[K]_(n, k)) :
  float64 Y -> \rank Y = k -> lyap_solves_at (@lyap k) (Y^T *m Y) ->
  proj Y H = H <-> horizontal Y H.
Proof.
move=> realY rkY solves; split=> [<-|]; first exact: proj_horizontalP.
exact: proj_horizontal_id.
Qed.

(** X3.  The kernel of proj(Y, .) is exactly the vertical space at Y:
    proj(Y, H) is the zero matrix if and only if H = Y W for a
    skew-symmetric W. *)
Theorem proj_kills_vertical (Y H : 'M[K]_(n, k)) :
  float64 Y -> \rank Y = k -> lyap_solves_at (@lyap k) (Y^T *m Y) ->
  proj Y H = 0 <-> exists2 W, skew W & H = Y *m W.
Proof.
move=> realY rkY solves; split=> [P0|[W skW ->]]; last exact: proj_vertical0.
exists (lyap (Y^T *m Y) (Y^T *m H - H^T *m Y)).
  exact: (solver_skew realY rkY solves (rhs_skew Y H)).
move: P0; rewrite /PSDFixedRank.proj /_PSDFixedRank.proj /=.
by move/eqP; rewrite subr_eq0 => /eqP.
Qed.

(** X4.  proj(Y, .) is linear:
    proj(Y, a H1 + H2) = a proj(Y, H1) + proj(Y, H2). *)
Theorem proj_linear (Y H1 H2 : 'M[K]_(n, k)) (a : K) :
  float64 Y -> \rank Y = k -> lyap_solves_at (@lyap k) (Y^T *m Y) ->
  proj Y (a *: H1 + H2) = a *: proj Y H1 + proj Y H2.
Proof.
move=> realY rkY solves.
have [hA _] := gram_posdef realY rkY.
have h1 := solves (Y^T *m H1 - H1^T *m Y).
have h2 := solves (Y^T *m H2 - H2^T *m Y).
rewrite /lyapunov_solution hA in h1 h2.
rewrite /PSDFixedRank.proj /_PSDFixedRank.proj /=.
set O1 := lyap _ (Y^T *m H1 - _) in h1 *.
set O2 := lyap _ (Y^T *m H2 - _) in h2 *.
have -> : lyap (Y^T *m Y) (Y^T *m (a *: H1 + H2) - (a *: H1 + H2)^T *m Y)
          = a *: O1 + O2.
  apply: (solver_unique realY rkY solves).
  rewrite /lyapunov_solution hA mulmxDr mulmxDl -scalemxAr -scalemxAl.
  rewrite addrACA -scalerDr h1 h2.
  rewrite mulmxDr [(_ + _)^T]linearD /= mulmxDl.
  rewrite [(a *: H1)^T]linearZ /= -scalemxAr -scalemxAl scalerBr.
  by rewrite opprD addrACA.
by rewrite mulmxDr -scalemxAr scalerBr opprD addrACA.
Qed.



(** X6.  transp(Y, Z, U) and ehess2rhess(Y, egrad, ehess, U) are
    projections: the transport of U from Y to Z is horizontal at Z, does
    not depend on Y and leaves a vector that is already horizontal at Z
    unchanged; the Riemannian Hessian is horizontal at Y and depends on
    neither egrad nor U. *)
Theorem transp_ehess2rhess_horizontal (Y Y' Z U egrad egrad' ehess U'
                                       : 'M[K]_(n, k)) :
  float64 Z -> \rank Z = k -> lyap_solves_at (@lyap k) (Z^T *m Z) ->
  [/\ horizontal Z (PSDFixedRank.transp lyap Y Z U),
      PSDFixedRank.transp lyap Y Z U = PSDFixedRank.transp lyap Y' Z U,
      horizontal Z U -> PSDFixedRank.transp lyap Y Z U = U,
      horizontal Z (PSDFixedRank.ehess2rhess lyap Z egrad ehess U)
    & PSDFixedRank.ehess2rhess lyap Z egrad ehess U
      = PSDFixedRank.ehess2rhess lyap Z egrad' ehess U'].
Proof.
move=> realZ rkZ solves; split=> //.
- exact: (proj_horizontalP U realZ rkZ solves).
- exact: (proj_horizontal_id realZ rkZ solves).
- exact: (proj_horizontalP ehess realZ rkZ solves).
Qed.

(** X7.  randvec(Y) draws one matrix H, projects it and normalizes the
    result: when proj(Y, H) is not the zero matrix, randvec returns a
    horizontal vector of Frobenius norm 1 and the generator state left by
    that single draw; when proj(Y, H) is the zero matrix (and n, k > 0)
    the normalization divides by zero and the result is nan. *)
Theorem randvec_unit_horizontal (Y : 'M[K]_(n, k)) (g : rng) :
  float64 Y -> \rank Y = k -> lyap_solves_at (@lyap k) (Y^T *m Y) ->
  (proj Y (randn n k g).1 != 0 ->
   exists V,
     [/\ PSDFixedRank.randvec randn lyap Y g = Ok (V, (randn n k g).2),
         la.norm_fro V = 1 & horizontal Y V])
  /\ (proj Y (randn n k g).1 = 0 -> (0 < n)%N -> (0 < k)%N ->
      PSDFixedRank.randvec randn lyap Y g = NaN).
Proof.
move=> realY rkY solves.
rewrite /PSDFixedRank.randvec /_PSDFixedRank.randvec.
rewrite /PSDFixedRank.rand /_PSDFixedRank.rand.
case: (randn n k g) => H g' /=; split=> [nz|P0 lt0n lt0k].
  have := normalizeE nz.
  rewrite /PSDFixedRank._normalize /PSDFixedRank.proj => ->.
  exists ((la.norm_fro (proj Y H))^-1 *: proj Y H); split=> //.
    rewrite norm_froZ normfV ger0_norm ?norm_fro_ge0 // mulVf //.
    by rewrite norm_fro_eq0.
  by apply: scale_horizontal; exact: proj_horizontalP.
have := normalize0 K lt0n lt0k.
rewrite /PSDFixedRank.proj in P0.
by rewrite /PSDFixedRank._normalize P0 => ->.
Qed.

End HorizontalTheorems.

Lemma ones32_float64 : float64 ones32.
Proof. by move=> i j; rewrite mxE; apply: real1. Qed.


Lemma ones32_nonzero : ones32 != 0.
Proof.
by apply/eqP => /matrixP/(_ 0 0); rewrite !mxE => /eqP; rewrite oner_eq0.
Qed.

Lemma proj_horizontal_vertical_split_witness :
  [/\ float64 pid32, \rank pid32 = 2%N
    & lyap_solves_at (@lyap_diagonal algC 2) (pid32^T *m pid32)]
  /\ (horizontal pid32 (PSDFixedRank.proj (@lyap_diagonal algC) pid32 swap32)
      /\ exists2 W, skew W
           & swap32
             = PSDFixedRank.proj (@lyap_diagonal algC) pid32 swap32
               + pid32 *m W).
Proof.
split; first by split;
  [exact: pid32_float64 | exact: pid32_full_rank | exact: pid32_solver].
exact: (proj_horizontal_vertical_split swap32
          pid32_float64 pid32_full_rank pid32_solver).
Defined.

Lemma proj_fixes_horizontal_witness :
  [/\ float64 pid32, \rank pid32 = 2%N
    & lyap_solves_at (@lyap_diagonal algC 2) (pid32^T *m pid32)]
  /\ (PSDFixedRank.proj (@lyap_diagonal algC) pid32 ones32 = ones32
      <-> horizontal pid32 ones32).
Proof.
split; first by split;
  [exact: pid32_float64 | exact: pid32_full_rank | exact: pid32_solver].
exact: (proj_fixes_horizontal ones32
          pid32_float64 pid32_full_rank pid32_solver).
Defined.

Lemma proj_kills_vertical_witness :
  [/\ float64 pid32, \rank pid32 = 2%N
    & lyap_solves_at (@lyap_diagonal algC 2) (pid32^T *m pid32)]
  /\ (PSDFixedRank.proj (@lyap_diagonal algC) pid32 (pid32 *m rot2) = 0
      <-> exists2 W, skew W & pid32 *m rot2 = pid32 *m W).
Proof.
split; first by split;
  [exact: pid32_float64 | exact: pid32_full_rank | exact: pid32_solver].
exact: (proj_kills_vertical (pid32 *m rot2)
          pid32_float64 pid32_full_rank pid32_solver).
Defined.

Lemma proj_linear_witness :
  [/\ float64 pid32, \rank pid32 = 2%N
    & lyap_solves_at (@lyap_diagonal algC 2) (pid32^T *m pid32)]
  /\ PSDFixedRank.proj (@lyap_diagonal algC) pid32 (2 *: swap32 + ones32)
     = 2 *: PSDFixedRank.proj (@lyap_diagonal algC) pid32 swap32
       + PSDFixedRank.proj (@lyap_diagonal algC) pid32 ones32.
Proof.
split; first by split;
  [exact: pid32_float64 | exact: pid32_full_rank | exact: pid32_solver].
exact: (proj_linear swap32 ones32 2
          pid32_float64 pid32_full_rank pid32_solver).
Defined.


Lemma transp_ehess2rhess_horizontal_witness :
  let lyap := @lyap_diagonal algC in
  [/\ float64 pid32, \rank pid32 = 2%N,
      lyap_solves_at (@lyap 2) (pid32^T *m pid32) & horizontal pid32 ones32]
  /\ [/\ horizontal pid32 (PSDFixedRank.transp lyap swap32 pid32 ones32),
         PSDFixedRank.transp lyap swap32 pid32 ones32
         = PSDFixedRank.transp lyap ones32 pid32 ones32,
         PSDFixedRank.transp lyap swap32 pid32 ones32 = ones32,
         horizontal pid32
           (PSDFixedRank.ehess2rhess lyap pid32 swap32 ones32 ones32)
       & PSDFixedRank.ehess2rhess lyap pid32 swap32 ones32 ones32
         = PSDFixedRank.ehess2rhess lyap pid32 ones32 ones32 swap32].
Proof.
move=> lyap.
have [h1 h2 h3 h4 h5] :=
  transp_ehess2rhess_horizontal swap32 ones32 ones32 swap32 ones32 ones32
    swap32 pid32_float64 pid32_full_rank pid32_solver.
split; first by split; [exact: pid32_float64 | exact: pid32_full_rank
                       | exact: pid32_solver | exact: ones32_horizontal].
split; [exact: h1 | exact: h2 | exact: (h3 ones32_horizontal)
       | exact: h4 | exact: h5].
Defined.

Lemma randvec_unit_horizontal_witness :
  let lyap := @lyap_diagonal algC in
  [/\ float64 pid32, \rank pid32 = 2%N,
      lyap_solves_at (@lyap 2) (pid32^T *m pid32),
      PSDFixedRank.proj lyap pid32 (@randn_const algC 1 3 2 tt).1 != 0
    & PSDFixedRank.proj lyap pid32 (@randn_const algC 0 3 2 tt).1 = 0]
  /\ (exists V,
        [/\ PSDFixedRank.randvec (@randn_const algC 1) lyap pid32 tt
            = Ok (V, tt),
            la.norm_fro V = 1 & horizontal pid32 V])
  /\ PSDFixedRank.randvec (@randn_const algC 0) lyap pid32 tt = NaN.
Proof.
move=> lyap.
have nz : PSDFixedRank.proj lyap pid32 (@randn_const algC 1 3 2 tt).1 != 0.
  rewrite [X in X != 0](_ : _ = ones32) ?ones32_nonzero //.
  exact: (proj_horizontal_id pid32_float64 pid32_full_rank pid32_solver
            ones32_horizontal).
have z : PSDFixedRank.proj lyap pid32 (@randn_const algC 0 3 2 tt).1 = 0.
  have -> : (@randn_const algC 0 3 2 tt).1 = pid32 *m 0.
    by rewrite mulmx0; apply/matrixP => i j; rewrite !mxE.
  apply: (proj_vertical0 pid32_float64 pid32_full_rank pid32_solver).
  by rewrite /skew trmx0 oppr0.
have [on_nz _] := randvec_unit_horizontal (@randn_const algC 1) tt
                    pid32_float64 pid32_full_rank pid32_solver.
have [_ on_z] := randvec_unit_horizontal (@randn_const algC 0) tt
                   pid32_float64 pid32_full_rank pid32_solver.
split; first by split; [exact: pid32_float64 | exact: pid32_full_rank
                       | exact: pid32_solver | exact: nz | exact: z].
split; [exact: on_nz nz | exact: on_z z isT isT].
Defined.

(* ================================================================== *)
(** ** Elliptope: projections and row normalization *)

Section EllipticTangent.
Variable K : numClosedFieldType.
Variable lyap : forall k : nat, 'M[K]_k -> 'M[K]_k -> 'M[K]_k.
Variables n k : nat.

Lemma unit_row_dot (Y : 'M[K]_(n, k)) :
  float64 Y -> unit_rows Y -> forall i, np.rowwise_dot Y Y i 0 = 1.
Proof.
move=> realY unitY i; rewrite mxE.
have sq_real j : Y i j * Y i j = `|Y i j| ^+ 2.
  by rewrite normCK (CrealP (realY i j)).
under eq_bigr => j _ do rewrite sq_real.
have := unitY i; rewrite mxE => h.
by rewrite -[LHS]sqrtCK h expr1n.
Qed.

Lemma rowwise_dotBr (Y H M : 'M[K]_(n, k)) i :
  np.rowwise_dot Y (H - M) i 0
  = np.rowwise_dot Y H i 0 - np.rowwise_dot Y M i 0.
Proof.
rewrite !mxE -sumrB; apply: eq_bigr => j _.
by rewrite !mxE mulrBr.
Qed.

Lemma rowwise_dot_rows (Y : 'M[K]_(n, k)) (v : 'cV[K]_n) i :
  np.rowwise_dot Y (np.multiply_rows Y v) i 0
  = np.rowwise_dot Y Y i 0 * v i 0.
Proof.
rewrite !mxE mulr_suml; apply: eq_bigr => j _.
by rewrite !mxE mulrA.
Qed.

Lemma project_rows_tangent (Y H : 'M[K]_(n, k)) :
  float64 Y -> unit_rows Y -> row_tangent Y (Elliptope._project_rows Y H).
Proof.
move=> realY unitY i; rewrite /Elliptope._project_rows.
by rewrite rowwise_dotBr rowwise_dot_rows unit_row_dot // mul1r subrr.
Qed.

Lemma project_rows_id (Y H : 'M[K]_(n, k)) :
  row_tangent Y H -> Elliptope._project_rows Y H = H.
Proof.
move=> tanH; apply/matrixP => i j.
by rewrite /Elliptope._project_rows 3!mxE tanH mulr0 subr0.
Qed.

(** A skew-symmetric matrix has no diagonal in any basis. *)
Lemma quad_skew0 (W : 'M[K]_k) (y : 'rV[K]_k) :
  skew W -> y *m W *m y^T = 0.
Proof.
move=> skW; set s := y *m W *m y^T.
have eq : s^T = - s.
  by rewrite /s !trmx_mul trmxK skW mulNmx mulmxN mulmxA.
apply/matrixP => i j; rewrite !ord1 [RHS]mxE.
have := congr1 (fun M : 'M[K]_1 => M 0 0) eq.
rewrite mxE [RHS]mxE => e00.
have : s 0 0 *+ 2 = 0 by rewrite mulr2n {2}e00 subrr.
by move/eqP; rewrite mulrn_eq0 /= => /eqP.
Qed.

Lemma rowwise_dot_vertical (Y : 'M[K]_(n, k)) (W : 'M[K]_k) i :
  skew W -> np.rowwise_dot Y (Y *m W) i 0 = 0.
Proof.
move=> skW.
have <- : (row i Y *m W *m (row i Y)^T) 0 0 = np.rowwise_dot Y (Y *m W) i 0.
  rewrite !mxE; apply: eq_bigr => j _.
  rewrite !mxE mulrC; congr (_ * _).
  by apply: eq_bigr => l _; rewrite !mxE.
by rewrite quad_skew0 // mxE.
Qed.

Lemma half_mx (M : 'M[K]_(n, k)) : map_mx (fun x => x / 2) M = 2^-1 *: M.
Proof. by apply/matrixP => i j; rewrite !mxE mulrC. Qed.

Lemma antisym_part_skew (W : 'M[K]_k) : skew (W - W^T).
Proof. by rewrite /skew linearB /= trmxK opprB. Qed.

Lemma elliptope_proj_tangent (Y H : 'M[K]_(n, k)) :
  float64 Y -> unit_rows Y -> row_tangent Y (Elliptope.proj lyap Y H).
Proof.
move=> realY unitY i; rewrite /Elliptope.proj /=.
rewrite rowwise_dotBr project_rows_tangent // half_mx.
set W := _ - _^T.
have -> : np.rowwise_dot Y (2^-1 *: (Y *m W)) i 0
          = np.rowwise_dot Y (Y *m (2^-1 *: W)) i 0.
  by rewrite -scalemxAr.
rewrite rowwise_dot_vertical ?subrr //.
by rewrite /skew linearZ /= antisym_part_skew scalerN.
Qed.

(** X8.  Elliptope.egrad2rgrad, which is _project_rows, projects every
    row of the Euclidean gradient onto the tangent space of the unit
    sphere at the corresponding row of the float64 point Y with unit
    rows: the result is row-wise orthogonal to Y, a matrix is left
    unchanged exactly when it is already row-wise orthogonal to Y, and
    the conversion is idempotent. *)
Theorem egrad2rgrad_row_projection (Y G : 'M[K]_(n, k)) :
  float64 Y -> unit_rows Y ->
  [/\ row_tangent Y (Elliptope.egrad2rgrad Y G),
      Elliptope.egrad2rgrad Y G = G <-> row_tangent Y G
    & Elliptope.egrad2rgrad Y (Elliptope.egrad2rgrad Y G)
      = Elliptope.egrad2rgrad Y G].
Proof.
move=> realY unitY; rewrite /Elliptope.egrad2rgrad.
have tan := project_rows_tangent G realY unitY.
split=> //; last exact: project_rows_id.
by split=> [<- //|]; exact: project_rows_id.
Qed.

(** X9.  Whatever the Lyapunov solver returns, the results of
    Elliptope.proj, Elliptope.transp and Elliptope.ehess2rhess at a
    float64 point with unit rows are row-wise orthogonal to that point:
    they are tangent to the product of unit spheres. *)
Theorem elliptope_proj_row_tangent (Y X H egrad ehess U : 'M[K]_(n, k)) :
  float64 Y -> unit_rows Y ->
  [/\ row_tangent Y (Elliptope.proj lyap Y H),
      row_tangent Y (Elliptope.transp lyap X Y U)
    & row_tangent Y (Elliptope.ehess2rhess lyap Y egrad ehess U)].
Proof.
by move=> realY unitY; split; exact: elliptope_proj_tangent.
Qed.

(** X10.  On a matrix H that is row-wise orthogonal to the float64 point
    Y of full column rank, Elliptope.proj(Y, H) equals H + Y Omega where
    Omega solves (Y^T Y) Omega + Omega (Y^T Y) = Y^T H - H^T Y, whereas
    PSDFixedRank.proj(Y, H) equals H - Y Omega: the two sum to 2 H, and
    Elliptope.proj leaves H unchanged exactly when H is horizontal. *)
Theorem elliptope_proj_on_tangent (Y H : 'M[K]_(n, k)) :
  float64 Y -> \rank Y = k -> lyap_solves_at (@lyap k) (Y^T *m Y) ->
  row_tangent Y H ->
  [/\ Elliptope.proj lyap Y H
      = H + Y *m lyap (Y^T *m Y) (Y^T *m H - H^T *m Y),
      Elliptope.proj lyap Y H + PSDFixedRank.proj lyap Y H = 2 *: H
    & Elliptope.proj lyap Y H = H <-> horizontal Y H].
Proof.
move=> realY rkY solves tanH.
have [hA _] := gram_posdef realY rkY.
have skO := solver_skew realY rkY solves (rhs_skew Y H).
have hO := solves (Y^T *m H - H^T *m Y); rewrite /lyapunov_solution hA in hO.
have projE : Elliptope.proj lyap Y H
             = H + Y *m lyap (Y^T *m Y) (Y^T *m H - H^T *m Y).
  rewrite /Elliptope.proj /= project_rows_id //.
  set Omega := lyap _ (_ - _) in skO hO *.
  have -> : lyap (Y^T *m Y) (- (Y^T *m H - H^T *m Y)) = - Omega.
    apply: (solver_unique realY rkY solves).
    by rewrite /lyapunov_solution hA mulmxN mulNmx -opprD hO.
  rewrite half_mx linearN /= skO opprK -opprD mulmxN scalerN opprK.
  by rewrite mulmxDr -mulr2n -scaler_nat scalerA mulVf ?scale1r // pnatr_eq0.
split=> //.
  rewrite projE /PSDFixedRank.proj /_PSDFixedRank.proj /=.
  by rewrite addrACA subrr addr0 -mulr2n -scaler_nat.
rewrite projE; set Omega := lyap _ _ in skO hO *.
split=> [/eqP|hH]; last first.
  have -> : Omega = 0.
    rewrite /Omega hH; apply: (solver_unique realY rkY solves).
    by rewrite /lyapunov_solution mulmx0 mul0mx addr0.
  by rewrite mulmx0 addr0.
rewrite -subr_eq0 addrC addKr => /eqP YO0.
have GO0 : Y^T *m Y *m Omega = 0 by rewrite -mulmxA YO0 mulmx0.
have OG0 : Omega *m (Y^T *m Y) = 0.
  apply: trmx_inj; rewrite trmx_mul gram_sym skO mulmxN GO0 trmx0.
  by rewrite oppr0.
by rewrite /horizontal -hO GO0 OG0 addr0.
Qed.

(** X11.  _normalize_rows depends on the directions of the rows only:
    normalizing twice is the same as normalizing once (nan included), a
    positive rescaling of the matrix does not change the result, and the
    result is nan exactly when the matrix has a zero row and at least
    one column. *)
Theorem normalize_rows_directions (Y : 'M[K]_(n, k)) :
  [/\ (Z <- Elliptope._normalize_rows Y ;; Elliptope._normalize_rows Z)
      = Elliptope._normalize_rows Y,
      forall c : K, 0 < c ->
        Elliptope._normalize_rows (c *: Y) = Elliptope._normalize_rows Y
    & Elliptope._normalize_rows Y = NaN
      <-> (exists i, row i Y = 0) /\ (0 < k)%N].
Proof.
have norm0 i : (la.norm_axis1 Y i 0 == 0) = (row i Y == 0).
  by rewrite mxE sqrtC_eq0 row_sq_eq0.
split.
- case k_gt0: (0 < k)%N; last first.
    rewrite /Elliptope._normalize_rows /np.true_divide_rows k_gt0 !andbF /=.
    rewrite andbF; congr Ok; apply/matrixP => i j.
    by have := leq_ltn_trans (leq0n j) (ltn_ord j); rewrite k_gt0.
  case: (boolP [exists i, la.norm_axis1 Y i 0 == 0]) => [zero|].
    by rewrite /Elliptope._normalize_rows /np.true_divide_rows zero k_gt0.
  rewrite negb_exists => /forallP nz.
  have nzY i : row i Y != 0 by rewrite -norm0; exact: nz.
  have [Z eqZ unitZ] := normalize_rows_unit nzY.
  by rewrite eqZ /= normalize_unit_rows.
- move=> c c_gt0; rewrite /Elliptope._normalize_rows /np.true_divide_rows.
  have normZ i : la.norm_axis1 (c *: Y) i 0 = c * la.norm_axis1 Y i 0.
    rewrite !mxE.
    have -> : \sum_j `|(c *: Y) i j| ^+ 2 = c ^+ 2 * \sum_j `|Y i j| ^+ 2.
      rewrite mulr_sumr; apply: eq_bigr => j _.
      by rewrite mxE normrM exprMn (gtr0_norm c_gt0).
    rewrite sqrtCM ?nnegrE ?exprn_ge0 ?row_sq_ge0 ?(ltW c_gt0) //.
    by rewrite sqrCK // ltW.
  have -> : [exists i, la.norm_axis1 (c *: Y) i 0 == 0]
            = [exists i, la.norm_axis1 Y i 0 == 0].
    by apply: eq_existsb => i; rewrite normZ mulf_eq0 (gt_eqF c_gt0).
  case: ifP => // _; congr Ok; apply/matrixP => i j.
  rewrite mxE [RHS]mxE normZ [(c *: Y) i j]mxE -mulf_div divff ?mul1r //.
  by rewrite gt_eqF.
- rewrite /Elliptope._normalize_rows /np.true_divide_rows.
  case: ifP => [/andP[/existsP[i zero] k_gt0]|no]; split=> //.
    by split=> //; exists i; apply/eqP; rewrite -norm0.
  case=> -[i /eqP zero] k_gt0; move: no; rewrite k_gt0 andbT => /existsP[].
  by exists i; rewrite norm0.
Qed.

End EllipticTangent.

Lemma eye2_float64 : float64 eye2.
Proof. by move=> i j; rewrite mxE; apply: realn. Qed.

Lemma eye2_unit_rows : unit_rows eye2.
Proof.
move=> i; rewrite mxE (bigD1 i) //= mxE eqxx normr1 expr1n.
rewrite big1 ?addr0 ?sqrtC1 //.
by move=> j /negbTE ne; rewrite mxE eq_sym ne normr0 expr0n.
Qed.

Lemma eye2_full_rank : \rank eye2 = 2%N.
Proof. by rewrite /eye2 mxrank1. Qed.

Lemma eye2_solver : lyap_solves_at (@lyap_diagonal algC 2) (eye2^T *m eye2).
Proof. rewrite /eye2 trmx1 mul1mx; exact: lyap_diagonal_identity. Qed.

Lemma rot2_row_tangent : row_tangent eye2 rot2.
Proof.
move=> i; rewrite mxE (bigD1 i) //= big1 => [j /negbTE ne|].
  by rewrite !mxE eq_sym ne mul0r.
by rewrite !mxE eqxx mul1r andbC subrr addr0.
Qed.

Lemma egrad2rgrad_row_projection_witness :
  [/\ float64 eye2 & unit_rows eye2]
  /\ [/\ row_tangent eye2 (Elliptope.egrad2rgrad eye2 ones22),
         Elliptope.egrad2rgrad eye2 ones22 = ones22 <-> row_tangent eye2 ones22
       & Elliptope.egrad2rgrad eye2 (Elliptope.egrad2rgrad eye2 ones22)
         = Elliptope.egrad2rgrad eye2 ones22].
Proof.
split; first by split; [exact: eye2_float64 | exact: eye2_unit_rows].
exact: (egrad2rgrad_row_projection ones22 eye2_float64 eye2_unit_rows).
Defined.

Lemma elliptope_proj_row_tangent_witness :
  let lyap := @lyap_diagonal algC in
  [/\ float64 eye2 & unit_rows eye2]
  /\ [/\ row_tangent eye2 (Elliptope.proj lyap eye2 ones22),
         row_tangent eye2 (Elliptope.transp lyap rot2 eye2 rot2)
       & row_tangent eye2 (Elliptope.ehess2rhess lyap eye2 rot2 ones22 rot2)].
Proof.
move=> lyap.
split; first by split; [exact: eye2_float64 | exact: eye2_unit_rows].
exact: (elliptope_proj_row_tangent lyap rot2 ones22 rot2 ones22 rot2
          eye2_float64 eye2_unit_rows).
Defined.

Lemma elliptope_proj_on_tangent_witness :
  let lyap := @lyap_diagonal algC in
  [/\ float64 eye2, \rank eye2 = 2%N,
      lyap_solves_at (@lyap 2) (eye2^T *m eye2) & row_tangent eye2 rot2]
  /\ [/\ Elliptope.proj lyap eye2 rot2
         = rot2 + eye2 *m lyap 2%N (eye2^T *m eye2)
                            (eye2^T *m rot2 - rot2^T *m eye2),
         Elliptope.proj lyap eye2 rot2 + PSDFixedRank.proj lyap eye2 rot2
         = 2 *: rot2
       & Elliptope.proj lyap eye2 rot2 = rot2 <-> horizontal eye2 rot2].
Proof.
move=> lyap.
split; first by split; [exact: eye2_float64 | exact: eye2_full_rank
                       | exact: eye2_solver | exact: rot2_row_tangent].
exact: (elliptope_proj_on_tangent eye2_float64 eye2_full_rank eye2_solver
          rot2_row_tangent).
Defined.

Lemma normalize_rows_directions_witness :
  0 < (2 : algC)
  /\ Elliptope._normalize_rows (2 *: ones22) = Elliptope._normalize_rows ones22.
Proof.
have [_ scale _] := normalize_rows_directions ones22.
by split; [rewrite ltr0n | apply: scale; rewrite ltr0n].
Defined.

(* ================================================================== *)
(** ** The metrics of the three manifolds *)

Section MetricFacts.
Variable K : numClosedFieldType.
Variable rng : Type.
Variable randn : forall n k : nat, rng -> 'M[K]_(n, k) * rng.
Variable svd : forall k : nat, 'M[K]_k -> 'M[K]_k * 'rV[K]_k * 'M[K]_k.
Variables n k : nat.

Lemma tensordotC (U V : 'M[K]_(n, k)) : np.tensordot U V = np.tensordot V U.
Proof.
rewrite /np.tensordot; apply: eq_bigr => i _; apply: eq_bigr => j _.
by rewrite mulrC.
Qed.

Lemma tensordot_float64 (U : 'M[K]_(n, k)) :
  float64 U -> np.tensordot U U = la.norm_fro U ^+ 2.
Proof.
move=> realU; rewrite /la.norm_fro sqrtCK /np.tensordot.
apply: eq_bigr => i _; apply: eq_bigr => j _.
by rewrite normCK (CrealP (realU i j)).
Qed.

Lemma norm_fro_sq_real (U : 'M[K]_(n, k)) : la.norm_fro U ^+ 2 \is Num.real.
Proof. by rewrite realE exprn_ge0 // norm_fro_ge0. Qed.

Lemma elliptope_norm_float64 (P : Type) (Y : P) (U : 'M[K]_(n, k)) :
  float64 U -> Elliptope.norm Y U = Ok (la.norm_fro U).
Proof.
move=> realU; rewrite /Elliptope.norm /Elliptope.inner tensordot_float64 //.
rewrite (float64_iscomplexobj realU) /= /np.sqrt exprn_ge0 ?norm_fro_ge0 //.
by rewrite sqrCK // norm_fro_ge0.
Qed.

(** X12.  The three metrics are symmetric in the two tangent vectors and
    do not depend on the base point. *)
Theorem inner_symmetric (P : Type) (Y Y' : P) (U V : 'M[K]_(n, k)) :
  [/\ PSDFixedRank.inner Y U V = PSDFixedRank.inner Y' V U,
      PSDFixedRankComplex.inner Y U V = PSDFixedRankComplex.inner Y' V U
    & Elliptope.inner Y U V = Elliptope.inner Y' V U].
Proof.
rewrite /PSDFixedRank.inner /_PSDFixedRank.inner /PSDFixedRankComplex.inner.
by rewrite /Elliptope.inner (tensordotC U V) orbC.
Qed.

(** X13.  On a float64 tangent vector U the metrics agree with the
    Frobenius norm: inner(Y, U, U) of PSDFixedRank and Elliptope is the
    squared Frobenius norm, Elliptope.norm returns the Frobenius norm
    that PSDFixedRank.norm returns, PSDFixedRankComplex.norm returns
    sqrt(2) times it, and Elliptope.norm returns 0 only for the zero
    matrix. *)
Theorem norms_on_float64 (P : Type) (Y : P) (U : 'M[K]_(n, k)) :
  float64 U ->
  [/\ PSDFixedRank.inner Y U U = Ok (la.norm_fro U ^+ 2)
      /\ Elliptope.inner Y U U = Ok (la.norm_fro U ^+ 2),
      Elliptope.norm Y U = PSDFixedRank.norm Y U,
      PSDFixedRankComplex.norm Y U = Ok (sqrtC 2 * la.norm_fro U)
    & Elliptope.norm Y U = Ok 0 <-> U = 0].
Proof.
move=> realU.
have innerE :
  float_ (np.iscomplexobj U || np.iscomplexobj U) (np.tensordot U U)
  = Ok (la.norm_fro U ^+ 2).
  by rewrite tensordot_float64 // (float64_iscomplexobj realU).
split=> //.
- exact: elliptope_norm_float64.
- rewrite /PSDFixedRankComplex.norm complex_innerE /= tensordot_float64 //.
  have sq_ge0 : 0 <= la.norm_fro U ^+ 2 by rewrite exprn_ge0 // norm_fro_ge0.
  rewrite (Creal_ReP _ (norm_fro_sq_real U)) /np.sqrt mulr_ge0 ?ler0n //.
  by rewrite sqrtCM ?nnegrE ?ler0n // sqrCK // norm_fro_ge0.
- rewrite elliptope_norm_float64 //; split=> [[/eqP]|->].
    by rewrite norm_fro_eq0 => /eqP.
  by congr Ok; apply/eqP; rewrite norm_fro_eq0.
Qed.

(** X14.  PSDFixedRankComplex.rand makes two draws from the generator, one
    after the other; for float64 draws the first is the real part and
    the second the imaginary part of the returned point, and the
    generator is left in the state after the second draw. *)
Theorem complex_rand_parts (g : rng) :
  float64 (randn n k g).1 -> float64 (randn n k (randn n k g).2).1 ->
  exists Z,
    [/\ PSDFixedRankComplex.rand randn n k g
        = (Z, (randn n k (randn n k g).2).2),
        map_mx (fun z => 'Re z) Z = (randn n k g).1
      & map_mx (fun z => 'Im z) Z = (randn n k (randn n k g).2).1].
Proof.
rewrite /PSDFixedRankComplex.rand /_PSDFixedRank.rand.
case: (randn n k g) => A g1 /=; case: (randn n k g1) => B g2 /= realA realB.
exists (A + 'i *: B); split=> //.
  by apply/matrixP => i j; rewrite !mxE Re_rect.
by apply/matrixP => i j; rewrite !mxE Im_rect.
Qed.

(** X15.  PSDFixedRankComplex.dist(U, V) aligns V with U by S D, the
    product of the unitary factors of the SVD of V* U, and measures
    E = U - V S D: it returns 0 when V S D = U, and the squared Frobenius
    norm of E when E is float64. *)
Theorem complex_dist_aligned (U V : 'M[K]_(n, k)) S_ s D_ :
  svd (V ^t* *m U) = (S_, s, D_) ->
  (V *m S_ *m D_ = U -> PSDFixedRankComplex.dist svd U V = Ok 0)
  /\ (float64 (U - V *m S_ *m D_) ->
      PSDFixedRankComplex.dist svd U V
      = Ok (la.norm_fro (U - V *m S_ *m D_) ^+ 2)).
Proof.
move=> svdE; rewrite /PSDFixedRankComplex.dist svdE complex_innerE /=.
split=> [->|realE].
  rewrite subrr; congr Ok.
  have -> : np.tensordot (0 : 'M[K]_(n, k)) 0 = 0.
    rewrite /np.tensordot big1 // => i _; rewrite big1 // => j _.
    by rewrite mxE mulr0.
  by rewrite raddf0 mulr0 mul0r.
rewrite tensordot_float64 // (Creal_ReP _ (norm_fro_sq_real _)).
by congr Ok; rewrite mulrC mulKf // pnatr_eq0.
Qed.

End MetricFacts.

Lemma norms_on_float64_witness :
  float64 ones32
  /\ [/\ PSDFixedRank.inner tt ones32 ones32 = Ok (la.norm_fro ones32 ^+ 2)
         /\ Elliptope.inner tt ones32 ones32 = Ok (la.norm_fro ones32 ^+ 2),
         Elliptope.norm tt ones32 = PSDFixedRank.norm tt ones32,
         PSDFixedRankComplex.norm tt ones32
         = Ok (sqrtC 2 * la.norm_fro ones32)
       & Elliptope.norm tt ones32 = Ok 0 <-> ones32 = 0].
Proof.
split; first exact: ones32_float64.
exact: (norms_on_float64 tt ones32_float64).
Defined.

Lemma complex_rand_parts_witness :
  let randn := @randn_const algC 1 in
  (float64 (randn 3 2 tt).1 /\ float64 (randn 3 2 (randn 3 2 tt).2).1)
  /\ exists Z,
       [/\ PSDFixedRankComplex.rand randn 3 2 tt = (Z, tt),
           map_mx (fun z => 'Re z) Z = ones32
         & map_mx (fun z => 'Im z) Z = ones32].
Proof.
move=> randn.
split; first by split; exact: ones32_float64.
exact: (@complex_rand_parts algC unit randn 3 2 tt
          ones32_float64 ones32_float64).
Defined.

Lemma complex_dist_aligned_witness :
  let svd := @svd_trivial algC in
  [/\ svd 2%N (ones32 ^t* *m ones32) = (1%:M, const_mx 1, 1%:M),
      ones32 *m 1%:M *m 1%:M = ones32
    & float64 (ones32 - ones32 *m 1%:M *m 1%:M)]
  /\ PSDFixedRankComplex.dist svd ones32 ones32 = Ok 0
  /\ PSDFixedRankComplex.dist svd ones32 ones32
     = Ok (la.norm_fro (ones32 - ones32 *m 1%:M *m 1%:M) ^+ 2).
Proof.
move=> svd.
have aligned : ones32 *m 1%:M *m 1%:M = ones32 by rewrite !mulmx1.
have realE : float64 (ones32 - ones32 *m 1%:M *m 1%:M).
  by move=> i j; rewrite aligned subrr mxE real0.
have svdE : svd 2%N (ones32 ^t* *m ones32) = (1%:M, const_mx 1, 1%:M) by [].
have [on_aligned on_real] := complex_dist_aligned svdE.
by split; [split | split; [exact: on_aligned | exact: on_real]].
Defined.

(* ================================================================== *)
(** ** Elliptope.randvec *)

Section EllipticRandvec.
Variable K : numClosedFieldType.
Variable rng : Type.
Variable randn : forall n k : nat, rng -> 'M[K]_(n, k) * rng.
Variable lyap : forall k : nat, 'M[K]_k -> 'M[K]_k -> 'M[K]_k.
Variables n k : nat.

Lemma scale_row_tangent (Y U : 'M[K]_(n, k)) (c : K) :
  row_tangent Y U -> row_tangent Y (c *: U).
Proof.
move=> tanU i; rewrite -[RHS](mulr0 c) -(tanU i) !mxE mulr_sumr.
by apply: eq_bigr => j _; rewrite mxE mulrCA.
Qed.

Lemma float64_zero : float64 (0 : 'M[K]_(n, k)).
Proof. by move=> i j; rewrite mxE real0. Qed.

(** X16.  Elliptope.randvec(Y) draws a point A with rand(), projects it
    at the float64 point Y with unit rows and divides by the norm: when
    proj(Y, A) is a float64 matrix other than zero, randvec returns a
    vector of Frobenius norm 1 that is row-wise orthogonal to Y, and the
    generator state left by rand(); when proj(Y, A) is the zero matrix
    (and n, k > 0) the division is 0 / 0 and the result is nan. *)
Theorem elliptope_randvec_unit_tangent (Y A : 'M[K]_(n, k)) (g g' : rng) :
  float64 Y -> unit_rows Y ->
  Elliptope.rand randn n k g = Ok (A, g') ->
  (float64 (Elliptope.proj lyap Y A) -> Elliptope.proj lyap Y A != 0 ->
   exists V,
     [/\ Elliptope.randvec randn lyap Y g = Ok (V, g'),
         la.norm_fro V = 1 & row_tangent Y V])
  /\ (Elliptope.proj lyap Y A = 0 -> (0 < n)%N -> (0 < k)%N ->
      Elliptope.randvec randn lyap Y g = NaN).
Proof.
move=> realY unitY drawn; rewrite /Elliptope.randvec drawn /=.
split=> [realH nzH|-> lt0n lt0k].
  rewrite elliptope_norm_float64 //= /np.true_divide.
  rewrite norm_fro_eq0 (negbTE nzH) /=.
  set H := Elliptope.proj lyap Y A in realH nzH *.
  have -> : map_mx (fun y => y / la.norm_fro H) H = (la.norm_fro H)^-1 *: H.
    by apply/matrixP => i j; rewrite !mxE mulrC.
  exists ((la.norm_fro H)^-1 *: H); split=> //.
    rewrite norm_froZ normfV ger0_norm ?norm_fro_ge0 // mulVf //.
    by rewrite norm_fro_eq0.
  by apply: scale_row_tangent; exact: elliptope_proj_tangent.
rewrite (elliptope_norm_float64 _ float64_zero).
have -> : la.norm_fro (0 : 'M[K]_(n, k)) = 0.
  by apply/eqP; rewrite norm_fro_eq0.
by rewrite /= /np.true_divide eqxx lt0n lt0k.
Qed.

End EllipticRandvec.

(** The draw of all ones, normalized, and its projection at the
    identity. *)
Lemma inv_sqrt2_real : (sqrtC (2 : algC))^-1 \is Num.real.
Proof. by rewrite realV sqrtC_real // ler0n. Qed.

Lemma inv_sqrt2_neq0 : (sqrtC (2 : algC))^-1 != 0.
Proof. by rewrite invr_eq0 sqrtC_eq0 pnatr_eq0. Qed.

Lemma ones22_rand :
  Elliptope.rand (@randn_const algC 1) 2 2 tt
  = Ok ((sqrtC 2)^-1 *: ones22, tt).
Proof.
rewrite /Elliptope.rand /= /Elliptope._normalize_rows /np.true_divide_rows.
have normE i : la.norm_axis1 (const_mx 1 : 'M[algC]_2) i 0 = sqrtC 2.
  rewrite mxE; congr sqrtC.
  have -> : \sum_j `|(const_mx 1 : 'M[algC]_2) i j| ^+ 2 = \sum_(j < 2) 1.
    by apply: eq_bigr => j _; rewrite mxE normr1 expr1n.
  by rewrite sumr_const card_ord.
have -> : [exists i, la.norm_axis1 (const_mx 1 : 'M[algC]_2) i 0 == 0] = false.
  by apply/existsP => -[i]; rewrite normE sqrtC_eq0 pnatr_eq0.
rewrite /=; congr (Ok (_, _)); apply/matrixP => i j.
by rewrite mxE normE [RHS]mxE !mxE mulrC.
Qed.

Lemma lyap_diagonal_sym (Q : 'M[algC]_2) :
  Q^T = Q -> (lyap_diagonal 1%:M Q)^T = lyap_diagonal 1%:M Q.
Proof.
move=> symQ; apply/matrixP => i j; rewrite !mxE !eqxx.
by move/matrixP/(_ i j): symQ; rewrite mxE => ->.
Qed.

Lemma ones22_proj :
  Elliptope.proj (@lyap_diagonal algC) eye2 ((sqrtC 2)^-1 *: ones22)
  = (sqrtC 2)^-1 *: (ones22 - 1%:M).
Proof.
set c := (sqrtC 2)^-1; set A := c *: ones22.
have symA : A^T = A by apply/matrixP => i j; rewrite !mxE.
have etaE : Elliptope._project_rows eye2 A = c *: (ones22 - 1%:M).
  apply/matrixP => i j; rewrite /Elliptope._project_rows.
  have -> : np.rowwise_dot eye2 A = const_mx c.
    apply/matrixP => i' j'; rewrite mxE (bigD1 i') //= big1 => [l /negbTE ne|].
      by rewrite !mxE eq_sym ne mul0r.
    by rewrite !mxE eqxx mul1r mulr1 addr0.
  by rewrite !mxE mulr1 mulrBr mulr1 [_ * c]mulrC.
have symEta :
  (Elliptope._project_rows eye2 A)^T = Elliptope._project_rows eye2 A.
  rewrite etaE; apply/matrixP => i j; rewrite !mxE.
  by rewrite [j == i]eq_sym.
rewrite /Elliptope.proj /= /eye2 trmx1 !mul1mx mulmx1.
set Q := - (_ - _).
have symQ : Q^T = Q by rewrite /Q linearN linearB /= trmxK symEta symA.
by rewrite (lyap_diagonal_sym symQ) subrr half_mx scaler0 subr0 etaE.
Qed.

Lemma elliptope_randvec_unit_tangent_witness :
  let randn := @randn_const algC 1 in
  let lyap := @lyap_diagonal algC in
  let A := (sqrtC 2)^-1 *: ones22 in
  [/\ float64 eye2, unit_rows eye2, Elliptope.rand randn 2 2 tt = Ok (A, tt),
      float64 (Elliptope.proj lyap eye2 A)
    & Elliptope.proj lyap eye2 A != 0]
  /\ exists V,
       [/\ Elliptope.randvec randn lyap eye2 tt = Ok (V, tt),
           la.norm_fro V = 1 & row_tangent eye2 V].
Proof.
move=> randn lyap A.
have realH : float64 (Elliptope.proj lyap eye2 A).
  rewrite /lyap /A ones22_proj => i j; rewrite !mxE.
  by rewrite realM ?inv_sqrt2_real // realB ?real1 // realn.
have nzH : Elliptope.proj lyap eye2 A != 0.
  rewrite /lyap /A ones22_proj; apply/eqP => /matrixP/(_ 0 1).
  rewrite !mxE /= subr0 mulr1 => /eqP.
  by rewrite (negbTE inv_sqrt2_neq0).
have [on_nz _] :=
  elliptope_randvec_unit_tangent lyap eye2_float64 eye2_unit_rows ones22_rand.
split; first by split; [exact: eye2_float64 | exact: eye2_unit_rows
                       | exact: ones22_rand | exact: realH | exact: nzH].
exact: on_nz realH nzH.
Defined.

(* ================================================================== *)
(** ** The dimensions the constructors compute *)

(** X17.  For parameters 1 <= k <= n with k n < 2^53, where the float
    arithmetic of the constructors is exact, the dimensions passed to
    the base initializer are d = k (2 n - k + 1) / 2 > 0 for
    PSDFixedRank, 2 k n - k k > 0 for PSDFixedRankComplex and, for
    Elliptope, e = d - n, the dimension of PSDFixedRank(n, k) less the n
    unit-diagonal constraints, which is not negative. *)
Theorem dimensions_of_valid_parameters (n k : Z) :
  (1 <= k <= n)%pyint -> (k * n < 2 ^ 53)%pyint ->
  exists d e : Z,
    [/\ PSDFixedRank.dimension n k = Ok d,
        Elliptope.dimension n k = Ok e
      & (0 < PSDFixedRankComplex.dimension n k)%pyint]
    /\ [/\ (2 * d = k * (2 * n - k + 1))%pyint, (0 < d)%pyint,
           e = (d - n)%pyint & (0 <= e)%pyint].
Proof.
move=> [k_ge1 k_len] small.
have [m even_k] := consecutive_even k.
have slack : (0 <= k * (n - k))%pyint by apply: Z.mul_nonneg_nonneg; lia.
have square : (1 <= k * k)%pyint by nia.
have room : (0 <= (k - 1) * (2 * n - k))%pyint.
  by apply: Z.mul_nonneg_nonneg; lia.
have below : (0 <= (k - 1) * n)%pyint by apply: Z.mul_nonneg_nonneg; lia.
have m_ge0 : (0 <= k * (k - 1))%pyint by apply: Z.mul_nonneg_nonneg; lia.
exists (k * n - m)%pyint, (n * (k - 1) - m)%pyint.
have -> : PSDFixedRank.dimension n k = Ok (k * n - m)%pyint.
  by rewrite /PSDFixedRank.dimension even_k int_minus_half //; lia.
have -> : Elliptope.dimension n k = Ok (n * (k - 1) - m)%pyint.
  by rewrite /Elliptope.dimension even_k int_minus_half //; lia.
by rewrite /PSDFixedRankComplex.dimension; split; split=> //; lia.
Qed.

Lemma dimensions_of_valid_parameters_witness :
  ((1 <= 2 <= 3) /\ (2 * 3 < 2 ^ 53))%pyint
  /\ exists d e : Z,
       [/\ PSDFixedRank.dimension 3 2 = Ok d,
           Elliptope.dimension 3 2 = Ok e
         & (0 < PSDFixedRankComplex.dimension 3 2)%pyint]
       /\ [/\ (2 * d = 2 * (2 * 3 - 2 + 1))%pyint, (0 < d)%pyint,
              e = (d - 3)%pyint & (0 <= e)%pyint].
Proof.
have valid : (1 <= 2 <= 3)%pyint by lia.
have small : (2 * 3 < 2 ^ 53)%pyint by [].
by split; [split | exact: (dimensions_of_valid_parameters valid small)].
Defined.

(* ================================================================== *)
(** * Further properties of product.py *)

(** ** TangentVector: scaling, negation and the laws of the components *)

Section TangentVectorLaws.
Variables (T S : Type).
Variables (add sub : T -> T -> T) (mul : S -> T -> T) (div : T -> S -> T).
Variable neg : T -> T.

Local Notation tv := (TangentVector.t T).
Local Notation items := (@TangentVector.items T).
Local Notation plus := (TangentVector.plus add sub mul div neg).
Local Notation minus := (TangentVector.minus add sub mul div neg).
Local Notation times := (TangentVector.times add sub mul div neg).
Local Notation negate := (TangentVector.negate add sub mul div neg).

Lemma getitem_map (A B : Type) (f : A -> B) (s : seq A) (i : Z) :
  getitem [seq f x | x <- s] i = (x <- getitem s i ;; Ok (f x)).
Proof.
rewrite /getitem /len size_map.
set j := if (i <? 0)%pyint then _ else _.
case: ifP => // _; rewrite -map_drop.
by case: (drop (Z.to_nat j) s).
Qed.

Lemma len_map (A B : Type) (f : A -> B) (s : seq A) :
  len [seq f x | x <- s] = len s.
Proof. by rewrite /len size_map. Qed.

Lemma zip_with_comm (op : T -> T -> T) (s t : seq T) :
  (forall a b, op a b = op b a) ->
  [seq op p.1 p.2 | p <- zip s t] = [seq op p.1 p.2 | p <- zip t s].
Proof.
by move=> comm; elim: s t => [|a s IH] [|b t] //=; rewrite comm IH.
Qed.

Lemma zip_with_neg (s t : seq T) :
  (forall a b, sub a b = add a (neg b)) ->
  [seq add p.1 p.2 | p <- zip s [seq neg x | x <- t]]
  = [seq sub p.1 p.2 | p <- zip s t].
Proof.
by move=> sub_neg; elim: s t => [|a s IH] [|b t] //=; rewrite sub_neg IH.
Qed.

Lemma zip_with_scaled (op : T -> T -> T) (c : S) (s t : seq T) :
  (forall a b, mul c (op a b) = op (mul c a) (mul c b)) ->
  [seq op p.1 p.2 | p <- zip [seq mul c x | x <- s] [seq mul c x | x <- t]]
  = [seq mul c x | x <- [seq op p.1 p.2 | p <- zip s t]].
Proof.
by move=> distr; elim: s t => [|a s IH] [|b t] //=; rewrite distr IH.
Qed.

(** X18.  G * c and -G never fail, whatever the number c: G * c is a
    TangentVector with as many components as G and mul c (G[i]) at every
    index i (negative indices and IndexError included), and -G holds
    neg (G[i]) likewise.  The class binds the name __rmul__ to the very
    method __mul__. *)
Theorem tangent_vector_scaling_negation (G : tv) (c : S) :
  exists R N : tv,
    [/\ times G c = Ok R,
        lookup "__rmul__" (TangentVector.__dict__ add sub mul div neg)
        = Some (TangentVector.Scalar (TangentVector.__mul__ mul)),
        negate G = Ok N,
        len (items R) = len (items G) /\ len (items N) = len (items G)
      & forall i,
          getitem (items R) i = (a <- getitem (items G) i ;; Ok (mul c a))
          /\ getitem (items N) i = (a <- getitem (items G) i ;; Ok (neg a))].
Proof.
exists (TangentVector.new [seq mul c val | val <- items G]).
exists (TangentVector.new [seq neg val | val <- items G]).
by split=> //= [|i]; rewrite ?len_map ?getitem_map.
Qed.

(** X19.  TangentVector inherits the laws of its components, assertion
    failures included: when the components' + is commutative, G + H and
    H + G have the same outcome; when a - b is a + (-b) on the
    components, G - H has the outcome of G + (-H). *)
Theorem tangent_vector_laws (G H : tv) :
  ((forall a b, add a b = add b a) -> plus G H = plus H G)
  /\ ((forall a b, sub a b = add a (neg b)) ->
      minus G H = (N <- negate H ;; plus G N)).
Proof.
split=> [comm|sub_neg].
  rewrite !plusE Z.eqb_sym; case: ifP => // _.
  by rewrite (zip_with_comm _ _ comm).
rewrite minusE /TangentVector.negate /TangentVector.unary /=.
by rewrite plusE /= len_map zip_with_neg.
Qed.

(** X20.  Scaling distributes over the sum and the difference of
    TangentVectors when it does so on the components: (G + H) * c has
    the outcome of G * c + H * c, and (G - H) * c that of G * c - H * c,
    the assertion failure on different lengths included. *)
Theorem tangent_vector_scaling_distributes (G H : tv) (c : S) :
  (forall a b, mul c (add a b) = add (mul c a) (mul c b)) ->
  (forall a b, mul c (sub a b) = sub (mul c a) (mul c b)) ->
  (R <- plus G H ;; times R c)
  = (G' <- times G c ;; H' <- times H c ;; plus G' H')
  /\ (R <- minus G H ;; times R c)
     = (G' <- times G c ;; H' <- times H c ;; minus G' H').
Proof.
move=> distr_add distr_sub.
rewrite /TangentVector.times /TangentVector.scalar /=.
rewrite !plusE !minusE /= !len_map.
by case: ifP => _ //=; rewrite !zip_with_scaled.
Qed.

End TangentVectorLaws.

Lemma tangent_vector_laws_witness :
  let G := TangentVector.new [:: 1; 2]%pyint in
  let H := TangentVector.new [:: 10; 20]%pyint in
  let plus := TangentVector.plus Z.add Z.sub Z.mul Z.div Z.opp in
  let minus := TangentVector.minus Z.add Z.sub Z.mul Z.div Z.opp in
  let negate := TangentVector.negate Z.add Z.sub Z.mul Z.div Z.opp in
  ((forall a b, a + b = b + a) /\ (forall a b, a - b = a + - b))%pyint
  /\ plus G H = plus H G
  /\ minus G H = (N <- negate H ;; plus G N).
Proof.
move=> G H plus minus negate.
have comm : (forall a b, a + b = b + a)%pyint by move=> a b; lia.
have sub_neg : (forall a b, a - b = a + - b)%pyint by move=> a b; lia.
have [on_comm on_neg] :=
  tangent_vector_laws Z.add Z.sub Z.mul Z.div Z.opp G H.
by split; [split | split; [exact: on_comm | exact: on_neg]].
Defined.

Lemma tangent_vector_scaling_distributes_witness :
  let G := TangentVector.new [:: 1; 2]%pyint in
  let H := TangentVector.new [:: 10; 20]%pyint in
  let plus := TangentVector.plus Z.add Z.sub Z.mul Z.div Z.opp in
  let minus := TangentVector.minus Z.add Z.sub Z.mul Z.div Z.opp in
  let times := TangentVector.times Z.add Z.sub Z.mul Z.div Z.opp in
  ((forall a b, 3 * (a + b) = 3 * a + 3 * b)
   /\ (forall a b, 3 * (a - b) = 3 * a - 3 * b))%pyint
  /\ (R <- plus G H ;; times R 3%pyint)
     = (G' <- times G 3%pyint ;; H' <- times H 3%pyint ;; plus G' H')
  /\ (R <- minus G H ;; times R 3%pyint)
     = (G' <- times G 3%pyint ;; H' <- times H 3%pyint ;; minus G' H').
Proof.
move=> G H plus minus times.
have distr_add : (forall a b, 3 * (a + b) = 3 * a + 3 * b)%pyint.
  by move=> a b; lia.
have distr_sub : (forall a b, 3 * (a - b) = 3 * a - 3 * b)%pyint.
  by move=> a b; lia.
split; first by split.
exact: (tangent_vector_scaling_distributes Z.div Z.opp G H
          distr_add distr_sub).
Defined.

(* ================================================================== *)
(** ** Product: component-wise dispatch *)

Section ProductLaws.
Variable K : numClosedFieldType.
Variable rng : Type.
Local Notation Manifold := (Manifold.t K rng).
Local Notation value := (value K).

Lemma comprehension_size (A B : Type) (f : A -> result B) (s : seq A) r :
  comprehension f s = Ok r -> size r = size s.
Proof.
elim: s r => [|a s IH] r /=; first by case=> <-.
case: (f a) => //= b; case E: (comprehension f s) => [bs| |] //= [<-] /=.
by rewrite (IH bs).
Qed.

Lemma comprehension_rng_size (A B : Type)
  (f : A -> rng -> result (B * rng)) (s : seq A) g r g' :
  comprehension_rng f s g = Ok (r, g') -> size r = size s.
Proof.
elim: s g r g' => [|a s IH] g r g' /=; first by case=> <-.
case: (f a g) => //= -[b g1] /=.
case E: (comprehension_rng f s g1) => [[bs g2]| |] //= [<- _] /=.
by rewrite (IH _ _ _ E).
Qed.

Lemma len_range (A : Type) (s : seq A) : len (range 0 (len s)) = len s.
Proof. by rewrite /len range0E size_map size_iota. Qed.

Lemma zip_truncate (A B : Type) (s : seq A) (t extra : seq B) :
  (size s <= size t)%N -> zip s (t ++ extra) = zip s t.
Proof.
elim: s t => [|a s IH] [|b t] //=; first by case: extra.
by rewrite ltnS => /IH ->.
Qed.

Lemma bind_Ok (A B : Type) (a : A) (f : A -> result B) :
  (x <- Ok a ;; f x) = f a.
Proof. by []. Qed.

(** [self._manifolds[self._nmanifolds - 1]] on a product with a child. *)
Lemma getitem_last (A : Type) (a : A) (s : seq A) :
  getitem (a :: s) (len (a :: s) - 1)%pyint = Ok (last a s).
Proof.
have -> : (len (a :: s) - 1)%pyint = Z.of_nat (size s).
  by rewrite /len [size _]/=; lia.
rewrite getitem_nat.
by elim: s a => [|b s IH] a //=; rewrite drop0.
Qed.

(** The body shared by the two-argument methods, on sequences that hold
    at least one component per child. *)
Lemma dispatch2_zip (method : Manifold -> value -> value -> result value)
  (ms : seq Manifold) (xs us : seq value) (X U : value) :
  (forall i, value_getitem X i = getitem xs i) ->
  (forall i, value_getitem U i = getitem us i) ->
  (size ms <= size xs)%N -> (size ms <= size us)%N ->
  Product.dispatch2 (Product.__init__ ms) method X U
  = comprehension (fun p => method p.1 p.2.1 p.2.2) (zip ms (zip xs us)).
Proof.
move=> getX getU le_xs le_us; rewrite /Product.dispatch2 /=.
have -> : len ms = len (zip ms (zip xs us)).
  rewrite /len !size_zip (minn_idPl _) //.
  by rewrite leq_min le_xs le_us.
apply: comprehension_range => i [m [x u]] rest.
rewrite !drop_zip getX getU !getitem_nat.
case: (drop i ms) => [|m' ms']; case: (drop i xs) => [|x' xs'];
  case: (drop i us) => [|u' us'] //=.
by case=> -> -> ->.
Qed.

Lemma children_zip2 (B : Type) (F : Manifold -> value -> value -> result B)
  (ms : seq Manifold) (xs us : seq value) :
  (size ms <= size xs)%N -> (size ms <= size us)%N ->
  comprehension
    (fun k => man <- getitem ms k ;;
              x <- getitem xs k ;; u <- getitem us k ;; F man x u)
    (range 0 (len ms))
  = comprehension (fun p => F p.1 p.2.1 p.2.2) (zip ms (zip xs us)).
Proof.
move=> le_xs le_us.
have -> : len ms = len (zip ms (zip xs us)).
  rewrite /len !size_zip (minn_idPl _) //.
  by rewrite leq_min le_xs le_us.
apply: comprehension_range => i [m [x u]] rest.
rewrite !drop_zip !getitem_nat.
case: (drop i ms) => [|m' ms']; case: (drop i xs) => [|x' xs'];
  case: (drop i us) => [|u' us'] //=.
by case=> -> -> ->.
Qed.

Lemma children_zip3 (B : Type)
  (F : Manifold -> value -> value -> value -> result B)
  (ms : seq Manifold) (xs gs hs : seq value) :
  (size ms <= size xs)%N -> (size ms <= size gs)%N ->
  (size ms <= size hs)%N ->
  comprehension
    (fun k => man <- getitem ms k ;;
              x <- getitem xs k ;; g <- getitem gs k ;; h <- getitem hs k ;;
              F man x g h)
    (range 0 (len ms))
  = comprehension (fun p => F p.1 p.2.1 p.2.2.1 p.2.2.2)
                  (zip ms (zip xs (zip gs hs))).
Proof.
move=> le_xs le_gs le_hs.
have -> : len ms = len (zip ms (zip xs (zip gs hs))).
  rewrite /len !size_zip (minn_idPl _) //.
  by rewrite !leq_min le_xs le_gs le_hs.
apply: comprehension_range => i [m [x [g h]]] rest.
rewrite !drop_zip !getitem_nat.
case: (drop i ms) => [|m' ms']; case: (drop i xs) => [|x' xs'];
  case: (drop i gs) => [|g' gs']; case: (drop i hs) => [|h' hs'] //=.
by case=> -> -> -> ->.
Qed.

(** X21.  On a point and tangent vectors that hold one component per
    child, the two-argument methods apply the child's method to the
    child's components, child after child, and the first failure is the
    outcome; proj, exp, retr and pairmean wrap the results in a plain
    list, egrad2rgrad and log in a TangentVector. *)
Theorem product_dispatch_componentwise (ms : seq Manifold)
  (xs us : seq value) :
  size xs = size ms -> size us = size ms ->
  let P := Product.__init__ ms in
  let X := VList xs in
  let U := VTangentVector us in
  let Y := VList us in
  let children (method : Manifold -> value -> value -> result value) :=
    comprehension (fun p => method p.1 p.2.1 p.2.2) (zip ms (zip xs us)) in
  [/\ Product.proj P X U
      = (r <- children (@Manifold.proj K rng) ;; Ok (VList r)),
      Product.egrad2rgrad P X U
      = (r <- children (@Manifold.egrad2rgrad K rng) ;;
         Ok (VTangentVector r)),
      Product.exp P X U
      = (r <- children (@Manifold.exp K rng) ;; Ok (VList r))
      /\ Product.retr P X U
         = (r <- children (@Manifold.retr K rng) ;; Ok (VList r))
    & Product.log P X Y
      = (r <- children (@Manifold.log K rng) ;; Ok (VTangentVector r))
      /\ Product.pairmean P X Y
         = (r <- children (@Manifold.pairmean K rng) ;; Ok (VList r))].
Proof.
move=> size_xs size_us P X U Y children.
have le_xs : (size ms <= size xs)%N by rewrite size_xs.
have le_us : (size ms <= size us)%N by rewrite size_us.
have onU method :
  Product.dispatch2 P method X U = children method.
  exact: dispatch2_zip.
have onY method :
  Product.dispatch2 P method X Y = children method.
  exact: dispatch2_zip.
rewrite /Product.proj /Product.egrad2rgrad /Product.exp /Product.retr.
by rewrite /Product.log /Product.pairmean !onU !onY.
Qed.

(** X22.  inner, norm and ehess2rhess on a product with at least one
    child, at a point and tangent vectors with one component per child:
    inner is the sum of the children's inner products, taken child after
    child, norm is the square root of inner(X, G, G), and ehess2rhess
    passes its guard and holds the children's ehess2rhess. *)
Theorem product_inner_componentwise (m : Manifold) (ms : seq Manifold)
  (xs gs hs es : seq value) :
  size xs = size (m :: ms) -> size gs = size (m :: ms) ->
  size hs = size (m :: ms) -> size es = size (m :: ms) ->
  let P := Product.__init__ (m :: ms) in
  let X := VList xs in
  let inners (gs hs : seq value) :=
    comprehension (fun p => Manifold.inner p.1 p.2.1 p.2.2.1 p.2.2.2)
                  (zip (m :: ms) (zip xs (zip gs hs))) in
  [/\ Product.inner P X (VTangentVector gs) (VTangentVector hs)
      = (r <- inners gs hs ;; Ok (np.sum r)),
      Product.norm P X (VTangentVector gs)
      = (r <- inners gs gs ;; np.sqrt (np.sum r))
    & Product.ehess2rhess P X (VTangentVector gs) (VTangentVector es)
                          (VTangentVector hs)
      = (r <- comprehension
                (fun p => Manifold.ehess2rhess p.1 p.2.1 p.2.2.1 p.2.2.2.1
                                               p.2.2.2.2)
                (zip (m :: ms) (zip xs (zip gs (zip es hs)))) ;;
         Ok (VTangentVector r))].
Proof.
move=> size_xs size_gs size_hs size_es P X inners.
have innerE gs' hs' :
  size gs' = size (m :: ms) -> size hs' = size (m :: ms) ->
  Product.inner P X (VTangentVector gs') (VTangentVector hs')
  = (r <- inners gs' hs' ;; Ok (np.sum r)).
  move=> size_gs' size_hs'; rewrite /Product.inner /=.
  by rewrite -/(len (m :: ms)) children_zip3 //= ?size_xs ?size_gs' ?size_hs'.
split; first exact: innerE.
  rewrite /Product.norm innerE //.
  by case: (inners gs gs).
rewrite /Product.ehess2rhess.
have -> : getitem (Product._manifolds P) (Product._nmanifolds P - 1)%pyint
          = Ok (last m ms) by exact: getitem_last.
rewrite bind_Ok.
have -> : Product._nmanifolds P
          = len (zip (m :: ms) (zip xs (zip gs (zip es hs)))).
  rewrite /len !size_zip (minn_idPl _) //=.
  by rewrite !leq_min size_xs size_gs size_hs size_es !leqnn.
congr bind; apply: comprehension_range => i [m0 [x [g [e h]]]] rest.
rewrite /X /value_getitem !drop_zip !getitem_nat.
case: (drop i (m :: ms)) => [|m' ms']; case: (drop i xs) => [|x' xs'];
  case: (drop i gs) => [|g' gs']; case: (drop i es) => [|e' es'];
  case: (drop i hs) => [|h' hs'] //=.
by case=> -> -> -> -> ->.
Qed.

(** X23.  dist and transp at points with one component per child: dist
    is the square root of the sum of the squared distances of the
    children, taken child after child; transp holds, in a plain list,
    the children's transports. *)
Theorem product_dist_transp_componentwise (ms : seq Manifold)
  (xs ys gs : seq value) :
  size xs = size ms -> size ys = size ms -> size gs = size ms ->
  let P := Product.__init__ ms in
  Product.dist P (VList xs) (VList ys)
  = (r <- comprehension
            (fun p => d <- Manifold.dist p.1 p.2.1 p.2.2 ;; Ok (d ^+ 2))
            (zip ms (zip xs ys)) ;;
     np.sqrt (np.sum r))
  /\ Product.transp P (VList xs) (VList ys) (VTangentVector gs)
     = (r <- comprehension
               (fun p => Manifold.transp p.1 p.2.1 p.2.2.1 p.2.2.2)
               (zip ms (zip xs (zip ys gs))) ;;
        Ok (VList r)).
Proof.
move=> size_xs size_ys size_gs P.
rewrite /Product.dist /Product.transp /=.
rewrite (children_zip2 (fun man x y =>
           d <- Manifold.dist man x y ;; Ok (d ^+ 2)))
        ?size_xs ?size_ys //.
by rewrite children_zip3 ?size_xs ?size_ys ?size_gs.
Qed.

End ProductLaws.

Lemma product_dispatch_componentwise_witness :
  let P := Product.__init__ sample_children in
  let X := VList sample_point in
  let U := VTangentVector sample_tangent in
  let children
      (method : Manifold.t algC unit -> value algC -> value algC
                -> result (value algC)) :=
    comprehension (fun p => method p.1 p.2.1 p.2.2)
                  (zip sample_children (zip sample_point sample_tangent)) in
  (size sample_point = size sample_children
   /\ size sample_tangent = size sample_children)
  /\ [/\ Product.proj P X U
         = (r <- children (@Manifold.proj algC unit) ;; Ok (VList r)),
         Product.egrad2rgrad P X U
         = (r <- children (@Manifold.egrad2rgrad algC unit) ;;
            Ok (VTangentVector r))
       & Product.retr P X U
         = (r <- children (@Manifold.retr algC unit) ;; Ok (VList r))].
Proof.
move=> P X U children.
have size_xs : size sample_point = size sample_children by [].
have size_us : size sample_tangent = size sample_children by [].
have [on_proj on_egrad [_ on_retr] _] :=
  product_dispatch_componentwise size_xs size_us.
by split; [split | split; [exact: on_proj | exact: on_egrad | exact: on_retr]].
Defined.

Lemma product_inner_componentwise_witness :
  let P := Product.__init__ sample_children in
  let X := VList sample_point in
  let G := VTangentVector sample_tangent in
  (size sample_point = size sample_children
   /\ size sample_tangent = size sample_children)
  /\ [/\ Product.inner P X G G
         = (r <- comprehension
                   (fun p => Manifold.inner p.1 p.2.1 p.2.2.1 p.2.2.2)
                   (zip sample_children
                      (zip sample_point
                         (zip sample_tangent sample_tangent))) ;;
            Ok (np.sum r)),
         Product.norm P X G
         = (r <- comprehension
                   (fun p => Manifold.inner p.1 p.2.1 p.2.2.1 p.2.2.2)
                   (zip sample_children
                      (zip sample_point
                         (zip sample_tangent sample_tangent))) ;;
            np.sqrt (np.sum r))
       & Product.ehess2rhess P X G G G
         = (r <- comprehension
                   (fun p => Manifold.ehess2rhess p.1 p.2.1 p.2.2.1
                                                  p.2.2.2.1 p.2.2.2.2)
                   (zip sample_children
                      (zip sample_point
                         (zip sample_tangent
                            (zip sample_tangent sample_tangent)))) ;;
            Ok (VTangentVector r))].
Proof.
move=> P X G.
have size_xs : size sample_point = size sample_children by [].
have size_us : size sample_tangent = size sample_children by [].
split; first by split.
exact: (product_inner_componentwise size_xs size_us size_us size_us).
Defined.

Lemma product_dist_transp_componentwise_witness :
  let P := Product.__init__ sample_children in
  [/\ size sample_point = size sample_children,
      size sample_point = size sample_children
    & size sample_tangent = size sample_children]
  /\ Product.dist P (VList sample_point) (VList sample_point)
     = (r <- comprehension
               (fun p => d <- Manifold.dist p.1 p.2.1 p.2.2 ;; Ok (d ^+ 2))
               (zip sample_children (zip sample_point sample_point)) ;;
        np.sqrt (np.sum r))
  /\ Product.transp P (VList sample_point) (VList sample_point)
                    (VTangentVector sample_tangent)
     = (r <- comprehension
               (fun p => Manifold.transp p.1 p.2.1 p.2.2.1 p.2.2.2)
               (zip sample_children
                  (zip sample_point (zip sample_point sample_tangent))) ;;
        Ok (VList r)).
Proof.
move=> P.
have size_xs : size sample_point = size sample_children by [].
have size_gs : size sample_tangent = size sample_children by [].
split; first by split.
exact: (product_dist_transp_componentwise size_xs size_xs size_gs).
Defined.

(* ================================================================== *)
(** ** Product: shapes, lengths and attributes *)

Section ProductShapes.
Variable K : numClosedFieldType.
Variable rng : Type.
Local Notation Manifold := (Manifold.t K rng).
Local Notation value := (value K).

Lemma comprehension_len (A B : Type) (F : Z -> result B) (s : seq A) r :
  comprehension F (range 0 (len s)) = Ok r -> len r = len s.
Proof.
by move/comprehension_size => E; rewrite /len E /len range0E size_map size_iota.
Qed.

Lemma comprehension_rng_len (A B : Type) (F : Z -> rng -> result (B * rng))
  (s : seq A) g r g' :
  comprehension_rng F (range 0 (len s)) g = Ok (r, g') -> len r = len s.
Proof.
move=> H; have E := comprehension_rng_size H.
by rewrite /len E /len range0E size_map size_iota.
Qed.

(** X24.  Whatever the arguments, a method of a product that returns,
    returns one component per child: proj, exp, retr, pairmean, transp
    and rand return a plain Python list, whereas egrad2rgrad, log,
    ehess2rhess, zerovec and randvec return a TangentVector. *)
Theorem product_result_shapes (ms : seq Manifold) (X Y U egrad ehess : value)
  (g : rng) :
  let P := Product.__init__ ms in
  let N := len ms in
  [/\ [/\ list_of_length N (Product.proj P X U),
          list_of_length N (Product.exp P X U),
          list_of_length N (Product.retr P X U),
          list_of_length N (Product.pairmean P X Y)
        & list_of_length N (Product.transp P X Y U)],
      [/\ tangent_vector_of_length N (Product.egrad2rgrad P X U),
          tangent_vector_of_length N (Product.log P X Y),
          tangent_vector_of_length N (Product.ehess2rhess P X egrad ehess U)
        & tangent_vector_of_length N (Product.zerovec P X)]
    & list_of_length N ('(R, _) <- Product.rand P g ;; Ok R)
      /\ tangent_vector_of_length N
           ('(R, _) <- Product.randvec P X g ;; Ok R)].
Proof.
move=> P N.
have on_list F : list_of_length N
    (r <- comprehension F (range 0 (Product._nmanifolds P)) ;; Ok (VList r)).
  move=> R; case E: (comprehension _ _) => [r| |] //= [<-].
  by exists r => //; exact: comprehension_len E.
have on_vector F : tangent_vector_of_length N
    (r <- comprehension F (range 0 (Product._nmanifolds P)) ;;
     Ok (VTangentVector r)).
  move=> R; case E: (comprehension _ _) => [r| |] //= [<-].
  by exists r => //; exact: comprehension_len E.
split; [split; exact: on_list | split; try exact: on_vector | split].
- rewrite /Product.ehess2rhess.
  case: (getitem _ _) => [m|e|] //=; exact: on_vector.
- move=> R; rewrite /Product.rand.
  case E: (comprehension_rng _ _ _) => [[r g']| |] //= [<-].
  by exists r => //; exact: comprehension_rng_len E.
- move=> R; rewrite /Product.randvec.
  case E: (comprehension_rng _ _ _) => [[r g']| |] //= [<-].
  by exists r => //; exact: comprehension_rng_len E.
Qed.

Lemma comprehension_nth_Ok (A B : Type) (f : A -> result B) (s : seq A) r
  (x0 : A) (i : nat) :
  comprehension f s = Ok r -> (i < size s)%N ->
  exists b, f (nth x0 s i) = Ok b.
Proof.
elim: s r i => [|a s IH] r i //=.
case Ea: (f a) => [b| |] //=.
case E: (comprehension f s) => [bs| |] //= _.
case: i => [|i] /=; first by exists b.
by rewrite ltnS; exact: IH E.
Qed.

Lemma nth_range (n i : nat) :
  (i < n)%N -> nth 0%pyint (range 0 (Z.of_nat n)) i = Z.of_nat i.
Proof.
by move=> lt_in; rewrite range0E (nth_map 0%N) ?size_iota // nth_iota.
Qed.

(** A comprehension that reads [X[k]] right after [self._manifolds[k]]
    cannot return on a point with fewer components than children. *)
Lemma short_point_fails (B : Type) (ms : seq Manifold) (xs : seq value)
  (F : Z -> Manifold -> value -> result B) r :
  (size xs < size ms)%N ->
  comprehension (fun k => man <- getitem ms k ;;
                          x <- getitem xs k ;; F k man x)
                (range 0 (len ms)) <> Ok r.
Proof.
move=> lt_xs E.
have lt_range : (size xs < size (range 0 (len ms)))%N.
  by rewrite /len range0E size_map size_iota.
have [b] := comprehension_nth_Ok 0%pyint E lt_range.
rewrite /len nth_range // !getitem_nat drop_size.
by case: (drop (size xs) ms).
Qed.

Lemma zerovec_zip_le (ms : seq Manifold) (xs : seq value) :
  (size ms <= size xs)%N ->
  Product.zerovec (Product.__init__ ms) (VList xs)
  = (r <- comprehension (fun p => Manifold.zerovec p.1 p.2) (zip ms xs) ;;
     Ok (VTangentVector r)).
Proof.
move=> le_xs; rewrite /Product.zerovec /=.
have -> : len ms = len (zip ms xs) by rewrite /len size_zip (minn_idPl le_xs).
congr bind; apply: comprehension_range => i [m x] rest.
rewrite drop_zip !getitem_nat.
case: (drop i ms) => [|m' ms'] //; case: (drop i xs) => [|x' xs'] //=.
by case=> -> ->.
Qed.

(** X25.  The number of components of a point against the number of
    children: components beyond the last child are ignored by proj, retr
    and zerovec, and a point with fewer components than children is
    never accepted (the call does not return). *)
Theorem product_point_length (ms : seq Manifold)
  (xs us extra extra' : seq value) :
  let P := Product.__init__ ms in
  (size xs = size ms -> size us = size ms ->
   [/\ Product.proj P (VList (xs ++ extra)) (VTangentVector (us ++ extra'))
       = Product.proj P (VList xs) (VTangentVector us),
       Product.retr P (VList (xs ++ extra)) (VTangentVector (us ++ extra'))
       = Product.retr P (VList xs) (VTangentVector us)
     & Product.zerovec P (VList (xs ++ extra))
       = Product.zerovec P (VList xs)])
  /\ ((size xs < size ms)%N ->
      forall U R,
        [/\ Product.proj P (VList xs) U <> Ok R,
            Product.retr P (VList xs) U <> Ok R
          & Product.zerovec P (VList xs) <> Ok R]).
Proof.
move=> P; split=> [size_xs size_us|lt_xs U R].
  have le_xs : (size ms <= size xs)%N by rewrite size_xs.
  have le_us : (size ms <= size us)%N by rewrite size_us.
  have le_xs' : (size ms <= size (xs ++ extra))%N.
    by rewrite size_cat size_xs leq_addr.
  have le_us' : (size ms <= size (us ++ extra'))%N.
    by rewrite size_cat size_us leq_addr.
  have cut : zip ms (zip (xs ++ extra) (us ++ extra')) = zip ms (zip xs us).
    rewrite zip_cat ?size_xs ?size_us // zip_truncate //.
    by rewrite size_zip size_xs size_us minnn.
  have on2 method :
    Product.dispatch2 P method (VList (xs ++ extra))
                      (VTangentVector (us ++ extra'))
    = Product.dispatch2 P method (VList xs) (VTangentVector us).
    rewrite (@dispatch2_zip K rng method ms (xs ++ extra) (us ++ extra')) //.
    by rewrite (@dispatch2_zip K rng method ms xs us) // cut.
  split; rewrite /Product.proj /Product.retr ?on2 //.
  by rewrite !zerovec_zip_le // zip_truncate.
have on2 method r : Product.dispatch2 P method (VList xs) U <> Ok r.
  exact: (@short_point_fails _ ms xs
            (fun k man x => u <- value_getitem U k ;; method man x u)).
split.
- by rewrite /Product.proj; case E: (Product.dispatch2 _ _ _ _) (@on2
     (@Manifold.proj K rng)) => [r| |] // /(_ r).
- by rewrite /Product.retr; case E: (Product.dispatch2 _ _ _ _) (@on2
     (@Manifold.retr K rng)) => [r| |] // /(_ r).
- rewrite /Product.zerovec.
  case E: (comprehension _ _) => [r| |] //.
  by case: (@short_point_fails _ ms xs
              (fun _ man x => Manifold.zerovec man x) r lt_xs E).
Qed.

End ProductShapes.

Lemma product_point_length_witness :
  let P := Product.__init__ sample_children in
  (size sample_point = size sample_children
   /\ size sample_tangent = size sample_children
   /\ (size [:: VArray e1_column] < size sample_children)%N)
  /\ [/\ Product.proj P (VList (sample_point ++ [:: VArray eye2]))
                      (VTangentVector (sample_tangent ++ [:: VArray rot2]))
         = Product.proj P (VList sample_point) (VTangentVector sample_tangent),
         Product.zerovec P (VList (sample_point ++ [:: VArray eye2]))
         = Product.zerovec P (VList sample_point)
       & forall R, Product.zerovec P (VList [:: VArray e1_column]) <> Ok R].
Proof.
move=> P.
have size_xs : size sample_point = size sample_children by [].
have size_us : size sample_tangent = size sample_children by [].
have short : (size [:: VArray e1_column : value algC]
              < size sample_children)%N by [].
have [long _] :=
  product_point_length sample_children sample_point sample_tangent
    [:: VArray eye2] [:: VArray rot2].
have [_ on_short] :=
  product_point_length sample_children [:: VArray e1_column] [::] [::] [::].
have [on_proj _ on_zero] := long size_xs size_us.
split; first by [].
split; [exact: on_proj | exact: on_zero |].
by move=> R; have [] := on_short short (VList [::]) R.
Defined.

(* ================================================================== *)
(** ** Product: random points, zero vectors and attributes *)

Section ProductGeometry.
Variable K : numClosedFieldType.
Variable rng : Type.
Variable randn : forall n k : nat, rng -> 'M[K]_(n, k) * rng.
Variable lyap : forall k : nat, 'M[K]_k -> 'M[K]_k -> 'M[K]_k.
Variable svd : forall k : nat, 'M[K]_k -> 'M[K]_k * 'rV[K]_k * 'M[K]_k.
Local Notation Manifold := (Manifold.t K rng).
Local Notation value := (value K).






Lemma tensordot0 (n k : nat) : np.tensordot (0 : 'M[K]_(n, k)) 0 = 0.
Proof.
rewrite /np.tensordot big1 // => i _; rewrite big1 // => j _.
by rewrite mxE mulr0.
Qed.

Lemma iscomplexobj0 (n k : nat) :
  np.iscomplexobj (0 : 'M[K]_(n, k)) = false.
Proof. by apply: float64_iscomplexobj => i j; rewrite mxE real0. Qed.

Lemma np_sum_zeros (s : seq K) : all (fun x => x == 0) s -> np.sum s = 0.
Proof.
rewrite /np.sum; elim: s => [|x s IH] /=; first by rewrite big_nil.
by case/andP=> /eqP -> /IH; rewrite big_cons add0r.
Qed.

(** X27.  At every valid point X of a manifold in scope the zero vector
    has length zero: with z = zerovec(X), inner(X, z, z) returns 0, and
    for a product norm(X, z) returns 0 as well. *)
Theorem zerovec_has_zero_norm (M : Manifold) (X : value) :
  valid_point randn lyap svd M X ->
  exists2 z, Manifold.zerovec M X = Ok z
    & Manifold.inner M X z z = Ok 0
      /\ forall P, M = Product.manifold P -> Product.norm P X z = Ok 0.
Proof.
pose goal (M : Manifold) (X : value) :=
  exists2 z, Manifold.zerovec M X = Ok z & Manifold.inner M X z z = Ok 0.
pose goals (ms : seq Manifold) (xs : seq value) :=
  size ms = size xs /\
  exists zs r,
    [/\ comprehension (fun p => Manifold.zerovec p.1 p.2) (zip ms xs) = Ok zs,
        size zs = size xs,
        comprehension (fun p => Manifold.inner p.1 p.2.1 p.2.2.1 p.2.2.2)
                      (zip ms (zip xs (zip zs zs))) = Ok r
      & all (fun x => x == 0) r].
have main : forall M X, valid_point randn lyap svd M X -> goal M X.
  apply: (@valid_point_ind2 K rng randn lyap svd goal goals).
  - move=> base n k Y; exists (VArray (np.zeros K n k)) => //=.
    rewrite !as_arrayK /= /PSDFixedRank.inner /_PSDFixedRank.inner.
    by rewrite np_zerosE tensordot0 iscomplexobj0.
  - move=> base n k Y; exists (VArray (np.zeros K n k)) => //=.
    rewrite !as_arrayK /= complex_innerE np_zerosE tensordot0.
    by rewrite raddf0 mulr0.
  - move=> base n k Y _; exists (VArray (np.zeros K n k)) => //=.
    rewrite !as_arrayK /= /Elliptope.inner.
    by rewrite np_zerosE tensordot0 iscomplexobj0.
  - move=> ms xs _ [eq_size [zs [r [zero_ok size_zs inner_ok all0]]]].
    exists (VTangentVector zs).
      by rewrite /= product_zerovec_zip // zero_ok.
    rewrite /= /Product.inner /= children_zip3 ?eq_size ?size_zs //.
    by rewrite inner_ok /= np_sum_zeros.
  - by split=> //; exists [::], [::].
  - move=> m ms x xs _ [z zero_m inner_m] _.
    move=> [eq_size [zs [r [zero_ok size_zs inner_ok all0]]]].
    split; first by rewrite /= eq_size.
    exists (z :: zs), (0 :: r); split; rewrite /= ?size_zs ?eqxx //.
      by rewrite zero_m /= zero_ok.
    by rewrite inner_m /= inner_ok.
move=> valid; have [z zero_ok inner_ok] := main M X valid.
exists z => //; split=> // P eqM.
move: inner_ok; rewrite eqM /= /Product.norm => ->.
by rewrite /= np_sqrt0.
Qed.

Lemma foldr_add_cat (s t : seq Z) :
  foldr Z.add 0%pyint (s ++ t)
  = (foldr Z.add 0%pyint s + foldr Z.add 0%pyint t)%pyint.
Proof. by elim: s => [|x s IH] //=; rewrite IH; lia. Qed.

(** X28.  The attributes of products whose children all report
    integers of 64 bits as their dims.  The dim of the product of the
    concatenated children is the sum of the dims of the two products,
    reduced to 64 bits; a product of two products, neither of them
    empty, has the dim of the flat product of all the children.  The
    name of a product is the names of its children joined by " X "
    after the prefix "Product manifold: ". *)
Theorem product_dim_and_name (ms1 ms2 : seq Manifold) (A B : Manifold) :
  all (fun man : Manifold => np.is_int64 (Manifold.dim man)) (ms1 ++ ms2) ->
  [/\ Product.dim (Product.__init__ (ms1 ++ ms2))
      = np.wrap_int64 (Product.dim (Product.__init__ ms1)
                       + Product.dim (Product.__init__ ms2)),
      (0 < size ms1)%N -> (0 < size ms2)%N ->
      Product.dim
        (Product.__init__ [:: Product.manifold (Product.__init__ ms1);
                              Product.manifold (Product.__init__ ms2)])
      = Product.dim (Product.__init__ (ms1 ++ ms2))
    & Product.name (Product.__init__ [:: A; B])
      = ("Product manifold: " ++ Manifold.name A ++ " X "
         ++ Manifold.name B)%string].
Proof.
rewrite all_cat => /andP[ints1 ints2].
pose total (ms : seq Manifold) :=
  foldr Z.add 0%pyint
    [seq np.int_value d | d <- [seq Manifold.dim man | man <- ms]].
have dimE (ms : seq Manifold) :
    all (fun man : Manifold => np.is_int64 (Manifold.dim man)) ms ->
    Product.dim (Product.__init__ ms) = np.wrap_int64 (total ms).
  by move=> ints; rewrite product_dim_int64 // all_map.
have wrapE : np.wrap_int64 (np.wrap_int64 (total ms1)
                            + np.wrap_int64 (total ms2))
             = np.wrap_int64 (total ms1 + total ms2).
  by rewrite wrap_int64_add Z.add_comm wrap_int64_add Z.add_comm.
have catE : Product.dim (Product.__init__ (ms1 ++ ms2))
            = np.wrap_int64 (total ms1 + total ms2).
  by rewrite dimE ?all_cat ?ints1 // /total !map_cat foldr_add_cat.
split=> //; first by rewrite catE !dimE.
have scalarE (ms : seq Manifold) :
    all (fun man : Manifold => np.is_int64 (Manifold.dim man)) ms ->
    (0 < size ms)%N ->
    Product.dim_scalar (Product.__init__ ms)
    = np.Int64 (np.wrap_int64 (total ms)).
  case: ms => [|m ms] // ints _.
  rewrite /Product.dim_scalar [Product._manifolds _]/=.
  by rewrite sum_scalars_int64 // -[_ :: _]/(map _ (m :: ms)) all_map.
move=> some1 some2; rewrite catE -wrapE product_dim_int64.
  by rewrite /= !scalarE //= !wrap_int64_fits.
by rewrite /= !scalarE //= Z.add_0_r.
Qed.

Lemma float_of_int_ge0 (z : Z) : (0 <= z)%pyint -> 0 <= float_of_int K z.
Proof. by case: z => [|p|p] //= _; rewrite ler0n. Qed.

Lemma squares_fit (ds : seq Z) :
  (foldr Z.add 0 [seq d * d | d <- ds] < 2 ^ 63)%pyint ->
  (0 <= foldr Z.add 0 [seq d * d | d <- ds])%pyint
  /\ all np.is_int64 [seq np.Python (d * d)%pyint | d <- ds].
Proof.
elim: ds => [|d ds IH] //=.
have := Z.square_nonneg d => d_ge0 small.
have [|rest_ge0 ->] := IH; first by lia.
split; first by lia.
by rewrite andbT; apply/fits_int64P; lia.
Qed.

Lemma typicaldist_squares (ms : seq Manifold) (ds : seq Z) :
  [seq Manifold.typicaldist man | man <- ms] = [seq Ok (PyInt d) | d <- ds] ->
  comprehension (fun man : Manifold =>
                   d <- Manifold.typicaldist man ;; Ok (square d)) ms
  = Ok [seq PyInt (d * d)%pyint | d <- ds].
Proof.
elim: ms ds => [|m ms IH] [|d ds] //= [-> eq_rest] /=.
by rewrite (IH ds eq_rest).
Qed.

Lemma sum_numbers_pyints (A : Type) (f : A -> Z) (x : A) (s : seq A) :
  np.sum_numbers [seq @PyInt K (f y) | y <- x :: s]
  = np.Integer K (np.sum_scalars [seq np.Python (f y) | y <- x :: s]).
Proof.
rewrite /np.sum_numbers [map _ (x :: s)]/=.
have -> : all (@is_pyint K) (PyInt (f x) :: [seq PyInt (f y) | y <- s]).
  by elim: s.
by rewrite -[_ :: _]/(map _ (x :: s)) -map_comp.
Qed.

(** X29.  typicaldist of a product whose children report the Python
    ints ds, when the sum of their squares is below 2^63 (numpy adds the
    squares as integers of 64 bits), is the square root of that sum, and
    is not negative; the three matrix manifolds report the Python ints
    10 + k, 10 + k and 10 k. *)
Theorem product_typicaldist (ms : seq Manifold) (ds : seq Z) :
  let total := foldr Z.add 0%pyint [seq (d * d)%pyint | d <- ds] in
  [seq Manifold.typicaldist man | man <- ms] = [seq Ok (PyInt d) | d <- ds] ->
  (total < 2 ^ 63)%pyint ->
  [/\ Product.typicaldist (Product.__init__ ms)
      = Ok (sqrtC (float_of_int K total)),
      0 <= sqrtC (float_of_int K total)
    & forall base n k,
        [/\ Manifold.typicaldist (PSDFixedRank.manifold randn lyap n k base)
            = Ok (PyInt (10 + Z.of_nat k)%pyint),
            Manifold.typicaldist
              (PSDFixedRankComplex.manifold randn lyap svd n k base)
            = Ok (PyInt (10 + Z.of_nat k)%pyint)
          & Manifold.typicaldist (Elliptope.manifold randn lyap n k base)
            = Ok (PyInt (10 * Z.of_nat k)%pyint)]].
Proof.
move=> total eq_ds small.
have [total_ge0 ints] := squares_fit small.
have ge0 : 0 <= float_of_int K total by exact: float_of_int_ge0.
split=> //; last by rewrite sqrtC_ge0.
rewrite /Product.typicaldist [Product._manifolds _]/=.
rewrite (typicaldist_squares eq_ds) /bind.
case: ds @total eq_ds small total_ge0 ints ge0 => [|d ds] total.
  by move=> _ _ _ _ _; rewrite /= /np.sqrt lexx.
move=> _ small total_ge0 ints ge0.
have fits : np.fits_int64 total by apply/fits_int64P; lia.
rewrite sum_numbers_pyints (sum_scalars_int64 ints) /np.sqrt_total.
rewrite -[_ :: _]/([seq np.Python (z * z)%pyint | z <- d :: ds]) -map_comp.
by rewrite -/total wrap_int64_id // /np.sqrt ge0.
Qed.

End ProductGeometry.



Lemma sample_valid_point :
  valid_point (@randn_const algC 1) (@lyap_diagonal algC) (@svd_trivial algC)
    (Product.manifold (Product.__init__ sample_children))
    (VList sample_point).
Proof.
apply: valid_Product; apply: valid_cons; first exact: valid_PSDFixedRank.
apply: valid_cons; first exact: (valid_Elliptope _ _ _ _ e1_row_unit_rows).
exact: valid_nil.
Qed.


Lemma zerovec_has_zero_norm_witness :
  let randn := @randn_const algC 1 in
  let lyap := @lyap_diagonal algC in
  let svd := @svd_trivial algC in
  let P := Product.__init__ sample_children in
  let X := VList sample_point in
  valid_point randn lyap svd (Product.manifold P) X
  /\ exists2 z, Product.zerovec P X = Ok z
       & Product.inner P X z z = Ok 0 /\ Product.norm P X z = Ok 0.
Proof.
move=> randn lyap svd P X.
split; first exact: sample_valid_point.
have [z zero_ok [inner_ok norm_ok]] :=
  zerovec_has_zero_norm sample_valid_point.
by exists z => //; split; [exact: inner_ok | exact: norm_ok].
Defined.

Lemma product_dim_and_name_witness :
  let A := Manifold.contract algC unit "A" 3%pyint in
  let B := Manifold.contract algC unit "B" 4%pyint in
  let C := Manifold.contract algC unit "C" 5%pyint in
  let P1 := Product.__init__ [:: A; B] in
  let P2 := Product.__init__ [:: C] in
  [/\ all (fun man : Manifold.t algC unit => np.is_int64 (Manifold.dim man))
         ([:: A; B] ++ [:: C]),
      (0 < size [:: A; B])%N & (0 < size [:: C])%N]
  /\ [/\ Product.dim (Product.__init__ ([:: A; B] ++ [:: C]))
         = np.wrap_int64 (Product.dim P1 + Product.dim P2),
         Product.dim
           (Product.__init__ [:: Product.manifold P1; Product.manifold P2])
         = Product.dim (Product.__init__ ([:: A; B] ++ [:: C]))
       & Product.name (Product.__init__ [:: A; B])
         = ("Product manifold: " ++ Manifold.name A ++ " X "
            ++ Manifold.name B)%string].
Proof.
move=> A B C P1 P2.
have ints : all (fun man : Manifold.t algC unit =>
                   np.is_int64 (Manifold.dim man)) ([:: A; B] ++ [:: C]).
  by [].
have some1 : (0 < size [:: A; B])%N by [].
have some2 : (0 < size [:: C])%N by [].
have [on_cat on_nested on_name] := product_dim_and_name A B ints.
split; first by split.
by split; [exact: on_cat | exact: on_nested some1 some2 | exact: on_name].
Defined.

Lemma product_typicaldist_witness :
  let ds : seq Z := [:: 10 + 1; 10 * 2]%pyint in
  let total := foldr Z.add 0%pyint [seq (d * d)%pyint | d <- ds] in
  ([seq Manifold.typicaldist man | man <- sample_children]
   = [seq Ok (PyInt d) | d <- ds]
   /\ (total < 2 ^ 63)%pyint)
  /\ Product.typicaldist (Product.__init__ sample_children)
     = Ok (sqrtC (float_of_int algC total))
  /\ 0 <= sqrtC (float_of_int algC total).
Proof.
move=> ds total.
have eq_ds : [seq Manifold.typicaldist man | man <- sample_children]
             = [seq Ok (PyInt d) | d <- ds] by [].
have small : (total < 2 ^ 63)%pyint by [].
have [on_dist on_sign _] :=
  product_typicaldist (@randn_const algC 1) (@lyap_diagonal algC)
    (@svd_trivial algC) eq_ds small.
by split; [split | split; [exact: on_dist | exact: on_sign]].
Defined.
